(** * Dose tracker (med-watch-paris): persistence codec, timers and log model

    Shallow embedding of the data layer of [src/pages/Index.tsx]:
    [parseCSV], [entriesToCSV], [loadEntries], [formatElapsed], the
    [elapsed] / [isWarning] memos, [addDose], [deleteSingleDose] and
    [intervalSincePrev], together with the ECMAScript and Luxon
    primitives they call; then [toISOParis], [exportToCSV] and the
    listeners of the service worker. *)

From Stdlib Require Import List Ascii ZArith Lia Bool.
From Stdlib Require Import QArith Qround.
From Stdlib Require Import Sorted Permutation.
From Stdlib Require DecimalN.
Import ListNotations.

Set Warnings "-via-type-remapping,-via-type-mismatch".

(** ** Strings

    A JavaScript string is a sequence of code units; the model keeps the
    code units below 256 (Latin-1), which is all the CSV layout uses.
    Literals are written between double quotes in [str_scope]. *)

Definition str := list ascii.

Inductive str_literal := LNil | LCons (a : ascii) (s : str_literal).

Fixpoint literal_of_bytes (l : list Byte.byte) : str_literal :=
  match l with
  | [] => LNil
  | b :: l' => LCons (ascii_of_byte b) (literal_of_bytes l')
  end.

Fixpoint bytes_of_literal (s : str_literal) : list Byte.byte :=
  match s with
  | LNil => []
  | LCons a s' => byte_of_ascii a :: bytes_of_literal s'
  end.

Declare Scope str_scope.
Delimit Scope str_scope with str.
String Notation str literal_of_bytes bytes_of_literal
  (via str_literal mapping [[nil] => LNil, [cons] => LCons]) : str_scope.
Open Scope str_scope.
Open Scope Z_scope.

Definition LF : ascii := "010"%char.
Definition CR : ascii := "013"%char.

Module JS.

(** *** String.prototype methods *)

(** WhiteSpace and LineTerminator code points below 256: TAB, LF, VT, FF,
    CR, SP and NBSP. *)
Definition isWhiteSpace (c : ascii) : bool :=
  let n := nat_of_ascii c in
  ((9 <=? n) && (n <=? 13) || (n =? 32) || (n =? 160))%nat.

Fixpoint trimStart (s : str) : str :=
  match s with
  | c :: s' => if isWhiteSpace c then trimStart s' else s
  | [] => []
  end.

Definition trimEnd (s : str) : str := rev (trimStart (rev s)).

(** [s.trim()] *)
Definition trim (s : str) : str := trimEnd (trimStart s).

(** [s.toLowerCase()] on Latin-1: A-Z and the accented capitals
    (U+00C0 to U+00DE except the multiplication sign) move up by 32. *)
Definition lowerChar (c : ascii) : ascii :=
  let n := nat_of_ascii c in
  if ((65 <=? n) && (n <=? 90)
      || (192 <=? n) && (n <=? 222) && negb (n =? 215))%nat
  then ascii_of_nat (n + 32) else c.

Definition toLowerCase (s : str) : str := map lowerChar s.

(** [s.startsWith(p)] *)
Fixpoint startsWith (s p : str) : bool :=
  match p, s with
  | [], _ => true
  | a :: p', b :: s' => Ascii.eqb a b && startsWith s' p'
  | _ :: _, [] => false
  end.

(** [s.split(/\r?\n/)]: every LF is a separator and swallows a CR that
    stands directly before it.  [cur] is the piece being read,
    reversed. *)
Fixpoint splitLinesFrom (cur : str) (s : str) : list str :=
  match s with
  | [] => [rev cur]
  | c :: s' =>
      if Ascii.eqb c LF then
        rev (match cur with
             | c0 :: cur' => if Ascii.eqb c0 CR then cur' else cur
             | [] => cur
             end) :: splitLinesFrom [] s'
      else splitLinesFrom (c :: cur) s'
  end.

Definition splitLines (s : str) : list str := splitLinesFrom [] s.

(** [s.split(sep)] for a separator of one code unit. *)
Fixpoint splitFrom (sep : ascii) (cur : str) (s : str) : list str :=
  match s with
  | [] => [rev cur]
  | c :: s' =>
      if Ascii.eqb c sep then rev cur :: splitFrom sep [] s'
      else splitFrom sep (c :: cur) s'
  end.

Definition split (sep : ascii) (s : str) : list str := splitFrom sep [] s.

(** [lines.join(sep)] *)
Fixpoint join (sep : str) (l : list str) : str :=
  match l with
  | [] => []
  | [x] => x
  | x :: l' => x ++ sep ++ join sep l'
  end.

(** [Boolean(s)] for a string, and for a possibly undefined one. *)
Definition truthy_str (s : str) : bool :=
  match s with [] => false | _ :: _ => true end.

Definition truthy (v : option str) : bool :=
  match v with None => false | Some s => truthy_str s end.

(** *** Array.prototype.sort

    SortCompare maps a NaN comparator result to +0; the sort is stable.
    The model is a stable insertion sort: [x] goes behind [y] exactly
    when [comparefn x y > 0].  For a consistent comparator every stable
    sort gives this result; for an inconsistent one (NaN among the
    results) ECMAScript leaves the order to the implementation. *)
Definition sortCompare (v : option Z) : Z :=
  match v with Some z => z | None => 0 end.

Section Sort.
Context {A : Type} (comparefn : A -> A -> option Z).

Fixpoint insert (x : A) (l : list A) : list A :=
  match l with
  | [] => [x]
  | y :: l' =>
      if 0 <? sortCompare (comparefn x y) then y :: insert x l'
      else x :: l
  end.

Definition sort (l : list A) : list A := fold_right insert [] l.
End Sort.

(** *** Decimal digits *)

Inductive nzdigit := N1 | N2 | N3 | N4 | N5 | N6 | N7 | N8 | N9.
Inductive digit := D0 | Dn (d : nzdigit).

Definition char_of_nzdigit (d : nzdigit) : ascii :=
  match d with
  | N1 => "1" | N2 => "2" | N3 => "3" | N4 => "4" | N5 => "5"
  | N6 => "6" | N7 => "7" | N8 => "8" | N9 => "9"
  end%char.

Definition char_of_digit (d : digit) : ascii :=
  match d with D0 => "0"%char | Dn d' => char_of_nzdigit d' end.

Definition digit_of_char (c : ascii) : option digit :=
  match c with
  | "0" => Some D0
  | "1" => Some (Dn N1) | "2" => Some (Dn N2) | "3" => Some (Dn N3)
  | "4" => Some (Dn N4) | "5" => Some (Dn N5) | "6" => Some (Dn N6)
  | "7" => Some (Dn N7) | "8" => Some (Dn N8) | "9" => Some (Dn N9)
  | _ => None
  end%char.

Definition str_of_digits (l : list digit) : str := map char_of_digit l.

(** Longest prefix of decimal digits, and what follows it. *)
Fixpoint spanDigits (s : str) : list digit * str :=
  match s with
  | [] => ([], [])
  | c :: s' =>
      match digit_of_char c with
      | Some d => let (ds, r) := spanDigits s' in (d :: ds, r)
      | None => ([], s)
      end
  end.

Definition N_of_digit (d : digit) : N :=
  match d with
  | D0 => 0 | Dn N1 => 1 | Dn N2 => 2 | Dn N3 => 3 | Dn N4 => 4
  | Dn N5 => 5 | Dn N6 => 6 | Dn N7 => 7 | Dn N8 => 8 | Dn N9 => 9
  end%N.

Definition N_of_digits (l : list digit) : N :=
  fold_left (fun acc d => (10 * acc + N_of_digit d)%N) l 0%N.

Fixpoint digits_of_uint (u : Decimal.uint) : list digit :=
  match u with
  | Decimal.Nil => []
  | Decimal.D0 u' => D0 :: digits_of_uint u'
  | Decimal.D1 u' => Dn N1 :: digits_of_uint u'
  | Decimal.D2 u' => Dn N2 :: digits_of_uint u'
  | Decimal.D3 u' => Dn N3 :: digits_of_uint u'
  | Decimal.D4 u' => Dn N4 :: digits_of_uint u'
  | Decimal.D5 u' => Dn N5 :: digits_of_uint u'
  | Decimal.D6 u' => Dn N6 :: digits_of_uint u'
  | Decimal.D7 u' => Dn N7 :: digits_of_uint u'
  | Decimal.D8 u' => Dn N8 :: digits_of_uint u'
  | Decimal.D9 u' => Dn N9 :: digits_of_uint u'
  end.

(** Decimal digits of a natural number, most significant first, no
    leading zero; [0] is the single digit 0. *)
Definition digits_of_N (n : N) : list digit := digits_of_uint (N.to_uint n).

(** *** Number values

    The only Number the program parses, tests and prints without doing
    arithmetic on it is the dose amount.  Such a value is kept as the
    exact decimal it denotes: a finite non-zero Number is
    [+/- 0.d1 d2 ... dk * 10^n] with [d1] and [dk] non-zero, the triple
    (digits, k, n) of Number::toString.  Rounding to binary64 and overflow to
    Infinity are not modelled, and -0 is identified with +0 (they are
    [===]). *)

Record significand := Sig {
  lead : nzdigit;
  rest : option (list digit * nzdigit)
}.

Definition sig_tail (s : significand) : list digit :=
  match rest s with
  | None => []
  | Some (mid, last) => mid ++ [Dn last]
  end.

Definition sig_digits (s : significand) : list digit :=
  Dn (lead s) :: sig_tail s.

Inductive number :=
| NaN
| Infinity (neg : bool)
| Zero
| Fin (neg : bool) (s : significand) (n : Z).

(** [Number.isFinite(x)] *)
Definition isFinite (x : number) : bool :=
  match x with
  | Zero | Fin _ _ _ => true
  | NaN | Infinity _ => false
  end.

(** Drops the zeros in front. *)
Fixpoint stripZeros (l : list digit) : list digit :=
  match l with
  | D0 :: l' => stripZeros l'
  | _ => l
  end.

(** Drops the zeros at the end and isolates the last non-zero digit. *)
Fixpoint dropTrailingZeros (l : list digit) : option (list digit * nzdigit) :=
  match l with
  | [] => None
  | d :: l' =>
      match dropTrailingZeros l' with
      | Some (mid, last) => Some (d :: mid, last)
      | None => match d with D0 => None | Dn x => Some ([], x) end
      end
  end.

(** The Number denoted by the digit string [ds] scaled by [10^adj]. *)
Definition mkNumber (neg : bool) (ds : list digit) (adj : Z) : number :=
  match stripZeros ds with
  | Dn f :: tl =>
      Fin neg (Sig f (dropTrailingZeros tl)) (Z.of_nat (length tl) + 1 + adj)
  | _ => Zero
  end.

(** The exponent of the scientific notation: its sign and its digits. *)
Definition expString (e : Z) : str :=
  (if e <? 0 then "-" else "+") ++ str_of_digits (digits_of_N (Z.abs_N e)).

(** Number::toString(x) in radix 10, the conversion a template literal
    applies: plain digits up to [10^21], a decimal point inside or "0."
    in front down to [10^-6], scientific notation otherwise. *)
Definition toString (x : number) : str :=
  match x with
  | NaN => "NaN"
  | Zero => "0"
  | Infinity neg => (if neg then "-" else []) ++ "Infinity"
  | Fin neg s n =>
      let ds := sig_digits s in
      let k := Z.of_nat (length ds) in
      (if neg then "-" else []) ++
      if (k <=? n) && (n <=? 21) then
        str_of_digits ds ++ repeat "0"%char (Z.to_nat (n - k))
      else if (0 <? n) && (n <=? 21) then
        str_of_digits (firstn (Z.to_nat n) ds) ++ "."
          ++ str_of_digits (skipn (Z.to_nat n) ds)
      else if (-6 <? n) && (n <=? 0) then
        "0." ++ repeat "0"%char (Z.to_nat (- n)) ++ str_of_digits ds
      else
        match sig_tail s with
        | [] => char_of_nzdigit (lead s) :: "e" ++ expString (n - 1)
        | tl => char_of_nzdigit (lead s) :: "." ++ str_of_digits tl
                  ++ "e" ++ expString (n - 1)
        end
  end.

(** Value of a digit in the given radix (2, 8 or 16). *)
Definition radixDigit (radix : N) (c : ascii) : option N :=
  let n := N_of_ascii c in
  let v := (if (48 <=? n) && (n <=? 57) then Some (n - 48)
            else if (97 <=? n) && (n <=? 102) then Some (n - 87)
            else if (65 <=? n) && (n <=? 70) then Some (n - 55)
            else None)%N in
  match v with
  | Some d => if (d <? radix)%N then Some d else None
  | None => None
  end.

Fixpoint radixValue (radix : N) (acc : N) (s : str) : option N :=
  match s with
  | [] => Some acc
  | c :: s' =>
      match radixDigit radix c with
      | Some d => radixValue radix (radix * acc + d)%N s'
      | None => None
      end
  end.

(** NonDecimalIntegerLiteral: 0x, 0o or 0b and at least one digit. *)
Definition nonDecimalLiteral (s : str) : option N :=
  match s with
  | c :: p :: ((_ :: _) as body) =>
      if negb (Ascii.eqb c "0") then None
      else if (Ascii.eqb p "x" || Ascii.eqb p "X")%char
      then radixValue 16 0 body
      else if (Ascii.eqb p "o" || Ascii.eqb p "O")%char
      then radixValue 8 0 body
      else if (Ascii.eqb p "b" || Ascii.eqb p "B")%char
      then radixValue 2 0 body
      else None
  | _ => None
  end.

(** ExponentPart (or nothing) up to the end of the literal. *)
Definition exponentPart (s : str) : option Z :=
  match s with
  | [] => Some 0
  | c :: s' =>
      if (Ascii.eqb c "e" || Ascii.eqb c "E")%char then
        let (neg, body) :=
          match s' with
          | "-"%char :: b => (true, b)
          | "+"%char :: b => (false, b)
          | _ => (false, s')
          end in
        match spanDigits body with
        | ((_ :: _) as ds, []) =>
            let v := Z.of_N (N_of_digits ds) in
            Some (if neg then - v else v)
        | _ => None
        end
      else None
  end.

(** StrUnsignedDecimalLiteral: Infinity, or digits with an optional
    fraction and an optional exponent, at least one digit before or
    after the point. *)
Definition unsignedDecimal (neg : bool) (s : str) : number :=
  if list_eq_dec ascii_dec s "Infinity" then Infinity neg
  else
    let (ip, r1) := spanDigits s in
    let (fp, r2) :=
      match r1 with
      | "."%char :: r => spanDigits r
      | _ => ([], r1)
      end in
    match ip ++ fp with
    | [] => NaN
    | ds =>
        match exponentPart r2 with
        | Some e => mkNumber neg ds (e - Z.of_nat (length fp))
        | None => NaN
        end
    end.

(** StringToNumber, the conversion [Number(s)] applies to a string:
    optional white space around a signed decimal literal or an unsigned
    binary, octal or hexadecimal integer; the empty string is 0 and
    anything else NaN. *)
Definition StringToNumber (s : str) : number :=
  match trim s with
  | [] => Zero
  | t =>
      match nonDecimalLiteral t with
      | Some v => mkNumber false (digits_of_N v) 0
      | None =>
          match t with
          | "-"%char :: u => unsignedDecimal true u
          | "+"%char :: u => unsignedDecimal false u
          | _ => unsignedDecimal false t
          end
      end
  end.

(** [Number(v)] for a string or [undefined] (which gives NaN). *)
Definition Number (v : option str) : number :=
  match v with
  | None => NaN
  | Some s => StringToNumber s
  end.

(** The integer part of [0.ds * 10^p]. *)
Definition scaledFloor (ds : list digit) (p : Z) : N :=
  if p <=? 0 then 0%N
  else N_of_digits (firstn (Z.to_nat p) (ds ++ repeat D0 (Z.to_nat p))).

(** [x.toFixed(1)]: with [n] the integer nearest to [10 * |x|] (the
    larger one on a tie), the digits of [n] with a point before the last
    one; magnitudes from [10^21] on fall back to toString. *)
Definition toFixed1 (x : number) : str :=
  let render (neg : bool) (n : N) : str :=
    (if neg then "-" else []) ++ str_of_digits (digits_of_N (n / 10))
      ++ "." ++ str_of_digits (digits_of_N (n mod 10)) in
  match x with
  | NaN | Infinity _ => toString x
  | Zero => render false 0%N
  | Fin neg s n =>
      if 21 <? n then toString x
      else render neg ((scaledFloor (sig_digits s) (n + 2) + 5) / 10)%N
  end.

(** *** Integer-valued Numbers

    Durations are handled in whole milliseconds, and [Math.floor] gives
    integers; such a Number is an integer or NaN.  An integer prints as
    its decimal digits (below [10^21] in magnitude, far above any
    difference of two timestamps). *)
Definition Z_toString (z : Z) : str :=
  (if z <? 0 then "-" else []) ++ str_of_digits (digits_of_N (Z.abs_N z)).

Definition int_toString (v : option Z) : str :=
  match v with
  | Some z => Z_toString z
  | None => "NaN"
  end.

End JS.

(** *** Abrupt completion

    The only exception this code could raise is the TypeError of a
    method call on [undefined]. *)
Inductive result (A : Type) : Type :=
| Ok (v : A)
| TypeError.
Arguments Ok {A} v.
Arguments TypeError {A}.

Definition bind {A B} (m : result A) (f : A -> result B) : result B :=
  match m with
  | Ok v => f v
  | TypeError => TypeError
  end.

Notation "x <- m ;; k" := (bind m (fun x => k))
  (at level 61, m at next level, right associativity).

(** [v.method()] where [v] may be [undefined]. *)
Definition invoke {A B} (v : option A) (method : A -> B) : result B :=
  match v with
  | Some a => Ok (method a)
  | None => TypeError
  end.

(** [for (const x of xs) body] threading the loop's state. *)
Fixpoint forOf {A S} (xs : list A) (body : S -> A -> result S) (s : S)
  : result S :=
  match xs with
  | [] => Ok s
  | x :: xs' => s' <- body s x ;; forOf xs' body s'
  end.

(** [try { m } catch { handler }] *)
Definition tryCatch {A} (m : result A) (handler : A) : A :=
  match m with
  | Ok v => v
  | TypeError => handler
  end.

(** ** Luxon

    Luxon is a dependency of the program, not part of it.  A DateTime is
    an instant in epoch milliseconds or invalid; a Duration in the units
    hours, minutes and seconds is a whole number of milliseconds or
    invalid.  [as] converts with the fixed factors of these units and is
    exact. *)
Module Luxon.

Inductive DateTime :=
| Instant (ms : Z)
| InvalidDateTime.

Inductive Duration :=
| Millis (ms : Z)
| InvalidDuration.

(** [dt.toMillis()], NaN when invalid. *)
Definition toMillis (dt : DateTime) : option Z :=
  match dt with
  | Instant ms => Some ms
  | InvalidDateTime => None
  end.

(** [a.diff(b, units)] for units among hours, minutes and seconds. *)
Definition diff (a b : DateTime) : Duration :=
  match a, b with
  | Instant x, Instant y => Millis (x - y)
  | _, _ => InvalidDuration
  end.

Inductive unit := Hours | Minutes | Seconds.

Definition unitMillis (u : unit) : positive :=
  match u with
  | Hours => 3600000
  | Minutes => 60000
  | Seconds => 1000
  end%positive.

(** [d.as(u)], NaN when invalid. *)
Definition as_ (d : Duration) (u : unit) : option Q :=
  match d with
  | Millis ms => Some (ms # unitMillis u)
  | InvalidDuration => None
  end.

(** [d.minus({ hours, minutes })]; an invalid duration is returned as it
    is.  A NaN unit value only arises from an invalid duration. *)
Definition minus (d : Duration) (hours minutes : option Z) : Duration :=
  match d, hours, minutes with
  | Millis ms, Some h, Some m => Millis (ms - h * 3600000 - m * 60000)
  | _, _, _ => InvalidDuration
  end.

(** [d.shiftTo("hours", "minutes", "seconds")] keeps the length. *)
Definition shiftTo (d : Duration) : Duration := d.

(** [d.negate()] *)
Definition negate (d : Duration) : Duration :=
  match d with
  | Millis ms => Millis (- ms)
  | InvalidDuration => InvalidDuration
  end.

(** *** An ISO 8601 reader

    The program's functions below take [DateTime.fromISO] as a
    parameter.  For concrete runs, [fromISO] reads the extended calendar
    layout with an explicit offset,
    [YYYY-MM-DDThh:mm:ss], an optional fraction after [.] or [,] and
    [Z] or [+hh:mm] / [-hh:mm].  The other layouts Luxon reads (dates
    alone, week and ordinal dates, local time without offset) are not
    covered: this reader gives an invalid DateTime for them. *)

Definition twoDigits (s : str) : option (Z * str) :=
  match s with
  | a :: b :: r =>
      match JS.digit_of_char a, JS.digit_of_char b with
      | Some x, Some y => Some (Z.of_N (JS.N_of_digits [x; y]), r)
      | _, _ => None
      end
  | _ => None
  end.

Definition expect (c : ascii) (s : str) : option str :=
  match s with
  | c' :: r => if Ascii.eqb c c' then Some r else None
  | [] => None
  end.

Definition isLeap (y : Z) : bool :=
  (y mod 4 =? 0) && (negb (y mod 100 =? 0) || (y mod 400 =? 0)).

Definition daysInMonth (y m : Z) : Z :=
  if m =? 2 then (if isLeap y then 29 else 28)
  else if (m =? 4) || (m =? 6) || (m =? 9) || (m =? 11) then 30
  else 31.

(** Days from 1970-01-01 to the civil date [y]-[m]-[d]. *)
Definition daysFromCivil (y m d : Z) : Z :=
  let y' := if m <=? 2 then y - 1 else y in
  let era := y' / 400 in
  let yoe := y' - era * 400 in
  let doy := (153 * (if 2 <? m then m - 3 else m + 9) + 2) / 5 + d - 1 in
  let doe := yoe * 365 + yoe / 4 - yoe / 100 + doy in
  era * 146097 + doe - 719468.

(** Milliseconds of a fraction: its first three digits. *)
Definition fractionMillis (ds : list JS.digit) : Z :=
  Z.of_N (JS.N_of_digits (firstn 3 (ds ++ [JS.D0; JS.D0; JS.D0]))).

Definition readOffset (s : str) : option Z :=
  match s with
  | [c] => if (Ascii.eqb c "Z" || Ascii.eqb c "z")%char then Some 0 else None
  | c :: r =>
      if (Ascii.eqb c "+" || Ascii.eqb c "-")%char then
        match twoDigits r with
        | Some (oh, r1) =>
            match expect ":" r1 with
            | Some r2 =>
                match twoDigits r2 with
                | Some (om, []) =>
                    let minutes := oh * 60 + om in
                    Some (if Ascii.eqb c "-" then - minutes else minutes)
                | _ => None
                end
            | None => None
            end
        | None => None
        end
      else None
  | [] => None
  end.

Definition optBind {A B} (m : option A) (f : A -> option B) : option B :=
  match m with Some a => f a | None => None end.

Definition readISO (s : str) : option Z :=
  let (yd, r0) := JS.spanDigits s in
  if negb (length yd =? 4)%nat then None else
  let y := Z.of_N (JS.N_of_digits yd) in
  optBind (expect "-" r0) (fun r1 =>
  optBind (twoDigits r1) (fun '(mo, r2) =>
  optBind (expect "-" r2) (fun r3 =>
  optBind (twoDigits r3) (fun '(d, r4) =>
  optBind (expect "T" r4) (fun r5 =>
  optBind (twoDigits r5) (fun '(h, r6) =>
  optBind (expect ":" r6) (fun r7 =>
  optBind (twoDigits r7) (fun '(mi, r8) =>
  optBind (expect ":" r8) (fun r9 =>
  optBind (twoDigits r9) (fun '(sec, r10) =>
  let '(frac, r11) :=
    match r10 with
    | c :: r =>
        if (Ascii.eqb c "." || Ascii.eqb c ",")%char
        then JS.spanDigits r else ([], r10)
    | [] => ([], r10)
    end in
  let fracOk :=
    match r10 with
    | c :: _ =>
        if (Ascii.eqb c "." || Ascii.eqb c ",")%char
        then (1 <=? length frac)%nat && (length frac <=? 30)%nat else true
    | [] => true
    end in
  let ms := fractionMillis frac in
  optBind (readOffset r11) (fun off =>
  if fracOk
     && (1 <=? mo) && (mo <=? 12) && (1 <=? d) && (d <=? daysInMonth y mo)
     && ((h <=? 23) && (mi <=? 59) && (sec <=? 59)
         || (h =? 24) && (mi =? 0) && (sec =? 0) && (ms =? 0))
  then Some ((((daysFromCivil y mo d * 24 + h) * 60 + mi - off) * 60 + sec)
             * 1000 + ms)
  else None))))))))))).

Definition fromISO (s : str) : DateTime :=
  match readISO s with
  | Some ms => Instant ms
  | None => InvalidDateTime
  end.

End Luxon.

(** [Math.floor(x)] and [x < y] on Numbers that may be NaN. *)
Module Math.
Definition floor (x : option Q) : option Z := option_map Qfloor x.
End Math.

Definition lessThan (x : option Q) (y : Z) : bool :=
  match x with
  | Some q => negb (Qle_bool (inject_Z y) q)
  | None => false
  end.

(** ** The program *)

Import JS Luxon.

(** The Number 1. *)
Definition one : number := Fin false (Sig N1 None) 1.

(** The Number 0.5. *)
Definition half : number := Fin false (Sig N5 None) 0.

(** [type DoseEntry = { tsISO: string; amount: number }] *)
Record DoseEntry := mkEntry { tsISO : str; amount : number }.

Definition CSV_HEADER : str := "timestamp,amount".
Definition RED_THRESHOLD_MIN : Z := 90.

(** The placeholder of [intervalSincePrev], an em dash (its UTF-8
    bytes). *)
Definition DASH : str := "—".

Definition str_eqb (a b : str) : bool :=
  if list_eq_dec ascii_dec a b then true else false.

Section Program.

(** [DateTime.fromISO] *)
Variable fromISO : str -> DateTime.

(** The comparator of [parseCSV]:
    [(a, b) => fromISO(b.tsISO).toMillis() - fromISO(a.tsISO).toMillis()] *)
Definition compareEntries (a b : DoseEntry) : option Z :=
  match toMillis (fromISO (tsISO b)), toMillis (fromISO (tsISO a)) with
  | Some x, Some y => Some (x - y)
  | _, _ => None
  end.

(** Body of the loop of [parseCSV]. *)
Definition parseRow (entries : list DoseEntry) (line : str)
  : result (list DoseEntry) :=
  let parts := split "," line in
  let ts := nth_error parts 0 in
  let amt := nth_error parts 1 in
  if negb (truthy ts) || negb (truthy amt) then Ok entries
  else
    let amount := Number amt in
    if isFinite amount then
      t <- invoke ts trim ;;
      Ok (entries ++ [mkEntry t amount])
    else Ok entries.

Definition parseCSV (csv : str) : result (list DoseEntry) :=
  let lines := filter truthy_str (splitLines (trim csv)) in
  if (length lines =? 0)%nat then Ok []
  else
    hasHeader <- invoke (nth_error lines 0)
                   (fun l => startsWith (toLowerCase l) "timestamp,") ;;
    let rows := if hasHeader then skipn 1 lines else lines in
    entries <- forOf rows parseRow [] ;;
    Ok (sort compareEntries entries).

Definition entryLine (e : DoseEntry) : str :=
  tsISO e ++ "," ++ toString (amount e).

Definition entriesToCSV (entries : list DoseEntry) : str :=
  let lines := CSV_HEADER :: map entryLine entries in
  join [LF] lines.

(** [item] is [localStorage.getItem(CSV_KEY)], [None] for null. *)
Definition loadEntries (item : option str) : list DoseEntry :=
  match item with
  | None => []
  | Some csv =>
      if negb (truthy_str csv) then []
      else tryCatch (parseCSV csv) []
  end.

(** [saveEntries] returns the new content of the storage slot. *)
Definition saveEntries (entries : list DoseEntry) : option str :=
  Some (entriesToCSV entries).

Definition pad (n : option Z) : str :=
  match n with
  | Some z => if z <? 10 then "0" ++ int_toString n else int_toString n
  | None => int_toString n
  end.

Definition formatElapsed (d : Duration) : str :=
  let hh := Math.floor (as_ d Hours) in
  let mm := Math.floor (as_ (minus d hh (Some 0)) Minutes) in
  let ss := Math.floor (as_ (minus d hh mm) Seconds) in
  pad hh ++ ":" ++ pad mm ++ ":" ++ pad ss.

(** State of the component that the data layer touches, with the
    storage slot. *)
Record State := mkState {
  entries : list DoseEntry;
  doseAmt : number;
  isAddingDose : bool;
  stored : option str
}.

(** [useState(() => loadEntries())], [useState(1.0)], [useState(false)] *)
Definition initialState (item : option str) : State :=
  mkState (loadEntries item) one false item.

Definition lastDoseDT (st : State) : option DateTime :=
  match entries st with
  | e :: _ => Some (fromISO (tsISO e))
  | [] => None
  end.

(** [now] is the value of [nowParis()]. *)
Definition elapsed (now : DateTime) (st : State) : option Duration :=
  match lastDoseDT st with
  | None => None
  | Some dt => Some (shiftTo (diff now dt))
  end.

Definition isWarning (elapsed : option Duration) : bool :=
  match elapsed with
  | None => false
  | Some d => lessThan (as_ d Minutes) RED_THRESHOLD_MIN
  end.

(** [nowISO] is the value of [toISOParis(nowParis())]. *)
Definition addDose (nowISO : str) (st : State) : State :=
  if isAddingDose st then st
  else
    let newEntry := mkEntry nowISO (Number (Some (toFixed1 (doseAmt st)))) in
    let next := newEntry :: entries st in
    mkState next (doseAmt st) true (saveEntries next).

(** The timer callback of [addDose]: [setIsAddingDose(false)]. *)
Definition finishAdding (st : State) : State :=
  mkState (entries st) (doseAmt st) false (stored st).

(** The slider's [onValueChange]: [setDoseAmt(value[0])]. *)
Definition setDoseAmt (value : number) (st : State) : State :=
  mkState (entries st) value (isAddingDose st) (stored st).

Definition deleteAllDoses (st : State) : State :=
  mkState [] (doseAmt st) (isAddingDose st) None.

Definition deleteSingleDose (entryToDelete : DoseEntry) (st : State) : State :=
  let updated :=
    filter (fun e => negb (str_eqb (tsISO e) (tsISO entryToDelete)))
      (entries st) in
  mkState updated (doseAmt st) (isAddingDose st) (saveEntries updated).

Definition intervalText (d : Duration) : str :=
  let h := Math.floor (as_ d Hours) in
  let m := Math.floor (as_ (minus d h (Some 0)) Minutes) in
  int_toString h ++ "h " ++ int_toString m ++ "m".

Definition intervalSincePrev (st : State) (i : nat) : result str :=
  if Z.of_nat i =? Z.of_nat (length (entries st)) - 1 then Ok DASH
  else
    curr <- invoke (nth_error (entries st) i) (fun e => fromISO (tsISO e)) ;;
    prev <- invoke (nth_error (entries st) (i + 1))
              (fun e => fromISO (tsISO e)) ;;
    let d := diff curr prev in
    Ok (intervalText d).

(** The earlier revision of the file negated the difference. *)
Definition intervalSincePrev_negated (st : State) (i : nat) : result str :=
  if Z.of_nat i =? Z.of_nat (length (entries st)) - 1 then Ok DASH
  else
    curr <- invoke (nth_error (entries st) i) (fun e => fromISO (tsISO e)) ;;
    prev <- invoke (nth_error (entries st) (i + 1))
              (fun e => fromISO (tsISO e)) ;;
    let d := negate (diff curr prev) in
    Ok (intervalText d).

End Program.

(** ** Specification-side definitions

    The notions the specification's sentences use, written after its
    words, to compare with the program above. *)

(** Two-digit, zero-padded rendering of [0 <= z < 100]. *)
Definition digitChar (z : Z) : ascii := ascii_of_nat (48 + Z.to_nat z).

Definition twoDigit (z : Z) : str :=
  [digitChar (z / 10); digitChar (z mod 10)].

(** The hours field of HH:MM:SS: at least two digits, never reduced
    modulo 24. *)
Definition hoursField (h : Z) : str :=
  if h <? 100 then twoDigit h else Z_toString h.

(** Whole hours and remaining whole minutes of a length in
    milliseconds. *)
Definition wholeHours (ms : Z) : Z := ms / 3600000.
Definition minutesPart (ms : Z) : Z := (ms / 60000) mod 60.
Definition secondsPart (ms : Z) : Z := (ms / 1000) mod 60.

(** Elapsed minutes, as a rational. *)
Definition totalMinutes (ms : Z) : Q := ms # 60000.

(** [s] is the plain decimal numeral of [z >= 0]: digits only, of value
    [z], with no zero in front (but the numeral of 0). *)
Definition plainNumeral (z : Z) (s : str) : Prop :=
  exists ds, s = str_of_digits ds /\ N_of_digits ds = Z.to_N z
             /\ (ds = [D0] \/ stripZeros ds = ds).

(** A present, valid duration is not negative. *)
Definition neverNegative (d : option Duration) : Prop :=
  match d with
  | Some (Millis ms) => 0 <= ms
  | _ => True
  end.

(** Splitting once, on the first comma: the text before it and, when
    there is a comma, all the text after it. *)
Fixpoint upToComma (s : str) : str * option str :=
  match s with
  | [] => ([], None)
  | c :: s' =>
      if Ascii.eqb c "," then ([], Some s')
      else let (a, r) := upToComma s' in (c :: a, r)
  end.

(** The two parts of a line split once with its remainder kept whole. *)
Definition splitOnce (line : str) : option str * option str :=
  let (a, r) := upToComma line in (Some a, r).


(** The two fields [parseRow] reads: [const [ts, amt] = line.split(",")]. *)
Definition fieldsRead (line : str) : option str * option str :=
  let parts := split "," line in (nth_error parts 0, nth_error parts 1).

(** A data line is well formed when both fields are present and the
    amount field parses to a finite Number; [entryOf] is its record. *)
Definition wellFormed (line : str) : bool :=
  let (ts, amt) := fieldsRead line in
  truthy ts && truthy amt && isFinite (Number amt).

Definition entryOf (line : str) : DoseEntry :=
  let (ts, amt) := fieldsRead line in
  mkEntry (trim (match ts with Some t => t | None => [] end)) (Number amt).

(** The data lines of a text: its non-empty lines, without the first one
    when that is a header. *)
Definition nonEmptyLines (csv : str) : list str :=
  filter truthy_str (splitLines (trim csv)).

Definition isHeader (line : str) : bool :=
  startsWith (toLowerCase line) "timestamp,".

Definition dataLines (csv : str) : list str :=
  match nonEmptyLines csv with
  | [] => []
  | l0 :: tl => if isHeader l0 then tl else l0 :: tl
  end.

Section Order.
Variable fromISO : str -> DateTime.

(** The parsed instant of a record, when its timestamp parses. *)
Definition instantOf (e : DoseEntry) : option Z :=
  toMillis (fromISO (tsISO e)).

Definition parseable (e : DoseEntry) : Prop := instantOf e <> None.

(** [a] is not earlier than [b]. *)
Definition notEarlier (a b : DoseEntry) : Prop :=
  match instantOf a, instantOf b with
  | Some x, Some y => y <= x
  | _, _ => False
  end.

(** Most recent first: every record is not earlier than every record
    behind it. *)
Definition sortedDescending (l : list DoseEntry) : Prop :=
  StronglySorted notEarlier l.

(** A record the encoder and decoder agree on: finite amount, parseable
    timestamp without surrounding white space, comma or line feed. *)
Definition plainRecord (e : DoseEntry) : Prop :=
  isFinite (amount e) = true
  /\ parseable e
  /\ trim (tsISO e) = tsISO e
  /\ ~ In ","%char (tsISO e)
  /\ ~ In LF (tsISO e).
End Order.

(** The record [addDose] creates, and the records [deleteSingleDose]
    leaves. *)
Definition newEntryOf (nowISO : str) (st : State) : DoseEntry :=
  mkEntry nowISO (Number (Some (toFixed1 (doseAmt st)))).

Definition remaining (e : DoseEntry) (l : list DoseEntry) : list DoseEntry :=
  filter (fun x => negb (str_eqb (tsISO x) (tsISO e))) l.


(** ** Auxiliary notions and sample data *)

(** The log of the persisted layout's example: 1.0 at 14:05 and 0.5 at
    10:30 of the same day. *)
Definition sampleLog : list DoseEntry :=
  [ mkEntry "2024-03-02T14:05:00+01:00" one;
    mkEntry "2024-03-02T10:30:00+01:00" half ].

Definition stateOf (l : list DoseEntry) : State :=
  mkState l one false None.

(** The text does not end with a CR. *)
Definition noTrailingCR (s : str) : Prop :=
  match rev s with
  | c :: _ => c <> CR
  | [] => True
  end.

(** A text with a header, two good lines and a line whose amount is not
    a number. *)
Definition sampleText : str :=
  join [LF]
    [ "timestamp,amount";
      "2024-03-02T14:05:00+01:00,1.0";
      "2024-01-01T10:00:00+01:00,abc";
      "2024-03-02T10:30:00+01:00,0.5" ].

(** A line with a third field. *)
Definition threeFieldLine : str := "2024-03-02T10:30:00+01:00,0.5,zz".

(** The text does not begin with a digit, or with a full stop. *)
Definition nonDigitHead (r : str) : Prop :=
  match r with
  | [] => True
  | c :: _ => digit_of_char c = None
  end.

Definition noDotHead (r : str) : Prop :=
  match r with
  | c :: _ => c <> "."%char
  | [] => True
  end.

(** Code units a finite Number prints with. *)
Definition numberChar (c : ascii) : bool :=
  existsb (Ascii.eqb c) "0123456789.e+-".

Definition numeric (s : str) : Prop := Forall (fun c => numberChar c = true) s.

(** The text ends with a code unit that is not white space. *)
Definition endsClean (s : str) : Prop :=
  exists m z, s = m ++ [z] /\ isWhiteSpace z = false.

(** What the round-trip law asks of a record as it is worded: a finite
    amount and a parseable timestamp without surrounding white space. *)
Definition statedRecord (fromISO : str -> DateTime) (e : DoseEntry) : Prop :=
  isFinite (amount e) = true
  /\ parseable fromISO e
  /\ trim (tsISO e) = tsISO e.

(** A timestamp with the decimal comma of ISO 8601. *)
Definition commaLog : list DoseEntry :=
  [ mkEntry "2024-03-02T14:05:00,5+01:00" one ].


(** Amounts with at most one decimal digit, below [10^21]. *)
Definition atMostOneDecimal (x : number) : Prop :=
  match x with
  | Zero => True
  | Fin _ s n => Z.of_nat (length (sig_digits s)) <= n + 1 /\ n <= 21
  | _ => False
  end.


(** Slider values of magnitude below [10^20]. *)
Definition moderate (x : number) : Prop :=
  match x with
  | Zero => True
  | Fin _ _ n => n <= 20
  | _ => False
  end.


(** ** The timestamp of a new dose

    [addDose] stamps the new record with [toISOParis(nowParis())].
    [nowParis] is [DateTime.now().setZone(PARIS)]: the instant the clock
    reads, in a zone whose offset from UTC at that instant is a number
    of minutes ([offset] below; 60 or 120 for Europe/Paris).
    [toISOParis] is Luxon's [toISO] with [suppressMilliseconds]: the
    extended layout [YYYY-MM-DDThh:mm:ss], the milliseconds after a
    full stop unless they are 0, and the offset as [+hh:mm] or
    [-hh:mm] (the zone is not a fixed-offset zone, so [Z] is never
    written). *)
Module LuxonISO.

(** [padStart(input, n)]: the decimal digits of an integer, padded with
    zeros on the left to [n] digits, behind the sign. *)
Definition padStart (input : Z) (n : nat) : str :=
  let digits := str_of_digits (digits_of_N (Z.abs_N input)) in
  (if input <? 0 then "-" else [])
    ++ repeat "0"%char (n - length digits) ++ digits.

(** The civil date of the day number [z] counted from 1970-01-01, in the
    proleptic Gregorian calendar: year, month and day as the UTC getters
    of a Date give them. *)
Definition civilFromDays (z : Z) : Z * Z * Z :=
  let z' := z + 719468 in
  let era := z' / 146097 in
  let doe := z' - era * 146097 in
  let yoe := (doe - doe / 1460 + doe / 36524 - doe / 146096) / 365 in
  let doy := doe - (365 * yoe + yoe / 4 - yoe / 100) in
  let mp := (5 * doy + 2) / 153 in
  let d := doy - (153 * mp + 2) / 5 + 1 in
  let m := if mp <? 10 then mp + 3 else mp - 9 in
  let y := yoe + era * 400 in
  (if m <=? 2 then y + 1 else y, m, d).

(** The calendar fields of a DateTime. *)
Record DateObject := mkDate {
  year : Z; month : Z; day : Z;
  hour : Z; minute : Z; second : Z; millisecond : Z
}.

(** [tsToObj(ts, offset)]: the fields of the local time, [offset]
    minutes ahead of UTC. *)
Definition tsToObj (ts offset : Z) : DateObject :=
  let local := ts + offset * 60 * 1000 in
  let t := local mod 86400000 in
  let '(y, m, d) := civilFromDays (local / 86400000) in
  mkDate y m d (t / 3600000) (t / 60000 mod 60) (t / 1000 mod 60)
    (t mod 1000).

(** [toISODate], extended format: six digits and a sign for a year
    outside 0000 to 9999. *)
Definition toISODate (c : DateObject) : str :=
  let longFormat := (9999 <? year c) || (year c <? 0) in
  (if longFormat && (0 <=? year c) then "+" else [])
    ++ padStart (year c) (if longFormat then 6 else 4)
    ++ "-" ++ padStart (month c) 2 ++ "-" ++ padStart (day c) 2.

(** [toISOTime], extended format, seconds always shown, with the
    offset [o] of a zone that is not of fixed offset. *)
Definition toISOTime (suppressMilliseconds : bool) (c : DateObject) (o : Z)
  : str :=
  padStart (hour c) 2 ++ ":" ++ padStart (minute c) 2
    ++ ":" ++ padStart (second c) 2
    ++ (if negb (millisecond c =? 0) || negb suppressMilliseconds
        then "." ++ padStart (millisecond c) 3 else [])
    ++ (if o <? 0
        then "-" ++ padStart (Z.quot (- o) 60) 2
               ++ ":" ++ padStart (Z.rem (- o) 60) 2
        else "+" ++ padStart (Z.quot o 60) 2
               ++ ":" ++ padStart (Z.rem o 60) 2).

(** [dt.toISO({ suppressMilliseconds })], [null] when invalid. *)
Definition toISO (suppressMilliseconds : bool) (offset : Z) (dt : DateTime)
  : option str :=
  match dt with
  | Instant ts =>
      let c := tsToObj ts offset in
      Some (toISODate c ++ "T" ++ toISOTime suppressMilliseconds c offset)
  | InvalidDateTime => None
  end.

End LuxonISO.

(** [nowParis()] when the clock reads [ms]. *)
Definition nowParis (ms : Z) : DateTime := Instant ms.

(** [toISOParis(dt)]; the non-null assertion does nothing at run
    time. *)
Definition toISOParis (offset : Z) (dt : DateTime) : option str :=
  LuxonISO.toISO true offset dt.

(** ** The export

    [exportToCSV]: the title of the toast and, when a file is offered,
    its name and its text.  [today] is
    [DateTime.now().toFormat('yyyy-MM-dd')]. *)
Definition exportToCSV (today : str) (st : State)
  : str * option (str * str) :=
  if (length (entries st) =? 0)%nat then ("No data to export", None)
  else
    let csv := entriesToCSV (entries st) in
    ("CSV exported", Some ("dose-tracker-" ++ today ++ ".csv", csv)).

(** ** The service worker

    The three listeners of the worker script.  The Cache API is the
    browser's: a cache answers a request by its URL (the responses
    carry no Vary header), and the network is a function that answers a
    request with a response or fails. *)
Module SW.

Definition CACHE : str := "dose-tracker-v1".

Definition ASSETS : list str :=
  [ "/"; "/index.html"; "/manifest.webmanifest";
    "/icons/icon-192.png"; "/icons/icon-512.png" ].

Record Request := mkRequest { method : str; url : str; mode : str }.

Record Response := mkResponse { status : Z; body : str }.

(** A cache holds responses under the URLs of their requests, the
    oldest first; the cache storage holds the caches under their names,
    in the order of their creation. *)
Definition Cache := list (str * Response).
Definition CacheStorage := list (str * Cache).

(** [cache.match(request)] *)
Fixpoint cacheMatch (u : str) (c : Cache) : option Response :=
  match c with
  | [] => None
  | (k, r) :: c' => if str_eqb k u then Some r else cacheMatch u c'
  end.

(** [caches.match(request)]: the first cache with a match answers. *)
Fixpoint cachesMatch (u : str) (cs : CacheStorage) : option Response :=
  match cs with
  | [] => None
  | (_, c) :: cs' =>
      match cacheMatch u c with
      | Some r => Some r
      | None => cachesMatch u cs'
      end
  end.

(** [cache.put(request, response)]: the entries of this URL go and the
    new one comes last. *)
Definition cachePut (u : str) (r : Response) (c : Cache) : Cache :=
  filter (fun e => negb (str_eqb (fst e) u)) c ++ [(u, r)].

(** [caches.open(name).then((cache) => f(cache))]: the cache of this
    name, created behind the others when there is none. *)
Fixpoint withCache (name : str) (f : Cache -> Cache) (cs : CacheStorage)
  : CacheStorage :=
  match cs with
  | [] => [(name, f [])]
  | (k, c) :: cs' =>
      if str_eqb k name then (k, f c) :: cs'
      else (k, c) :: withCache name f cs'
  end.

(** [response.ok] *)
Definition ok (r : Response) : bool :=
  (200 <=? status r) && (status r <=? 299).

(** The requests [cache.addAll(ASSETS)] makes, against the worker's
    origin. *)
Definition assetRequest (origin path : str) : Request :=
  mkRequest "GET" (origin ++ path) "cors".

(** Fetches all of them: the responses, or nothing when a fetch fails
    or a response is not ok. *)
Fixpoint fetchAll (network : Request -> option Response)
  (reqs : list Request) : option (list (str * Response)) :=
  match reqs with
  | [] => Some []
  | q :: reqs' =>
      match network q with
      | Some r =>
          if ok r then
            match fetchAll network reqs' with
            | Some l => Some ((url q, r) :: l)
            | None => None
            end
          else None
      | None => None
      end
  end.

(** The listener of [install]: whether the promise given to [waitUntil]
    is fulfilled, and the cache storage it leaves. *)
Definition onInstall (origin : str) (network : Request -> option Response)
  (cs : CacheStorage) : bool * CacheStorage :=
  match fetchAll network (map (assetRequest origin) ASSETS) with
  | Some l =>
      (true,
       withCache CACHE
         (fun c => fold_left (fun c' e => cachePut (fst e) (snd e) c') l c) cs)
  | None => (false, withCache CACHE (fun c => c) cs)
  end.

(** The listener of [activate]: every cache of another name is
    deleted. *)
Definition onActivate (cs : CacheStorage) : CacheStorage :=
  filter (fun e => str_eqb (fst e) CACHE) cs.

(** What a [fetch] event ends with: the listener returns without
    [respondWith], or the promise given to [respondWith] is fulfilled
    with a response, fulfilled with [undefined], or rejected. *)
Inductive Answer :=
| NotHandled
| Responded (r : Response)
| RespondedUndefined
| Rejected.

(** The listener of [fetch], with the cache storage once its promises
    are settled. *)
Definition onFetch (origin : str) (network : Request -> option Response)
  (req : Request) (cs : CacheStorage) : Answer * CacheStorage :=
  if negb (str_eqb (method req) "GET") || negb (startsWith (url req) origin)
  then (NotHandled, cs)
  else
    match cachesMatch (url req) cs with
    | Some cached => (Responded cached, cs)
    | None =>
        match network req with
        | Some response =>
            (Responded response,
             if status response =? 200
             then withCache CACHE (cachePut (url req) response) cs
             else cs)
        | None =>
            if str_eqb (mode req) "navigate" then
              (match cachesMatch (origin ++ "/") cs with
               | Some r => Responded r
               | None => RespondedUndefined
               end, cs)
            else (Rejected, cs)
        end
    end.

End SW.

(** ** Notions for the further properties *)

(** A timestamp the encoder and the decoder agree on: it parses, and it
    has no surrounding white space, no comma and no line feed. *)
Definition plainStamp (fromISO : str -> DateTime) (s : str) : Prop :=
  toMillis (fromISO s) <> None
  /\ trim s = s
  /\ ~ In ","%char s
  /\ ~ In LF s.

(** The record's timestamp parses to the instant [t]. *)
Definition sameInstant (fromISO : str -> DateTime) (t : Z) (e : DoseEntry)
  : bool :=
  match instantOf fromISO e with
  | Some x => x =? t
  | None => false
  end.

(** The states of a session: the state after the load, of a text whose
    timestamps parse, and the states after an event; a dose is added
    with a timestamp the encoder and the decoder agree on, at an instant
    that is not earlier than any record of the log, and the slider gives
    amounts of moderate magnitude (it ranges from 0 to 2). *)
Inductive session (fromISO : str -> DateTime) : State -> Prop :=
| session_load (item : option str) :
    Forall (parseable fromISO) (loadEntries fromISO item) ->
    session fromISO (initialState fromISO item)
| session_add (nowISO : str) (st : State) :
    session fromISO st ->
    plainStamp fromISO nowISO ->
    Forall (notEarlier fromISO (newEntryOf nowISO st)) (entries st) ->
    session fromISO (addDose nowISO st)
| session_finish (st : State) :
    session fromISO st -> session fromISO (finishAdding st)
| session_slider (value : number) (st : State) :
    session fromISO st -> moderate value ->
    session fromISO (setDoseAmt value st)
| session_delete (e : DoseEntry) (st : State) :
    session fromISO st -> session fromISO (deleteSingleDose e st)
| session_clear (st : State) :
    session fromISO st -> session fromISO (deleteAllDoses st).

(** [f] holds at [z], [z + 1], ..., [z + n - 1]. *)
Fixpoint allFrom (f : Z -> bool) (n : nat) (z : Z) : bool :=
  match n with
  | O => true
  | S n' => f z && allFrom f n' (z + 1)
  end.

(** One era of 400 years: the date of each of its days, checked against
    [daysFromCivil]. *)
Definition checkDoe (doe : Z) : bool :=
  let '(y, m, d) := LuxonISO.civilFromDays (doe - 719468) in
  (0 <=? y) && (y <=? 400) && (1 <=? m) && (m <=? 12)
  && (1 <=? d) && (d <=? daysInMonth y m)
  && (0 <=? (if m <=? 2 then y - 1 else y))
  && ((if m <=? 2 then y - 1 else y) <? 400)
  && (daysFromCivil y m d =? doe - 719468).

(** [padStart v k] is [k] digits of value [v]. *)
Definition paddedOk (k : nat) (v : Z) : bool :=
  match spanDigits (LuxonISO.padStart v k) with
  | (ds, []) => (length ds =? k)%nat && (Z.of_N (N_of_digits ds) =? v)
  | _ => false
  end.

(** Code units of a written timestamp, the full stop apart. *)
Definition stampChar (c : ascii) : bool :=
  existsb (Ascii.eqb c) "0123456789-:T+".

(** The local time is in the years 0000 to 9999. *)
Definition fourDigitYear (offset ms : Z) : Prop :=
  -62167219200000 <= ms + offset * 60 * 1000 < 253402300800000.

(** The offset as [toISOTime] writes it. *)
Definition offsetText (o : Z) : str :=
  if o <? 0
  then "-" ++ LuxonISO.padStart (Z.quot (- o) 60) 2
         ++ ":" ++ LuxonISO.padStart (Z.rem (- o) 60) 2
  else "+" ++ LuxonISO.padStart (Z.quot o 60) 2
         ++ ":" ++ LuxonISO.padStart (Z.rem o 60) 2.

(** The text with CR LF for each LF, and with LF CR (its mirror
    image). *)
Definition toCRLF (s : str) : str :=
  flat_map (fun c => if Ascii.eqb c LF then [CR; LF] else [c]) s.

Definition toLFCR (s : str) : str :=
  flat_map (fun c => if Ascii.eqb c LF then [LF; CR] else [c]) s.

(** A text without order: a header in capitals, CR LF line ends, white
    space around the fields, an empty line, a line without amount, an
    amount in scientific notation and a third field. *)
Definition messyText : str :=
  join [CR; LF]
    [ "Timestamp,Amount";
      " 2024-03-02T10:30:00+01:00 , 0.50 ";
      [];
      "no amount here";
      "2024-03-02T14:05:00+01:00,1e0,x" ].

(** Two records at the same instant, written with different offsets,
    behind an earlier one. *)
Definition tiedText : str :=
  join [LF]
    [ "2024-03-02T10:30:00+01:00,0.5";
      "2024-03-02T14:05:00+01:00,1";
      "2024-03-02T13:05:00Z,0.5" ].

(** A session: two doses, the second of 0.5, then the first one
    deleted. *)
Definition sampleSession : State :=
  deleteSingleDose (mkEntry "2024-03-02T10:30:00.250+01:00" one)
    (addDose "2024-03-02T14:05:00+01:00"
       (setDoseAmt half
          (finishAdding
             (addDose "2024-03-02T10:30:00.250+01:00"
                (initialState Luxon.fromISO None))))).

(** The cache [name] holds the response [r] under the URL [u]. *)
Definition holds (cs : SW.CacheStorage) (name u : str) (r : SW.Response)
  : Prop :=
  exists c, In (name, c) cs /\ In (u, r) c.

(** The first cache of this name. *)
Fixpoint cacheNamed (name : str) (cs : SW.CacheStorage) : option SW.Cache :=
  match cs with
  | [] => None
  | (k, c) :: cs' => if str_eqb k name then Some c else cacheNamed name cs'
  end.

(** The current cache answers a request for the URL [u]. *)
Definition cachedInCurrent (u : str) (cs : SW.CacheStorage) : Prop :=
  exists c, cacheNamed SW.CACHE cs = Some c /\ SW.cacheMatch u c <> None.

(** The cache storage after a run of fetch events, each with the
    network as it answers then. *)
Definition afterFetches (origin : str)
  (events : list ((SW.Request -> option SW.Response) * SW.Request))
  (cs : SW.CacheStorage) : SW.CacheStorage :=
  fold_left (fun s ev => snd (SW.onFetch origin (fst ev) (snd ev) s))
    events cs.

(** No network. *)
Definition offline : SW.Request -> option SW.Response := fun _ => None.

Definition sampleOrigin : str := "https://dose.example".

(** A network that answers every request with a 200 response whose
    body is the URL. *)
Definition sampleNetwork (q : SW.Request) : option SW.Response :=
  Some (SW.mkResponse 200 (SW.url q)).

Definition sampleRequest : SW.Request :=
  SW.mkRequest "GET" "https://dose.example/assets/app.js" "no-cors".

Definition sampleNavigation : SW.Request :=
  SW.mkRequest "GET" "https://dose.example/history" "navigate".

(** A cache storage with the cache of an older version, and one with
    the current cache behind it. *)
Definition sampleCaches : SW.CacheStorage :=
  [ ("dose-tracker-v0",
     [("https://dose.example/", SW.mkResponse 200 "old")]) ].

Definition sampleCaches2 : SW.CacheStorage :=
  sampleCaches
    ++ [ (SW.CACHE, [("https://dose.example/", SW.mkResponse 200 "new")]) ].

(** ** Decimal numerals *)

Lemma digit_of_char_of_digit d : digit_of_char (char_of_digit d) = Some d.
Proof. destruct d as [|[]]; reflexivity. Qed.

Lemma N_of_digits_acc (u : Decimal.uint) (acc : positive) :
  fold_left (fun a d => (10 * a + N_of_digit d)%N) (digits_of_uint u)
    (Npos acc)
  = Npos (Pos.of_uint_acc u acc).
Proof.
  revert acc.
  induction u; intros acc; cbn [digits_of_uint fold_left Pos.of_uint_acc];
    try reflexivity;
    match goal with
    | |- fold_left _ _ ?a = Npos (Pos.of_uint_acc _ ?b) =>
        replace a with (Npos b) by (cbn [N_of_digit]; lia)
    end; apply IHu.
Qed.

Lemma N_of_digits_uint (u : Decimal.uint) :
  N_of_digits (digits_of_uint u) = N.of_uint u.
Proof.
  unfold N_of_digits, N.of_uint.
  induction u; cbn [digits_of_uint fold_left Pos.of_uint];
    try reflexivity; try exact IHu;
    match goal with
    | |- fold_left _ _ ?a = Npos (Pos.of_uint_acc _ ?b) =>
        replace a with (Npos b) by (cbn [N_of_digit]; lia)
    end; apply N_of_digits_acc.
Qed.

(** Reading back the digits of a natural number gives the number. *)
Lemma N_of_digits_of_N (n : N) : N_of_digits (digits_of_N n) = n.
Proof.
  unfold digits_of_N. rewrite N_of_digits_uint.
  apply DecimalN.Unsigned.of_to.
Qed.

Lemma digits_of_uint_nil u : digits_of_uint u = [] -> u = Decimal.Nil.
Proof. destruct u; cbn; intros H; congruence. Qed.

Lemma digits_of_N_nonempty (n : N) : digits_of_N n <> [].
Proof.
  unfold digits_of_N. intros H. apply digits_of_uint_nil in H.
  pose proof (DecimalN.Unsigned.to_of (N.to_uint n)) as T.
  rewrite DecimalN.Unsigned.of_to, H in T. cbn in T. discriminate.
Qed.

Lemma stripZeros_nzhead u :
  stripZeros (digits_of_uint (Decimal.nzhead u)) = digits_of_uint (Decimal.nzhead u).
Proof.
  induction u; cbn [Decimal.nzhead digits_of_uint stripZeros];
    try reflexivity. exact IHu.
Qed.

(** The numeral of a natural number has no leading zero, except for the
    numeral of 0 itself. *)
Lemma digits_of_N_canonical (n : N) :
  digits_of_N n = [D0] \/ stripZeros (digits_of_N n) = digits_of_N n.
Proof.
  unfold digits_of_N.
  pose proof (DecimalN.Unsigned.to_of (N.to_uint n)) as T.
  rewrite DecimalN.Unsigned.of_to in T. rewrite T.
  unfold Decimal.unorm.
  destruct (Decimal.nzhead (N.to_uint n)) eqn:E;
    try (right; rewrite <- E; apply stripZeros_nzhead).
  left. reflexivity.
Qed.

Lemma Z_toString_nonneg z :
  0 <= z -> Z_toString z = str_of_digits (digits_of_N (Z.to_N z)).
Proof.
  intros H. unfold Z_toString.
  destruct (z <? 0) eqn:E; [apply Z.ltb_lt in E; lia|].
  cbn [app]. f_equal. f_equal. lia.
Qed.

Lemma plainNumeral_toString z : 0 <= z -> plainNumeral z (Z_toString z).
Proof.
  intros H. exists (digits_of_N (Z.to_N z)).
  split; [apply Z_toString_nonneg, H|].
  split; [apply N_of_digits_of_N | apply digits_of_N_canonical].
Qed.

(** ** Durations and the timer *)

Lemma pad_twoDigit_nat (n : nat) :
  (n < 100)%nat -> pad (Some (Z.of_nat n)) = twoDigit (Z.of_nat n).
Proof.
  intros H.
  do 100 (destruct n as [|n]; [vm_compute; reflexivity|]).
  lia.
Qed.

Lemma pad_twoDigit z : 0 <= z < 100 -> pad (Some z) = twoDigit z.
Proof.
  intros H. rewrite <- (Z2Nat.id z) by lia. apply pad_twoDigit_nat. lia.
Qed.

Lemma pad_large z : 100 <= z -> pad (Some z) = Z_toString z.
Proof.
  intros H. unfold pad.
  destruct (z <? 10) eqn:E; [apply Z.ltb_lt in E; lia | reflexivity].
Qed.

Lemma floor_as ms u :
  Math.floor (as_ (Millis ms) u) = Some (ms / Zpos (unitMillis u)).
Proof. reflexivity. Qed.

Lemma remainder_fields ms :
  (ms - ms / 3600000 * 3600000) / 60000 = minutesPart ms /\
  (ms - ms / 3600000 * 3600000 - minutesPart ms * 60000) / 1000
    = secondsPart ms.
Proof.
  unfold minutesPart, secondsPart.
  split; Z.to_euclidean_division_equations; lia.
Qed.

Lemma part_bounds ms :
  0 <= minutesPart ms < 60 /\ 0 <= secondsPart ms < 60.
Proof.
  unfold minutesPart, secondsPart.
  split; apply Z.mod_pos_bound; lia.
Qed.

(** C8: a non-negative duration renders as HH:MM:SS, each field zero
    padded to two digits, minutes and seconds below 60, and the hours
    field holding the total of whole hours, which is not taken modulo 24;
    25 h 3 min 9 s gives 25:03:09. *)
Theorem formatElapsed_zero_padded :
  (forall ms, 0 <= ms ->
     formatElapsed (Millis ms)
     = hoursField (wholeHours ms) ++ ":" ++ twoDigit (minutesPart ms)
         ++ ":" ++ twoDigit (secondsPart ms)
     /\ 0 <= minutesPart ms < 60 /\ 0 <= secondsPart ms < 60
     /\ (100 <= wholeHours ms ->
         plainNumeral (wholeHours ms) (hoursField (wholeHours ms))))
  /\ formatElapsed (Millis (((25 * 60 + 3) * 60 + 9) * 1000)) = "25:03:09".
Proof.
  split; [|reflexivity].
  intros ms H. split; [|split; [apply part_bounds|split; [apply part_bounds|]]].
  2:{ intros L. unfold hoursField.
      destruct (wholeHours ms <? 100) eqn:E; [apply Z.ltb_lt in E; lia|].
      apply plainNumeral_toString. lia. }
  destruct (part_bounds ms) as [Bm Bs].
  destruct (remainder_fields ms) as [Hm Hs].
  unfold formatElapsed.
  rewrite floor_as. cbn [minus]. rewrite floor_as. cbn [unitMillis].
  replace (ms - ms / 3600000 * 3600000 - 0 * 60000)
    with (ms - ms / 3600000 * 3600000) by lia.
  rewrite Hm, floor_as. cbn [unitMillis]. rewrite Hs.
  rewrite (pad_twoDigit (minutesPart ms)), (pad_twoDigit (secondsPart ms))
    by lia.
  f_equal. unfold hoursField, wholeHours.
  destruct (ms / 3600000 <? 100) eqn:E.
  - apply pad_twoDigit. apply Z.ltb_lt in E.
    split; [apply Z.div_pos; lia | lia].
  - apply pad_large. apply Z.ltb_ge in E. lia.
Qed.

Lemma formatElapsed_zero_padded_witness :
  formatElapsed (Millis 450189999) = "125:03:09".
Proof.
  destruct formatElapsed_zero_padded as [H _].
  destruct (H 450189999 ltac:(lia)) as [E _].
  rewrite E. reflexivity.
Defined.

Lemma lessThan_spec ms :
  lessThan (as_ (Millis ms) Minutes) RED_THRESHOLD_MIN = true
  <-> (totalMinutes ms < 90)%Q.
Proof.
  unfold lessThan, as_, totalMinutes, RED_THRESHOLD_MIN, inject_Z.
  cbn [unitMillis]. rewrite negb_true_iff. split; intros H.
  - apply Qnot_le_lt. intros C. apply Qle_bool_iff in C. congruence.
  - destruct (Qle_bool (90 # 1) (ms # 60000)) eqn:E; [|reflexivity].
    apply Qle_bool_iff in E. exfalso. exact (Qlt_not_le _ _ H E).
Qed.

(** C2: for a present elapsed duration the warning holds exactly when the
    elapsed minutes are strictly below 90: 89 minutes warn, 90 minutes
    do not (nor does an invalid duration, whose minutes are NaN); with
    no prior dose no warning is asserted. *)
Theorem isWarning_threshold :
  (forall ms, isWarning (Some (Millis ms)) = true <-> (totalMinutes ms < 90)%Q)
  /\ isWarning (Some InvalidDuration) = false
  /\ isWarning (Some (Millis (89 * 60000))) = true
  /\ isWarning (Some (Millis (90 * 60000))) = false
  /\ isWarning None = false.
Proof.
  split; [|repeat split].
  intros ms. apply lessThan_spec.
Qed.

(** ** Elapsed time and intervals *)

Section Timer.
Variable fromISO : str -> DateTime.

Lemma elapsed_none now st :
  elapsed fromISO now st = None <-> entries st = [].
Proof.
  unfold elapsed, lastDoseDT.
  destruct (entries st); split; intros H; congruence.
Qed.

Lemma elapsed_some st e l n t :
  entries st = e :: l -> fromISO (tsISO e) = Instant t ->
  elapsed fromISO (Instant n) st = Some (Millis (n - t)).
Proof.
  intros He Ht. unfold elapsed, lastDoseDT. rewrite He, Ht. reflexivity.
Qed.



Lemma intervalSincePrev_last st i :
  S i = length (entries st) -> intervalSincePrev fromISO st i = Ok DASH.
Proof.
  intros H. unfold intervalSincePrev.
  destruct (Z.of_nat i =? Z.of_nat (length (entries st)) - 1) eqn:E;
    [reflexivity | apply Z.eqb_neq in E; lia].
Qed.


End Timer.



(** The earlier revision, which negated the difference, rendered the
    same pair as a negative interval. *)
Example intervalSincePrev_negated_sample :
  intervalSincePrev_negated Luxon.fromISO (stateOf sampleLog) 0
  = Ok "-4h 25m".
Proof. reflexivity. Qed.

(** C4: [elapsed] is absent exactly when the log is empty; otherwise it
    is the length from the newest record's instant to the current
    instant, and that length is non-negative exactly when the newest
    record is not later than the current instant: no clamping is
    applied. *)
Theorem elapsed_since_last :
  forall (fromISO : str -> DateTime) (now : DateTime) (st : State),
  (elapsed fromISO now st = None <-> entries st = [])
  /\ (forall e l n t,
        entries st = e :: l -> now = Instant n ->
        fromISO (tsISO e) = Instant t ->
        elapsed fromISO now st = Some (Millis (n - t))
        /\ (neverNegative (elapsed fromISO now st) <-> t <= n)).
Proof.
  intros fromISO now st. split; [apply elapsed_none|].
  intros e l n t He Hn Ht. subst now.
  rewrite (elapsed_some fromISO st e l n t He Ht).
  split; [reflexivity|]. cbn [neverNegative]. lia.
Qed.

Lemma elapsed_since_last_witness :
  elapsed Luxon.fromISO (Instant 1709384700000) (stateOf sampleLog)
  = Some (Millis 0).
Proof.
  destruct (elapsed_since_last Luxon.fromISO (Instant 1709384700000)
              (stateOf sampleLog)) as [_ H].
  destruct (H _ _ 1709384700000 1709384700000 eq_refl eq_refl eq_refl)
    as [E _].
  exact E.
Defined.

(** With the clock one second behind the newest record, the elapsed
    duration is negative: nothing clamps it to zero. *)
Lemma elapsed_negative_under_skew :
  ~ neverNegative
      (elapsed Luxon.fromISO (Instant 1709384699000) (stateOf sampleLog)).
Proof. cbv. intros H. apply H. reflexivity. Qed.

(** ** String primitives *)

Lemma trimStart_clean c s :
  isWhiteSpace c = false -> trimStart (c :: s) = c :: s.
Proof. intros H. cbn [trimStart]. rewrite H. reflexivity. Qed.

Lemma trimEnd_clean s z :
  isWhiteSpace z = false -> trimEnd (s ++ [z]) = s ++ [z].
Proof.
  intros H. unfold trimEnd. rewrite rev_unit, trimStart_clean by exact H.
  cbn [rev]. rewrite rev_involutive. reflexivity.
Qed.

Lemma trimStart_blank s :
  forallb isWhiteSpace s = true -> trimStart s = [].
Proof.
  induction s as [|c s IH]; [reflexivity|].
  cbn [forallb trimStart]. intros H. apply andb_prop in H as [Hc Hs].
  rewrite Hc. apply IH, Hs.
Qed.

Lemma trim_blank s : forallb isWhiteSpace s = true -> trim s = [].
Proof.
  intros H. unfold trim. rewrite trimStart_blank by exact H. reflexivity.
Qed.

Lemma splitFrom_run sep cur a rest :
  ~ In sep a ->
  splitFrom sep cur (a ++ rest) = splitFrom sep (rev a ++ cur) rest.
Proof.
  revert cur. induction a as [|c a IH]; intros cur H; [reflexivity|].
  cbn [app splitFrom].
  destruct (Ascii.eqb c sep) eqn:E.
  - apply Ascii.eqb_eq in E. subst. exfalso. apply H. left. reflexivity.
  - rewrite IH by (intros C; apply H; right; exact C).
    cbn [rev]. rewrite <- app_assoc. reflexivity.
Qed.

Lemma split_last sep a : ~ In sep a -> split sep a = [a].
Proof.
  intros H. unfold split.
  rewrite <- (app_nil_r a) at 1. rewrite splitFrom_run by exact H.
  cbn [splitFrom]. rewrite app_nil_r, rev_involutive. reflexivity.
Qed.

Lemma split_cons sep a b :
  ~ In sep a -> split sep (a ++ sep :: b) = a :: split sep b.
Proof.
  intros H. unfold split. rewrite splitFrom_run by exact H.
  cbn [splitFrom]. rewrite Ascii.eqb_refl, app_nil_r, rev_involutive.
  reflexivity.
Qed.

Lemma upToComma_run a :
  ~ In ","%char a ->
  (forall b, upToComma (a ++ ","%char :: b) = (a, Some b))
  /\ upToComma a = (a, None).
Proof.
  induction a as [|c a IH]; intros H.
  - split; reflexivity.
  - assert (Hc : Ascii.eqb c "," = false).
    { apply Ascii.eqb_neq. intros C. apply H. left. congruence. }
    destruct IH as [IH1 IH2]; [intros C; apply H; right; exact C|].
    split; [intros b|]; cbn [app upToComma]; rewrite Hc.
    + rewrite IH1. reflexivity.
    + rewrite IH2. reflexivity.
Qed.

Lemma upToComma_before s : ~ In ","%char (fst (upToComma s)).
Proof.
  induction s as [|c s IH]; [intros []|].
  cbn [upToComma]. destruct (Ascii.eqb c ",") eqn:E; [intros []|].
  destruct (upToComma s) as [a r]. cbn [fst] in *.
  intros [C|C]; [|exact (IH C)].
  apply Ascii.eqb_neq in E. congruence.
Qed.

Lemma upToComma_eq s :
  s = fst (upToComma s)
        ++ match snd (upToComma s) with
           | Some r => ","%char :: r
           | None => []
           end.
Proof.
  induction s as [|c s IH]; [reflexivity|].
  cbn [upToComma]. destruct (Ascii.eqb c ",") eqn:E.
  - apply Ascii.eqb_eq in E. subst. reflexivity.
  - destruct (upToComma s) as [a r]. cbn [fst snd app] in *.
    f_equal. exact IH.
Qed.

(** [split] cuts at every comma: the first part is the text before the
    first comma, and the remainder is cut again. *)
Lemma split_unfold s :
  split "," s
  = fst (upToComma s)
      :: match snd (upToComma s) with
         | Some r => split "," r
         | None => []
         end.
Proof.
  pose proof (upToComma_before s) as B.
  pose proof (upToComma_eq s) as E.
  destruct (upToComma s) as [a [r|]]; cbn [fst snd] in *.
  - rewrite E at 1. apply split_cons, B.
  - rewrite app_nil_r in E. rewrite E at 1. rewrite <- E. apply split_last.
    rewrite E. exact B.
Qed.

Lemma splitLinesFrom_run cur a rest :
  ~ In LF a ->
  splitLinesFrom cur (a ++ rest) = splitLinesFrom (rev a ++ cur) rest.
Proof.
  revert cur. induction a as [|c a IH]; intros cur H; [reflexivity|].
  cbn [app splitLinesFrom].
  destruct (Ascii.eqb c LF) eqn:E.
  - apply Ascii.eqb_eq in E. subst. exfalso. apply H. left. reflexivity.
  - rewrite IH by (intros C; apply H; right; exact C).
    cbn [rev]. rewrite <- app_assoc. reflexivity.
Qed.

Lemma splitLines_last a : ~ In LF a -> splitLines a = [a].
Proof.
  intros H. unfold splitLines.
  rewrite <- (app_nil_r a) at 1. rewrite splitLinesFrom_run by exact H.
  cbn [splitLinesFrom]. rewrite app_nil_r, rev_involutive. reflexivity.
Qed.

Lemma splitLines_cons a b :
  ~ In LF a -> noTrailingCR a ->
  splitLines (a ++ LF :: b) = a :: splitLines b.
Proof.
  intros H T. unfold splitLines. rewrite splitLinesFrom_run by exact H.
  cbn [splitLinesFrom]. rewrite Ascii.eqb_refl, app_nil_r.
  f_equal. unfold noTrailingCR in T.
  destruct (rev a) as [|c0 r] eqn:R.
  - apply (f_equal (@rev ascii)) in R. rewrite rev_involutive in R.
    subst. reflexivity.
  - destruct (Ascii.eqb c0 CR) eqn:E.
    + apply Ascii.eqb_eq in E. contradiction.
    + rewrite <- R. apply rev_involutive.
Qed.

(** Joining lines with LF and splitting the text again gives the lines
    back, when no line holds an LF or ends with a CR. *)
Lemma splitLines_join (l0 : str) (ls : list str) :
  Forall (fun a => ~ In LF a /\ noTrailingCR a) (l0 :: ls) ->
  splitLines (join [LF] (l0 :: ls)) = l0 :: ls.
Proof.
  revert l0. induction ls as [|l1 ls IH]; intros l0 H.
  - cbn [join]. apply splitLines_last.
    inversion H as [|? ? [H0 _] _]. exact H0.
  - inversion H as [|? ? [H0 T0] H']; subst.
    change (join [LF] (l0 :: l1 :: ls))
      with (l0 ++ [LF] ++ join [LF] (l1 :: ls)).
    cbn [app]. rewrite splitLines_cons by assumption.
    rewrite IH by exact H'. reflexivity.
Qed.

(** ** The decoder *)

Lemma parseRow_eq (acc : list DoseEntry) (line : str) :
  parseRow acc line
  = Ok (acc ++ if wellFormed line then [entryOf line] else []).
Proof.
  unfold parseRow, wellFormed, entryOf, fieldsRead.
  destruct (nth_error (split "," line) 0) as [ts|];
    [|cbn; rewrite app_nil_r; reflexivity].
  destruct (truthy (Some ts)); [|cbn; rewrite app_nil_r; reflexivity].
  destruct (truthy (nth_error (split "," line) 1));
    [|cbn; rewrite app_nil_r; reflexivity].
  cbn [negb orb andb].
  destruct (isFinite (Number (nth_error (split "," line) 1)));
    [reflexivity | rewrite app_nil_r; reflexivity].
Qed.

Lemma forOf_parseRow (rows : list str) (acc : list DoseEntry) :
  forOf rows parseRow acc = Ok (acc ++ map entryOf (filter wellFormed rows)).
Proof.
  revert acc. induction rows as [|line rows IH]; intros acc.
  - cbn. rewrite app_nil_r. reflexivity.
  - cbn [forOf]. rewrite parseRow_eq. cbn [bind]. rewrite IH.
    cbn [filter]. destruct (wellFormed line).
    + cbn [map]. rewrite <- app_assoc. reflexivity.
    + rewrite app_nil_r. reflexivity.
Qed.

Section Decoder.
Variable fromISO : str -> DateTime.

(** [parseCSV] always completes normally, with the sorted records of
    the well-formed data lines. *)
Lemma parseCSV_eq (csv : str) :
  parseCSV fromISO csv
  = Ok (sort (compareEntries fromISO)
          (map entryOf (filter wellFormed (dataLines csv)))).
Proof.
  unfold parseCSV, dataLines, nonEmptyLines, isHeader.
  destruct (filter truthy_str (splitLines (trim csv))) as [|l0 tl];
    [reflexivity|].
  cbn [length Nat.eqb nth_error invoke bind].
  destruct (startsWith (toLowerCase l0) "timestamp,");
    cbn [skipn]; rewrite forOf_parseRow; reflexivity.
Qed.

Lemma insert_perm (x : DoseEntry) l :
  Permutation (insert (compareEntries fromISO) x l) (x :: l).
Proof.
  induction l as [|y l IH]; [reflexivity|].
  cbn [insert].
  destruct (0 <? sortCompare (compareEntries fromISO x y)); [|reflexivity].
  rewrite IH. apply perm_swap.
Qed.

Lemma sort_perm l : Permutation (sort (compareEntries fromISO) l) l.
Proof.
  induction l as [|x l IH]; [reflexivity|].
  cbn [sort fold_right]. rewrite insert_perm.
  apply perm_skip, IH.
Qed.

Lemma compare_parsed a b x y :
  instantOf fromISO a = Some x -> instantOf fromISO b = Some y ->
  sortCompare (compareEntries fromISO a b) = y - x.
Proof.
  unfold instantOf, compareEntries. intros -> ->. reflexivity.
Qed.

Lemma insert_sorted x l :
  parseable fromISO x -> Forall (parseable fromISO) l ->
  sortedDescending fromISO l ->
  sortedDescending fromISO (insert (compareEntries fromISO) x l).
Proof.
  unfold sortedDescending, parseable. intros Px Pl S.
  induction S as [|y l S IH F]; cbn [insert].
  - constructor; constructor.
  - inversion Pl as [|? ? Py Pl']; subst.
    destruct (instantOf fromISO x) as [tx|] eqn:Ex; [|congruence].
    destruct (instantOf fromISO y) as [ty|] eqn:Ey; [|congruence].
    rewrite (compare_parsed x y tx ty Ex Ey).
    destruct (0 <? ty - tx) eqn:E.
    + apply Z.ltb_lt in E. constructor; [apply IH, Pl'|].
      apply (Permutation_Forall (x := x :: l));
        [symmetry; apply insert_perm|].
      constructor; [|exact F].
      unfold notEarlier. rewrite Ex, Ey. lia.
    + apply Z.ltb_ge in E. constructor; [constructor; assumption|].
      assert (Hxy : notEarlier fromISO x y)
        by (unfold notEarlier; rewrite Ex, Ey; lia).
      constructor; [exact Hxy|].
      apply Forall_forall. intros z Hz.
      rewrite Forall_forall in F. specialize (F z Hz).
      unfold notEarlier in *. rewrite Ex. rewrite Ey in F.
      destruct (instantOf fromISO z); [lia | exact F].
Qed.

(** Sorting records whose timestamps parse puts the most recent
    first. *)
Lemma sort_sorted l :
  Forall (parseable fromISO) l ->
  sortedDescending fromISO (sort (compareEntries fromISO) l).
Proof.
  induction l as [|x l IH]; intros P; [constructor|].
  inversion P as [|? ? Px Pl]; subst.
  cbn [sort fold_right]. apply insert_sorted; [exact Px| |apply IH, Pl].
  apply (Permutation_Forall (x := l)); [symmetry; apply sort_perm|exact Pl].
Qed.

(** A log that is already most recent first is left as it is. *)
Lemma sort_fixpoint l :
  sortedDescending fromISO l -> sort (compareEntries fromISO) l = l.
Proof.
  unfold sortedDescending. intros S.
  induction S as [|x l S IH F]; [reflexivity|].
  cbn [sort fold_right]. fold (sort (compareEntries fromISO) l).
  rewrite IH. destruct l as [|y l]; [reflexivity|].
  cbn [insert]. inversion F as [|? ? Hxy _]; subst.
  unfold notEarlier in Hxy.
  destruct (instantOf fromISO x) as [tx|] eqn:Ex; [|contradiction].
  destruct (instantOf fromISO y) as [ty|] eqn:Ey; [|contradiction].
  rewrite (compare_parsed x y tx ty Ex Ey).
  destruct (0 <? ty - tx) eqn:E; [apply Z.ltb_lt in E; lia | reflexivity].
Qed.

Lemma sorted_filter (f : DoseEntry -> bool) l :
  sortedDescending fromISO l -> sortedDescending fromISO (filter f l).
Proof.
  unfold sortedDescending. intros S.
  induction S as [|x l S IH F]; [constructor|].
  cbn [filter]. destruct (f x); [|exact IH].
  constructor; [exact IH|].
  apply Forall_forall. intros z Hz. apply filter_In in Hz as [Hz _].
  rewrite Forall_forall in F. exact (F z Hz).
Qed.
End Decoder.

Lemma fieldsRead_eq (line : str) :
  fieldsRead line
  = (Some (fst (upToComma line)),
     option_map (fun r => fst (upToComma r)) (snd (upToComma line))).
Proof.
  unfold fieldsRead. rewrite split_unfold. cbn [nth_error]. f_equal.
  destruct (snd (upToComma line)) as [r|]; [|reflexivity].
  rewrite split_unfold. reflexivity.
Qed.

Lemma fieldsRead_three ts amt more :
  ~ In ","%char ts -> ~ In ","%char amt ->
  fieldsRead (ts ++ "," ++ amt ++ "," ++ more) = (Some ts, Some amt)
  /\ fieldsRead (ts ++ "," ++ amt) = (Some ts, Some amt).
Proof.
  intros Ht Ha. rewrite !fieldsRead_eq. cbn [app].
  destruct (upToComma_run ts Ht) as [T1 _].
  destruct (upToComma_run amt Ha) as [A1 A2].
  rewrite !T1. cbn [fst snd option_map]. rewrite A1, A2. split; reflexivity.
Qed.



(** The second part ends at the next comma.  Were the remainder of the
    line kept whole instead, the amount field of a line with a third
    field would be "0.5,zz", which is no finite Number, and the line
    would be dropped; the program reads "0.5" and keeps the record. *)
Remark remainder_not_kept_whole :
  splitOnce threeFieldLine
  = (Some "2024-03-02T10:30:00+01:00", Some "0.5,zz")
  /\ fieldsRead threeFieldLine
     = (Some "2024-03-02T10:30:00+01:00", Some "0.5")
  /\ isFinite (Number (snd (splitOnce threeFieldLine))) = false
  /\ parseRow [] threeFieldLine
     = Ok [mkEntry "2024-03-02T10:30:00+01:00" half].
Proof. repeat split; reflexivity. Qed.



(** C10: the decoder is total: on every text it completes normally with
    a list of records, so the handler of the try around it in
    [loadEntries] is never taken, whatever it would return. *)
Theorem parseCSV_total :
  forall (fromISO : str -> DateTime) (csv : str),
  exists l,
    parseCSV fromISO csv = Ok l
    /\ (forall handler, tryCatch (parseCSV fromISO csv) handler = l)
    /\ loadEntries fromISO (Some csv) = (if truthy_str csv then l else []).
Proof.
  intros fromISO csv. eexists. split; [apply parseCSV_eq|].
  split.
  - intros handler. rewrite parseCSV_eq. reflexivity.
  - unfold loadEntries. destruct (truthy_str csv); [|reflexivity].
    cbn [negb]. rewrite parseCSV_eq. reflexivity.
Qed.

(** ** The log *)



(** ** Printing and reading Numbers *)

Lemma spanDigits_digits (ds : list digit) (r : str) :
  nonDigitHead r -> spanDigits (str_of_digits ds ++ r) = (ds, r).
Proof.
  intros H. induction ds as [|d ds IH].
  - cbn [str_of_digits map app]. destruct r as [|c r]; [reflexivity|].
    cbn [spanDigits]. cbn in H. rewrite H. reflexivity.
  - cbn [str_of_digits map app spanDigits].
    rewrite digit_of_char_of_digit.
    fold (str_of_digits ds). rewrite IH. reflexivity.
Qed.

Lemma spanDigits_all (ds : list digit) :
  spanDigits (str_of_digits ds) = (ds, []).
Proof.
  rewrite <- (app_nil_r (str_of_digits ds)).
  apply spanDigits_digits. exact I.
Qed.

Lemma str_of_digits_app a b :
  str_of_digits (a ++ b) = str_of_digits a ++ str_of_digits b.
Proof. apply map_app. Qed.

Lemma str_of_zeros k : str_of_digits (repeat D0 k) = repeat "0"%char k.
Proof. induction k; cbn; [reflexivity | f_equal; assumption]. Qed.

Lemma stripZeros_zeros k l : stripZeros (repeat D0 k ++ l) = stripZeros l.
Proof. induction k; [reflexivity | exact IHk]. Qed.

Lemma dropTrailingZeros_snoc mid last :
  dropTrailingZeros (mid ++ [Dn last]) = Some (mid, last).
Proof.
  induction mid as [|d mid IH]; [reflexivity|].
  cbn [app dropTrailingZeros]. rewrite IH. reflexivity.
Qed.

Lemma dropTrailingZeros_tail s : dropTrailingZeros (sig_tail s) = rest s.
Proof.
  unfold sig_tail. destruct (rest s) as [[mid last]|]; [|reflexivity].
  apply dropTrailingZeros_snoc.
Qed.

Lemma dropTrailingZeros_only_zeros k : dropTrailingZeros (repeat D0 k) = None.
Proof.
  induction k; [reflexivity|]. cbn [repeat dropTrailingZeros].
  rewrite IHk. reflexivity.
Qed.

Lemma dropTrailingZeros_zeros l k :
  dropTrailingZeros (l ++ repeat D0 k) = dropTrailingZeros l.
Proof.
  induction l as [|d l IH]; cbn [app dropTrailingZeros].
  - apply dropTrailingZeros_only_zeros.
  - rewrite IH. reflexivity.
Qed.

(** The Number of a significand followed by zeros, or preceded by
    zeros. *)
Lemma mkNumber_padded neg s k adj :
  mkNumber neg (sig_digits s ++ repeat D0 k) adj
  = Fin neg s (Z.of_nat (length (sig_digits s)) + Z.of_nat k + adj).
Proof.
  unfold mkNumber, sig_digits. cbn [app stripZeros].
  rewrite dropTrailingZeros_zeros, dropTrailingZeros_tail.
  destruct s as [f r]. cbn [lead rest]. f_equal.
  rewrite length_app, repeat_length. cbn [length]. lia.
Qed.

Lemma mkNumber_sig neg s adj :
  mkNumber neg (sig_digits s) adj
  = Fin neg s (Z.of_nat (length (sig_digits s)) + adj).
Proof.
  rewrite <- (app_nil_r (sig_digits s)) at 1.
  change (@nil digit) with (repeat D0 0).
  rewrite mkNumber_padded. f_equal; lia.
Qed.

Lemma mkNumber_leading neg s k adj :
  mkNumber neg (repeat D0 k ++ sig_digits s) adj
  = Fin neg s (Z.of_nat (length (sig_digits s)) + adj).
Proof.
  pose proof (mkNumber_sig neg s adj) as H.
  unfold mkNumber in *. rewrite stripZeros_zeros. exact H.
Qed.

Lemma exponentPart_expString e :
  exponentPart ("e"%char :: expString e) = Some e.
Proof.
  unfold exponentPart, expString. cbn [Ascii.eqb Bool.eqb orb].
  pose proof (digits_of_N_nonempty (Z.abs_N e)) as NE.
  pose proof (N_of_digits_of_N (Z.abs_N e)) as V.
  destruct (e <? 0) eqn:E; cbn [app]; rewrite spanDigits_all;
    destruct (digits_of_N (Z.abs_N e)) as [|d ds]; try congruence;
    rewrite V; f_equal.
  - apply Z.ltb_lt in E. lia.
  - apply Z.ltb_ge in E. lia.
Qed.

Lemma unsignedDecimal_integer neg d ds r e :
  nonDigitHead r -> noDotHead r -> exponentPart r = Some e ->
  unsignedDecimal neg (str_of_digits (d :: ds) ++ r) = mkNumber neg (d :: ds) e.
Proof.
  intros Hr Hd He. unfold unsignedDecimal.
  destruct (list_eq_dec ascii_dec _ "Infinity") as [E|_].
  { cbn in E. injection E as E _. destruct d as [|[]]; discriminate. }
  rewrite spanDigits_digits by exact Hr.
  assert (R : match r with
              | "."%char :: r0 => spanDigits r0
              | _ => ([], r)
              end = ([], r)).
  { destruct r as [|c r]; [reflexivity|]. cbn in Hd.
    destruct c as [[] [] [] [] [] [] [] []]; try reflexivity. congruence. }
  rewrite R, app_nil_r, He. cbn [length]. f_equal. lia.
Qed.

Lemma unsignedDecimal_fraction neg d ds fp r e :
  nonDigitHead r -> exponentPart r = Some e ->
  unsignedDecimal neg (str_of_digits (d :: ds) ++ "."%char :: str_of_digits fp ++ r)
  = mkNumber neg ((d :: ds) ++ fp) (e - Z.of_nat (length fp)).
Proof.
  intros Hr He. unfold unsignedDecimal.
  destruct (list_eq_dec ascii_dec _ "Infinity") as [E|_].
  { cbn in E. injection E as E _. destruct d as [|[]]; discriminate. }
  rewrite spanDigits_digits by reflexivity.
  rewrite spanDigits_digits by exact Hr. rewrite He. reflexivity.
Qed.

Lemma unsignedDecimal_toString neg s n :
  unsignedDecimal neg (toString (Fin false s n)) = Fin neg s n.
Proof.
  cbn [toString app].
  set (ds := sig_digits s). set (k := Z.of_nat (length ds)).
  assert (D : ds = Dn (lead s) :: sig_tail s) by reflexivity.
  destruct ((k <=? n) && (n <=? 21)) eqn:A.
  { apply andb_prop in A as [A1 A2]. apply Z.leb_le in A1, A2.
    rewrite <- str_of_zeros, <- str_of_digits_app.
    rewrite <- (app_nil_r (str_of_digits _)).
    rewrite D at 1. cbn [app].
    rewrite (unsignedDecimal_integer _ _ _ _ 0) by reflexivity.
    change (Dn (lead s) :: sig_tail s ++ repeat D0 (Z.to_nat (n - k)))
      with (sig_digits s ++ repeat D0 (Z.to_nat (n - k))).
    rewrite mkNumber_padded. f_equal. fold ds. fold k. lia. }
  destruct ((0 <? n) && (n <=? 21)) eqn:B.
  { apply andb_prop in B as [B1 B2]. apply Z.ltb_lt in B1. apply Z.leb_le in B2.
    apply andb_false_iff in A.
    assert (Hn : n < k) by (destruct A as [A|A]; apply Z.leb_gt in A; lia).
    assert (F : exists d fs, firstn (Z.to_nat n) ds = d :: fs).
    { destruct (Z.to_nat n) eqn:En; [lia|]. rewrite D. cbn [firstn]. eauto. }
    destruct F as [d [fs F]]. rewrite F.
    rewrite <- (app_nil_r (str_of_digits (skipn _ _))).
    change (unsignedDecimal neg
              (str_of_digits (d :: fs) ++ "."%char
                 :: str_of_digits (skipn (Z.to_nat n) ds) ++ [])
            = Fin neg s n).
    rewrite (unsignedDecimal_fraction _ _ _ _ _ 0) by reflexivity.
    rewrite <- F, firstn_skipn. unfold ds. rewrite mkNumber_sig. f_equal.
    fold ds. fold k. rewrite length_skipn. fold k. lia. }
  destruct ((-6 <? n) && (n <=? 0)) eqn:C.
  { apply andb_prop in C as [C1 C2]. apply Z.ltb_lt in C1. apply Z.leb_le in C2.
    rewrite <- str_of_zeros, <- str_of_digits_app.
    rewrite <- (app_nil_r (str_of_digits _)).
    change (unsignedDecimal neg
              (str_of_digits [D0] ++ "."%char
                 :: str_of_digits (repeat D0 (Z.to_nat (- n)) ++ ds) ++ [])
            = Fin neg s n).
    rewrite (unsignedDecimal_fraction _ _ _ _ _ 0) by reflexivity.
    change ([D0] ++ repeat D0 (Z.to_nat (- n)) ++ ds)
      with (repeat D0 (S (Z.to_nat (- n))) ++ sig_digits s).
    rewrite mkNumber_leading. f_equal. fold ds. fold k.
    rewrite length_app, repeat_length. fold k. lia. }
  pose proof (dropTrailingZeros_tail s) as T.
  destruct (sig_tail s) as [|t tl] eqn:E.
  - change (unsignedDecimal neg
              (str_of_digits [Dn (lead s)] ++ "e"%char :: expString (n - 1))
            = Fin neg s n).
    rewrite (unsignedDecimal_integer _ _ _ _ (n - 1));
      [|reflexivity|cbn; discriminate|apply exponentPart_expString].
    unfold mkNumber. cbn [stripZeros dropTrailingZeros length].
    cbn in T. rewrite T. destruct s; cbn [lead rest]. f_equal. lia.
  - change (unsignedDecimal neg
              (str_of_digits [Dn (lead s)] ++ "."%char
                 :: str_of_digits (t :: tl) ++ "e"%char :: expString (n - 1))
            = Fin neg s n).
    rewrite (unsignedDecimal_fraction _ _ _ _ _ (n - 1));
      [|reflexivity|apply exponentPart_expString].
    unfold mkNumber. cbn [app stripZeros]. rewrite T.
    destruct s; cbn [lead rest]. f_equal. cbn [length]. lia.
Qed.

Lemma numeric_app a b : numeric a -> numeric b -> numeric (a ++ b).
Proof. intros A B. apply Forall_app. split; assumption. Qed.

Lemma numeric_digits ds : numeric (str_of_digits ds).
Proof.
  induction ds as [|d ds IH]; constructor; [|exact IH].
  destruct d as [|[]]; reflexivity.
Qed.

Lemma numeric_zeros k : numeric (repeat "0"%char k).
Proof. rewrite <- str_of_zeros. apply numeric_digits. Qed.

Lemma numeric_expString e : numeric (expString e).
Proof.
  unfold expString. apply numeric_app; [|apply numeric_digits].
  destruct (e <? 0); repeat constructor.
Qed.

Lemma numeric_cons c s : numberChar c = true -> numeric s -> numeric (c :: s).
Proof. intros Hc Hs. constructor; assumption. Qed.

Lemma numeric_nil : numeric [].
Proof. constructor. Qed.

Lemma numberChar_nzdigit d : numberChar (char_of_nzdigit d) = true.
Proof. destruct d; reflexivity. Qed.

Create HintDb numeric.
#[local] Hint Resolve numeric_app numeric_digits numeric_zeros
  numeric_expString numeric_cons numeric_nil numberChar_nzdigit : numeric.
#[local] Hint Extern 1 (numberChar _ = true) => reflexivity : numeric.

(** A finite Number prints with digits, ".", "e", "+" and "-" only. *)
Lemma numeric_toString x : isFinite x = true -> numeric (toString x).
Proof.
  destruct x as [|neg| |neg s n]; try discriminate; intros _.
  - cbn. auto with numeric.
  - cbn [toString]. apply numeric_app; [destruct neg; auto with numeric|].
    destruct ((Z.of_nat (length (sig_digits s)) <=? n) && (n <=? 21));
      [auto with numeric|].
    destruct ((0 <? n) && (n <=? 21)); [auto 6 with numeric|].
    destruct ((-6 <? n) && (n <=? 0)); [cbn [app]; auto 6 with numeric|].
    destruct (sig_tail s); cbn [app]; auto 8 with numeric.
Qed.

Lemma numberChar_plain c :
  numberChar c = true ->
  isWhiteSpace c = false /\ c <> ","%char /\ c <> LF /\ c <> CR.
Proof.
  unfold numberChar. intros H. apply existsb_exists in H as [x [Hin E]].
  apply Ascii.eqb_eq in E. subst x.
  cbn in Hin.
  repeat (destruct Hin as [<-|Hin]; [repeat split; (reflexivity || discriminate)|]).
  contradiction.
Qed.

Lemma numberChar_letters c :
  numberChar c = true ->
  (Ascii.eqb c "x" || Ascii.eqb c "X" || Ascii.eqb c "o" || Ascii.eqb c "O"
   || Ascii.eqb c "b" || Ascii.eqb c "B")%char = false.
Proof.
  unfold numberChar. intros H. apply existsb_exists in H as [x [Hin E]].
  apply Ascii.eqb_eq in E. subst x.
  cbn in Hin.
  repeat (destruct Hin as [<-|Hin]; [reflexivity|]).
  contradiction.
Qed.

Lemma nonDecimalLiteral_numeric t : numeric t -> nonDecimalLiteral t = None.
Proof.
  intros H. destruct t as [|c [|p [|q r]]]; try reflexivity.
  inversion H as [|? ? _ H']. inversion H' as [|? ? Hp _].
  apply numberChar_letters in Hp.
  repeat (apply orb_false_elim in Hp as [Hp ?]).
  unfold nonDecimalLiteral.
  destruct (negb (Ascii.eqb c "0")); [reflexivity|].
  repeat match goal with E : Ascii.eqb p _ = false |- _ => rewrite E; clear E end.
  reflexivity.
Qed.

Lemma trim_no_space s :
  Forall (fun c => isWhiteSpace c = false) s -> trim s = s.
Proof.
  intros H. unfold trim.
  assert (T : forall t, Forall (fun c => isWhiteSpace c = false) t -> trimStart t = t).
  { intros [|c t] F; [reflexivity|]. inversion F; subst. apply trimStart_clean. assumption. }
  rewrite T by exact H. unfold trimEnd. rewrite T by (apply Forall_rev, H).
  apply rev_involutive.
Qed.

Lemma numeric_no_space s : numeric s -> Forall (fun c => isWhiteSpace c = false) s.
Proof.
  apply Forall_impl. intros c H. apply numberChar_plain, H.
Qed.

(** A finite non-negative Number prints with a digit in front. *)
Lemma toString_head s n :
  exists d r, toString (Fin false s n) = char_of_digit d :: r.
Proof.
  cbn [toString app].
  destruct ((Z.of_nat (length (sig_digits s)) <=? n) && (n <=? 21));
    [exists (Dn (lead s)); eexists; reflexivity|].
  destruct ((0 <? n) && (n <=? 21)) eqn:B.
  { apply andb_prop in B as [B _]. apply Z.ltb_lt in B.
    destruct (Z.to_nat n) eqn:E; [lia|].
    exists (Dn (lead s)). eexists. reflexivity. }
  destruct ((-6 <? n) && (n <=? 0)); [exists D0; eexists; reflexivity|].
  destruct (sig_tail s); exists (Dn (lead s)); eexists; reflexivity.
Qed.

Lemma StringToNumber_decimal t :
  t <> [] -> numeric t ->
  StringToNumber t
  = match t with
    | "-"%char :: u => unsignedDecimal true u
    | "+"%char :: u => unsignedDecimal false u
    | _ => unsignedDecimal false t
    end.
Proof.
  intros NE N. unfold StringToNumber.
  rewrite trim_no_space by (apply numeric_no_space, N).
  destruct t as [|c r]; [congruence|].
  rewrite nonDecimalLiteral_numeric by exact N. reflexivity.
Qed.

Lemma toString_nonempty x : isFinite x = true -> toString x <> [].
Proof.
  destruct x as [|neg| |neg s n]; try discriminate; intros _.
  destruct (toString_head s n) as [d [r E]].
  change (toString (Fin neg s n))
    with ((if neg then "-" else []) ++ toString (Fin false s n)).
  rewrite E. destruct neg; discriminate.
Qed.

(** Reading what a finite Number prints gives the Number back. *)
Lemma StringToNumber_toString x :
  isFinite x = true -> StringToNumber (toString x) = x.
Proof.
  intros F. pose proof (numeric_toString x F) as N.
  destruct x as [|neg| |neg s n]; try discriminate; [reflexivity|].
  destruct (toString_head s n) as [d [r E]].
  rewrite StringToNumber_decimal; [|apply toString_nonempty, F|exact N].
  destruct neg.
  - apply unsignedDecimal_toString.
  - rewrite <- (unsignedDecimal_toString false s n) at 2.
    rewrite E. destruct d as [|[]]; reflexivity.
Qed.

(** ** Encoding and decoding again *)

Lemma endsClean_app a b : endsClean b -> endsClean (a ++ b).
Proof.
  intros [m [z [E H]]]. exists (a ++ m), z. subst.
  rewrite app_assoc. split; [reflexivity | exact H].
Qed.

Lemma endsClean_numeric s : numeric s -> s <> [] -> endsClean s.
Proof.
  intros N NE. destruct (exists_last NE) as [m [z E]]. exists m, z.
  split; [exact E|]. subst. apply Forall_app in N as [_ N].
  inversion N as [|? ? Hz _]. apply numberChar_plain, Hz.
Qed.

Lemma endsClean_noTrailingCR s : endsClean s -> noTrailingCR s.
Proof.
  intros [m [z [E H]]]. subst. unfold noTrailingCR. rewrite rev_unit.
  intros C. subst. discriminate.
Qed.

Lemma endsClean_join l0 ls :
  Forall endsClean (l0 :: ls) -> endsClean (join [LF] (l0 :: ls)).
Proof.
  revert l0. induction ls as [|l1 ls IH]; intros l0 H.
  - inversion H. assumption.
  - inversion H as [|? ? _ H']; subst.
    change (join [LF] (l0 :: l1 :: ls))
      with (l0 ++ [LF] ++ join [LF] (l1 :: ls)).
    apply endsClean_app, endsClean_app, IH, H'.
Qed.

Lemma trim_ends c s :
  isWhiteSpace c = false -> endsClean (c :: s) -> trim (c :: s) = c :: s.
Proof.
  intros Hc [m [z [E Hz]]]. unfold trim.
  rewrite trimStart_clean by exact Hc. rewrite E. apply trimEnd_clean, Hz.
Qed.

Lemma join_head sep c h ls :
  exists s, join sep ((c :: h) :: ls) = c :: s.
Proof. destruct ls; eexists; reflexivity. Qed.

Section RoundTrip.
Variable fromISO : str -> DateTime.

Hypothesis fromISO_empty : toMillis (fromISO []) = None.

Lemma plainRecord_nonempty e : plainRecord fromISO e -> tsISO e <> [].
Proof.
  intros [_ [P _]] E. apply P. unfold instantOf. rewrite E.
  exact fromISO_empty.
Qed.

Lemma numeric_no_char s c : numeric s -> numberChar c = false -> ~ In c s.
Proof.
  intros N H C. unfold numeric in N. rewrite Forall_forall in N.
  specialize (N c C). congruence.
Qed.

Lemma entryLine_fields e :
  plainRecord fromISO e ->
  fieldsRead (entryLine e) = (Some (tsISO e), Some (toString (amount e))).
Proof.
  intros [F [_ [_ [Hc _]]]]. unfold entryLine.
  apply (fieldsRead_three (tsISO e) (toString (amount e)) []);
    [exact Hc|].
  apply numeric_no_char; [apply numeric_toString, F | reflexivity].
Qed.

Lemma entryLine_wellFormed e :
  plainRecord fromISO e -> wellFormed (entryLine e) = true /\ entryOf (entryLine e) = e.
Proof.
  intros P. pose proof (entryLine_fields e P) as E.
  pose proof (plainRecord_nonempty e P) as NE.
  destruct P as [F [_ [T _]]].
  unfold wellFormed, entryOf. rewrite E. cbn [Number].
  rewrite StringToNumber_toString by exact F. rewrite F, T.
  split; [|destruct e; reflexivity].
  pose proof (toString_nonempty _ F) as NE'.
  destruct (tsISO e); [congruence|]. destruct (toString (amount e)); [congruence|].
  reflexivity.
Qed.

Lemma entryLine_shape e :
  plainRecord fromISO e ->
  ~ In LF (entryLine e) /\ endsClean (entryLine e)
  /\ truthy_str (entryLine e) = true.
Proof.
  intros P. pose proof (plainRecord_nonempty e P) as NE.
  destruct P as [F [_ [_ [_ Hl]]]].
  pose proof (numeric_toString _ F) as N.
  unfold entryLine. split; [|split].
  - intros C. apply in_app_or in C as [C|C]; [exact (Hl C)|].
    apply in_app_or in C as [C|C].
    + destruct C as [C|[]]. discriminate.
    + revert C. apply numeric_no_char; [exact N | reflexivity].
  - apply endsClean_app, endsClean_app, endsClean_numeric;
      [exact N | apply toString_nonempty, F].
  - destruct (tsISO e); [congruence | reflexivity].
Qed.

Lemma dataLines_encoded r :
  Forall (plainRecord fromISO) r -> dataLines (entriesToCSV r) = map entryLine r.
Proof.
  intros P. unfold dataLines, nonEmptyLines, entriesToCSV.
  assert (S : Forall (fun l => ~ In LF l /\ endsClean l
                               /\ truthy_str l = true)
                (CSV_HEADER :: map entryLine r)).
  { constructor.
    - split; [cbv; intuition discriminate|].
      split; [exists "timestamp,amoun", "t"%char; split; reflexivity
             | reflexivity].
    - apply Forall_map. revert P. apply Forall_impl. apply entryLine_shape. }
  assert (T : trim (join [LF] (CSV_HEADER :: map entryLine r))
              = join [LF] (CSV_HEADER :: map entryLine r)).
  { assert (C : endsClean (join [LF] (CSV_HEADER :: map entryLine r)))
      by (apply endsClean_join; revert S; apply Forall_impl; tauto).
    assert (E : exists s, join [LF] (CSV_HEADER :: map entryLine r)
                          = "t"%char :: s)
      by apply (join_head [LF] "t"%char "imestamp,amount").
    destruct E as [s E]. rewrite E in C |- *.
    apply trim_ends; [reflexivity | exact C]. }
  cbv zeta. rewrite T.
  rewrite splitLines_join.
  -
    assert (K : filter truthy_str (CSV_HEADER :: map entryLine r)
                  = CSV_HEADER :: map entryLine r).
      { apply forallb_filter_id. apply forallb_forall.
        rewrite Forall_forall in S. intros l Hl. apply (S l Hl). }
    rewrite K. reflexivity.
  - revert S. apply Forall_impl. intros l [A [B _]].
      split; [exact A | apply endsClean_noTrailingCR, B].
Qed.

Lemma decode_lines r :
  Forall (plainRecord fromISO) r ->
  map entryOf (filter wellFormed (map entryLine r)) = r.
Proof.
  induction 1 as [|e r P _ IH]; [reflexivity|].
  cbn [map filter]. destruct (entryLine_wellFormed e P) as [W E].
  rewrite W. cbn [map]. rewrite E, IH. reflexivity.
Qed.

End RoundTrip.

(** C1: decoding the encoding of a log gives the log back, for every
    log that is sorted descending by parsed instant and whose records
    have a finite amount and a parseable timestamp without surrounding
    white space, without comma and without line feed (the empty text
    not being parseable). *)
Theorem decode_encode_roundtrip :
  forall (fromISO : str -> DateTime) (r : list DoseEntry),
    toMillis (fromISO []) = None ->
    sortedDescending fromISO r ->
    Forall (plainRecord fromISO) r ->
    parseCSV fromISO (entriesToCSV r) = Ok r.
Proof.
  intros fromISO r E S P.
  rewrite parseCSV_eq, (dataLines_encoded fromISO E) by exact P.
  rewrite (decode_lines fromISO E) by exact P.
  rewrite sort_fixpoint by exact S. reflexivity.
Qed.

Lemma decode_encode_roundtrip_witness :
  parseCSV Luxon.fromISO (entriesToCSV sampleLog) = Ok sampleLog.
Proof.
  apply decode_encode_roundtrip.
  - reflexivity.
  - repeat constructor; cbv; discriminate.
  - repeat constructor; try discriminate; cbv; intuition discriminate.
Defined.

(** A one-record log that meets the law as worded and does not come
    back: its timestamp holds a comma, so the decoder cuts it in two and
    finds no finite amount. *)
Lemma roundtrip_fails_on_decimal_comma :
  commaLog <> []
  /\ sortedDescending Luxon.fromISO commaLog
  /\ Forall (statedRecord Luxon.fromISO) commaLog
  /\ parseCSV Luxon.fromISO (entriesToCSV commaLog) = Ok []
  /\ parseCSV Luxon.fromISO (entriesToCSV commaLog) <> Ok commaLog.
Proof.
  split; [discriminate|]. split; [repeat constructor|].
  split; [repeat constructor; discriminate|].
  split; [reflexivity | vm_compute; discriminate].
Qed.

(** ** The stored amount *)



Lemma N_of_digits_snoc l d :
  N_of_digits (l ++ [d]) = (10 * N_of_digits l + N_of_digit d)%N.
Proof. unfold N_of_digits. rewrite fold_left_app. reflexivity. Qed.

Lemma N_of_digit_small d : (N_of_digit d < 10)%N.
Proof. destruct d as [|[]]; cbn; lia. Qed.

Lemma digits_of_N_digit d : digits_of_N (N_of_digit d) = [d].
Proof. destruct d as [|[]]; reflexivity. Qed.








Lemma N_of_digits_lt (l : list digit) : (N_of_digits l < 10 ^ N.of_nat (length l))%N.
Proof.
  induction l as [|d l IH] using rev_ind; [cbn; lia|].
  rewrite N_of_digits_snoc, length_app. cbn [length].
  replace (N.of_nat (length l + 1)) with (N.succ (N.of_nat (length l))) by lia.
  rewrite N.pow_succ_r'. pose proof (N_of_digit_small d). lia.
Qed.

Lemma N_of_digits_cons d (l : list digit) :
  N_of_digits (d :: l)
  = (N_of_digit d * 10 ^ N.of_nat (length l) + N_of_digits l)%N.
Proof.
  induction l as [|x l IH] using rev_ind; [cbn; lia|].
  change (d :: l ++ [x]) with ((d :: l) ++ [x]).
  rewrite !N_of_digits_snoc, IH, length_app. cbn [length].
  replace (N.of_nat (length l + 1)) with (N.succ (N.of_nat (length l))) by lia.
  rewrite N.pow_succ_r'. lia.
Qed.

Lemma N_of_digits_stripZeros (l : list digit) :
  N_of_digits (stripZeros l) = N_of_digits l.
Proof.
  induction l as [|[|d] l IH]; try reflexivity.
  cbn [stripZeros]. rewrite IH, (N_of_digits_cons D0). cbn [N_of_digit]. lia.
Qed.

Lemma N_of_digits_lower f tl :
  (10 ^ N.of_nat (length tl) <= N_of_digits (Dn f :: tl))%N.
Proof.
  rewrite N_of_digits_cons.
  assert (1 <= N_of_digit (Dn f))%N by (destruct f; cbn; lia).
  nia.
Qed.

Lemma dropTrailingZeros_length l mid last :
  dropTrailingZeros l = Some (mid, last) -> (length mid < length l)%nat.
Proof.
  revert mid last. induction l as [|d l IH]; intros mid last H; [discriminate|].
  cbn [dropTrailingZeros] in H.
  destruct (dropTrailingZeros l) as [[m' l']|].
  - injection H as <- <-. cbn [length]. specialize (IH m' l' eq_refl). lia.
  - destruct d; [discriminate|]. injection H as <- <-. cbn [length]. lia.
Qed.

Lemma small_digit (b : N) : (b < 10)%N -> exists d, b = N_of_digit d.
Proof.
  intros H.
  assert (E : b = N.of_nat (N.to_nat b)) by lia. rewrite E.
  assert (L : (N.to_nat b < 10)%nat) by lia.
  destruct (N.to_nat b) as [|[|[|[|[|[|[|[|[|[|n]]]]]]]]]]; try lia.
  - exists D0; reflexivity.
  - exists (Dn N1); reflexivity.
  - exists (Dn N2); reflexivity.
  - exists (Dn N3); reflexivity.
  - exists (Dn N4); reflexivity.
  - exists (Dn N5); reflexivity.
  - exists (Dn N6); reflexivity.
  - exists (Dn N7); reflexivity.
  - exists (Dn N8); reflexivity.
  - exists (Dn N9); reflexivity.
Qed.

(** The Number of a numeral with one digit after the point. *)
Lemma mkNumber_one_decimal neg (ds : list digit) :
  (N_of_digits ds < 10 ^ 22)%N -> atMostOneDecimal (mkNumber neg ds (-1)).
Proof.
  intros B. unfold mkNumber.
  pose proof (N_of_digits_stripZeros ds) as V.
  destruct (stripZeros ds) as [|[|f] tl]; cbn [atMostOneDecimal]; try exact I.
  pose proof (N_of_digits_lower f tl) as L.
  assert (Hl : (N.of_nat (length tl) < 22)%N).
  { apply (N.pow_lt_mono_r_iff 10); lia. }
  split; [|lia].
  unfold sig_digits, sig_tail. cbn [lead rest length].
  destruct (dropTrailingZeros tl) as [[mid last]|] eqn:E; cbn [length]; [|lia].
  apply dropTrailingZeros_length in E. rewrite length_app. cbn [length]. lia.
Qed.

Lemma scaledFloor_lt ds p : p <= 22 -> (scaledFloor ds p < 10 ^ 22)%N.
Proof.
  intros H. unfold scaledFloor.
  destruct (p <=? 0) eqn:E;
    [apply N.neq_0_lt_0, N.pow_nonzero; discriminate|].
  apply Z.leb_gt in E.
  eapply N.lt_le_trans; [apply N_of_digits_lt|].
  apply N.pow_le_mono_r; [lia|].
  pose proof (firstn_le_length (Z.to_nat p) (ds ++ repeat D0 (Z.to_nat p))). lia.
Qed.

Lemma render_number (neg : bool) (t : N) :
  StringToNumber
    (((if neg then "-" else []) : str)
       ++ str_of_digits (digits_of_N (t / 10)) ++ "."
       ++ str_of_digits (digits_of_N (t mod 10)))
  = mkNumber neg (digits_of_N (t / 10) ++ digits_of_N (t mod 10)) (-1).
Proof.
  pose proof (digits_of_N_nonempty (t / 10)) as NE.
  destruct (small_digit (t mod 10)) as [b Hb]; [apply N.mod_lt; lia|].
  rewrite Hb, digits_of_N_digit.
  destruct (digits_of_N (t / 10)) as [|d ds]; [congruence|].
  rewrite StringToNumber_decimal.
  - rewrite <- (app_nil_r (str_of_digits [b])).
    destruct neg; cbn [app].
    + change (unsignedDecimal true
                (str_of_digits (d :: ds) ++ "."%char :: str_of_digits [b] ++ [])
              = mkNumber true ((d :: ds) ++ [b]) (-1)).
      apply (unsignedDecimal_fraction true d ds [b] [] 0); reflexivity.
    + transitivity
        (unsignedDecimal false
           (str_of_digits (d :: ds) ++ "."%char :: str_of_digits [b] ++ [])).
      * destruct d as [|[]]; reflexivity.
      * apply (unsignedDecimal_fraction false d ds [b] [] 0); reflexivity.
  - destruct neg; discriminate.
  - destruct neg; cbn [app]; auto 8 with numeric.
Qed.

(** What [addDose] stores has at most one decimal digit. *)
Lemma stored_amount_one_decimal (x : number) :
  moderate x -> atMostOneDecimal (Number (Some (toFixed1 x))).
Proof.
  destruct x as [|neg| |neg s n]; cbn [moderate]; try contradiction.
  - intros _. exact I.
  - intros M. cbn [Number]. unfold toFixed1.
    destruct (21 <? n) eqn:E; [apply Z.ltb_lt in E; lia|].
    rewrite render_number. apply mkNumber_one_decimal.
    set (t := ((scaledFloor (sig_digits s) (n + 2) + 5) / 10)%N).
    destruct (small_digit (t mod 10)) as [b Hb]; [apply N.mod_lt; lia|].
    rewrite Hb, digits_of_N_digit, N_of_digits_snoc, N_of_digits_of_N, <- Hb.
    rewrite <- N.div_mod by lia.
    pose proof (scaledFloor_lt (sig_digits s) (n + 2) ltac:(lia)) as S.
    unfold t. apply N.Div0.div_lt_upper_bound. lia.
Qed.




(** The same through [addDose]: a dose of 1.0 is stored as "1". *)
Example addDose_stores_whole_amount :
  stored (addDose "2024-03-02T14:05:00+01:00" (stateOf []))
  = Some (join [LF] ["timestamp,amount"; "2024-03-02T14:05:00+01:00,1"]).
Proof. reflexivity. Qed.

(** ** The records of the decoder *)

Lemma trimStart_sub c s : In c (trimStart s) -> In c s.
Proof.
  induction s as [|a s IH]; [intros []|].
  cbn [trimStart]. destruct (isWhiteSpace a); [|exact (fun H => H)].
  intros H. right. apply IH, H.
Qed.

Lemma trim_sub c s : In c (trim s) -> In c s.
Proof.
  unfold trim, trimEnd. intros H. apply in_rev in H.
  apply trimStart_sub in H. apply in_rev in H.
  apply trimStart_sub, H.
Qed.

Lemma trimStart_head s :
  match trimStart s with
  | [] => True
  | c :: _ => isWhiteSpace c = false
  end.
Proof.
  induction s as [|a s IH]; [exact I|].
  cbn [trimStart]. destruct (isWhiteSpace a) eqn:E; [exact IH | exact E].
Qed.

Lemma trimStart_idem s : trimStart (trimStart s) = trimStart s.
Proof.
  pose proof (trimStart_head s) as H.
  destruct (trimStart s) as [|c r]; [reflexivity|].
  apply trimStart_clean, H.
Qed.

Lemma trimStart_snoc a c :
  isWhiteSpace c = false -> trimStart (a ++ [c]) = trimStart a ++ [c].
Proof.
  intros H. induction a as [|x a IH]; cbn [app trimStart].
  - rewrite H. reflexivity.
  - destruct (isWhiteSpace x); [exact IH | reflexivity].
Qed.

Lemma trimEnd_cons c s :
  isWhiteSpace c = false -> trimEnd (c :: s) = c :: trimEnd s.
Proof.
  intros H. unfold trimEnd. cbn [rev].
  rewrite trimStart_snoc by exact H. rewrite rev_unit. reflexivity.
Qed.

Lemma trimEnd_idem s : trimEnd (trimEnd s) = trimEnd s.
Proof.
  unfold trimEnd. rewrite rev_involutive, trimStart_idem. reflexivity.
Qed.

(** Trimming twice is trimming once. *)
Lemma trim_idem s : trim (trim s) = trim s.
Proof.
  unfold trim. pose proof (trimStart_head s) as H.
  destruct (trimStart s) as [|c r]; [reflexivity|].
  rewrite trimEnd_cons by exact H.
  rewrite trimStart_clean by exact H.
  rewrite trimEnd_cons by exact H. rewrite trimEnd_idem. reflexivity.
Qed.

Lemma splitLinesFrom_noLF cur s l :
  ~ In LF cur -> In l (splitLinesFrom cur s) -> ~ In LF l.
Proof.
  revert cur. induction s as [|c s IH]; intros cur Hc Hin.
  - cbn in Hin. destruct Hin as [<-|[]]. intros C. apply in_rev in C. auto.
  - cbn [splitLinesFrom] in Hin. destruct (Ascii.eqb c LF) eqn:E.
    + destruct Hin as [<-|Hin].
      * intros C. apply in_rev in C. apply Hc.
        destruct cur as [|c0 cur']; [exact C|].
        destruct (Ascii.eqb c0 CR); [right|]; exact C.
      * apply (IH []); [intros []|exact Hin].
    + apply (IH (c :: cur)); [|exact Hin].
      intros [C|C]; [|exact (Hc C)].
      apply Ascii.eqb_neq in E. congruence.
Qed.

Lemma splitLines_noLF s l : In l (splitLines s) -> ~ In LF l.
Proof. apply splitLinesFrom_noLF. intros []. Qed.

Lemma dataLines_sub csv l : In l (dataLines csv) -> In l (splitLines (trim csv)).
Proof.
  unfold dataLines, nonEmptyLines.
  destruct (filter truthy_str (splitLines (trim csv))) as [|l0 tl] eqn:E;
    [intros []|].
  intros H.
  assert (K : In l (l0 :: tl))
    by (destruct (isHeader l0); [right|]; exact H).
  rewrite <- E in K. apply filter_In in K. apply K.
Qed.

Section Decoded.
Variable fromISO : str -> DateTime.

(** The record of a well-formed data line: a finite amount and a
    timestamp without surrounding white space, comma or line feed. *)
Lemma entryOf_plain csv line :
  In line (dataLines csv) -> wellFormed line = true ->
  isFinite (amount (entryOf line)) = true
  /\ trim (tsISO (entryOf line)) = tsISO (entryOf line)
  /\ ~ In ","%char (tsISO (entryOf line))
  /\ ~ In LF (tsISO (entryOf line)).
Proof.
  intros Hin W. apply dataLines_sub, splitLines_noLF in Hin.
  unfold wellFormed in W. unfold entryOf.
  pose proof (fieldsRead_eq line) as E.
  pose proof (upToComma_before line) as B.
  pose proof (upToComma_eq line) as Q.
  destruct (fieldsRead line) as [ts amt]. injection E as -> ->.
  cbn [tsISO amount].
  apply andb_prop in W as [_ W].
  split; [exact W|]. split; [apply trim_idem|]. split.
  - intros C. apply trim_sub in C. exact (B C).
  - intros C. apply trim_sub in C. apply Hin. rewrite Q.
    apply in_or_app. left. exact C.
Qed.

Lemma decoded_plain csv l :
  parseCSV fromISO csv = Ok l ->
  Forall (fun e => isFinite (amount e) = true
                   /\ trim (tsISO e) = tsISO e
                   /\ ~ In ","%char (tsISO e)
                   /\ ~ In LF (tsISO e)) l.
Proof.
  rewrite parseCSV_eq. intros E. injection E as <-.
  apply (Permutation_Forall
           (x := map entryOf (filter wellFormed (dataLines csv))));
    [symmetry; apply sort_perm|].
  apply Forall_map, Forall_forall. intros line H.
  apply filter_In in H as [H W]. apply (entryOf_plain csv line H W).
Qed.

End Decoded.

(** ** The order of the decoder *)

Section Stable.
Variable fromISO : str -> DateTime.

Lemma insert_sameInstant t x l :
  parseable fromISO x -> Forall (parseable fromISO) l ->
  filter (sameInstant fromISO t) (insert (compareEntries fromISO) x l)
  = filter (sameInstant fromISO t) (x :: l).
Proof.
  unfold parseable. intros Px Pl.
  induction Pl as [|y l Py Pl IH]; [reflexivity|].
  cbn [insert].
  destruct (instantOf fromISO x) as [tx|] eqn:Ex; [|congruence].
  destruct (instantOf fromISO y) as [ty|] eqn:Ey; [|congruence].
  rewrite (compare_parsed fromISO x y tx ty Ex Ey).
  destruct (0 <? ty - tx) eqn:E; [|reflexivity].
  apply Z.ltb_lt in E.
  change (filter (sameInstant fromISO t) (y :: insert (compareEntries fromISO) x l))
    with (if sameInstant fromISO t y
          then y :: filter (sameInstant fromISO t) (insert (compareEntries fromISO) x l)
          else filter (sameInstant fromISO t) (insert (compareEntries fromISO) x l)).
  rewrite IH. cbn [filter].
  assert (Sx : sameInstant fromISO t x = (tx =? t))
    by (unfold sameInstant; rewrite Ex; reflexivity).
  assert (Sy : sameInstant fromISO t y = (ty =? t))
    by (unfold sameInstant; rewrite Ey; reflexivity).
  rewrite Sx, Sy.
  destruct (ty =? t) eqn:Ty; [|reflexivity].
  destruct (tx =? t) eqn:Tx; [|reflexivity].
  apply Z.eqb_eq in Ty, Tx. lia.
Qed.

(** The sort is stable: records with the same instant keep their
    order. *)
Lemma sort_sameInstant t l :
  Forall (parseable fromISO) l ->
  filter (sameInstant fromISO t) (sort (compareEntries fromISO) l)
  = filter (sameInstant fromISO t) l.
Proof.
  induction 1 as [|x l Px Pl IH]; [reflexivity|].
  cbn [sort fold_right]. fold (sort (compareEntries fromISO) l).
  rewrite insert_sameInstant;
    [|exact Px
     |apply (Permutation_Forall (x := l)); [symmetry; apply sort_perm|exact Pl]].
  cbn [filter]. rewrite IH. reflexivity.
Qed.
End Stable.

(** ** The calendar *)

Lemma allFrom_spec f n z :
  allFrom f n z = true -> forall k, z <= k < z + Z.of_nat n -> f k = true.
Proof.
  revert z. induction n as [|n IH]; intros z H k Hk; [lia|].
  cbn [allFrom] in H. apply andb_prop in H as [H0 H1].
  destruct (Z.eq_dec k z) as [->|N]; [exact H0|].
  apply (IH (z + 1) H1). lia.
Qed.

Lemma checkDoe_all : allFrom checkDoe (Z.to_nat 146097) 0 = true.
Proof. vm_compute. reflexivity. Qed.

Lemma checkDoe_at doe : 0 <= doe < 146097 -> checkDoe doe = true.
Proof.
  intros H. apply (allFrom_spec _ _ _ checkDoe_all). lia.
Qed.

Lemma isLeap_era y era : isLeap (y + era * 400) = isLeap y.
Proof.
  unfold isLeap.
  replace ((y + era * 400) mod 4) with (y mod 4)
    by (Z.to_euclidean_division_equations; lia).
  replace ((y + era * 400) mod 100) with (y mod 100)
    by (Z.to_euclidean_division_equations; lia).
  replace ((y + era * 400) mod 400) with (y mod 400)
    by (Z.to_euclidean_division_equations; lia).
  reflexivity.
Qed.

Lemma daysInMonth_era y m era :
  daysInMonth (y + era * 400) m = daysInMonth y m.
Proof. unfold daysInMonth. rewrite isLeap_era. reflexivity. Qed.

Lemma daysFromCivil_era y m d era :
  0 <= (if m <=? 2 then y - 1 else y) < 400 ->
  daysFromCivil (y + era * 400) m d = daysFromCivil y m d + era * 146097.
Proof.
  unfold daysFromCivil. intros H.
  set (y0 := if m <=? 2 then y - 1 else y) in *.
  replace (if m <=? 2 then y + era * 400 - 1 else y + era * 400)
    with (y0 + era * 400) by (unfold y0; destruct (m <=? 2); lia).
  rewrite Z.div_add by lia. rewrite (Z.div_small y0) by lia.
  replace (y0 + era * 400 - (0 + era) * 400) with y0 by lia.
  replace (y0 - 0 * 400) with y0 by lia. lia.
Qed.

Lemma civilFromDays_era z :
  let era := (z + 719468) / 146097 in
  let doe := (z + 719468) - era * 146097 in
  LuxonISO.civilFromDays z
  = let '(y, m, d) := LuxonISO.civilFromDays (doe - 719468) in
    (y + era * 400, m, d).
Proof.
  intros era doe.
  assert (R : 0 <= doe < 146097)
    by (unfold doe, era; Z.to_euclidean_division_equations; lia).
  unfold LuxonISO.civilFromDays.
  replace (doe - 719468 + 719468) with doe by lia.
  rewrite (Z.div_small doe 146097) by lia.
  replace (doe - 0 * 146097) with doe by lia.
  fold era. fold doe.
  set (yoe := (doe - doe / 1460 + doe / 36524 - doe / 146096) / 365).
  set (doy := doe - (365 * yoe + yoe / 4 - yoe / 100)).
  set (mp := (5 * doy + 2) / 153).
  destruct ((if mp <? 10 then mp + 3 else mp - 9) <=? 2);
    f_equal; f_equal; lia.
Qed.

(** [civilFromDays] gives a date of the calendar, and [daysFromCivil]
    counts it back. *)
Lemma civilFromDays_spec z y m d :
  LuxonISO.civilFromDays z = (y, m, d) ->
  daysFromCivil y m d = z /\ 1 <= m <= 12 /\ 1 <= d <= daysInMonth y m.
Proof.
  rewrite civilFromDays_era.
  set (era := (z + 719468) / 146097).
  set (doe := (z + 719468) - era * 146097).
  assert (R : 0 <= doe < 146097)
    by (unfold doe, era; Z.to_euclidean_division_equations; lia).
  pose proof (checkDoe_at doe R) as C. unfold checkDoe in C.
  destruct (LuxonISO.civilFromDays (doe - 719468)) as [[y0 m0] d0].
  intros E. injection E as <- <- <-.
  repeat (apply andb_prop in C as [C ?]).
  rewrite daysFromCivil_era, daysInMonth_era by lia.
  lia.
Qed.

Lemma daysFromCivil_year y m d :
  1 <= m <= 12 -> 1 <= d <= 31 ->
  -719528 <= daysFromCivil y m d <= 2932896 -> 0 <= y <= 9999.
Proof.
  unfold daysFromCivil. intros Hm Hd.
  destruct (m <=? 2) eqn:M2; destruct (2 <? m) eqn:M3; try lia;
    Z.to_euclidean_division_equations; lia.
Qed.

Lemma clock_fields ms off :
  let local := ms + off * 60 * 1000 in
  let t := local mod 86400000 in
  ((((local / 86400000) * 24 + t / 3600000) * 60 + t / 60000 mod 60 - off)
     * 60 + t / 1000 mod 60) * 1000 + t mod 1000 = ms
  /\ 0 <= t / 3600000 <= 23 /\ 0 <= t / 60000 mod 60 <= 59
  /\ 0 <= t / 1000 mod 60 <= 59 /\ 0 <= t mod 1000 <= 999.
Proof.
  intros local t.
  assert (T : 0 <= t < 86400000) by (apply Z.mod_pos_bound; lia).
  pose proof (Z.div_mod local 86400000 ltac:(lia)) as E0. fold t in E0.
  pose proof (Z.div_mod t 1000 ltac:(lia)) as E1.
  pose proof (Z.div_mod (t / 1000) 60 ltac:(lia)) as E2.
  pose proof (Z.div_mod (t / 60000) 60 ltac:(lia)) as E3.
  rewrite Z.div_div in E2 by lia. rewrite Z.div_div in E3 by lia.
  change (1000 * 60) with 60000 in E2. change (60000 * 60) with 3600000 in E3.
  pose proof (Z.mod_pos_bound t 1000 ltac:(lia)).
  pose proof (Z.mod_pos_bound (t / 1000) 60 ltac:(lia)).
  pose proof (Z.mod_pos_bound (t / 60000) 60 ltac:(lia)).
  assert (0 <= t / 3600000 <= 23).
  { split; [apply Z.div_pos; lia|].
    apply Z.lt_succ_r, Z.div_lt_upper_bound; lia. }
  subst local. lia.
Qed.

(** ** Writing a timestamp and reading it again *)

Lemma char_of_digit_of_char c d :
  digit_of_char c = Some d -> c = char_of_digit d.
Proof.
  destruct c as [[] [] [] [] [] [] [] []]; cbn; intros E;
    try discriminate; injection E as <-; reflexivity.
Qed.

Lemma spanDigits_inv s :
  s = str_of_digits (fst (spanDigits s)) ++ snd (spanDigits s).
Proof.
  induction s as [|c s IH]; [reflexivity|].
  cbn [spanDigits]. destruct (digit_of_char c) as [d|] eqn:E; [|reflexivity].
  destruct (spanDigits s) as [ds r]. cbn [fst snd] in *.
  cbn [str_of_digits map app]. fold (str_of_digits ds).
  f_equal; [apply char_of_digit_of_char, E | exact IH].
Qed.

Lemma paddedOk_spec k v :
  paddedOk k v = true ->
  exists ds, LuxonISO.padStart v k = str_of_digits ds
             /\ length ds = k /\ Z.of_N (N_of_digits ds) = v.
Proof.
  unfold paddedOk. pose proof (spanDigits_inv (LuxonISO.padStart v k)) as E.
  destruct (spanDigits (LuxonISO.padStart v k)) as [ds [|c r]];
    [|discriminate].
  cbn [fst snd] in E. rewrite app_nil_r in E.
  intros H. apply andb_prop in H as [L V].
  exists ds. split; [exact E|]. split.
  - apply Nat.eqb_eq, L.
  - apply Z.eqb_eq, V.
Qed.

Lemma padded2_all : allFrom (paddedOk 2) 100 0 = true.
Proof. vm_compute. reflexivity. Qed.

Lemma padded3_all : allFrom (paddedOk 3) 1000 0 = true.
Proof. vm_compute. reflexivity. Qed.

Lemma padded4_all : allFrom (paddedOk 4) (Z.to_nat 10000) 0 = true.
Proof. vm_compute. reflexivity. Qed.

Lemma twoDigits_padStart v r :
  0 <= v < 100 -> twoDigits (LuxonISO.padStart v 2 ++ r) = Some (v, r).
Proof.
  intros H.
  destruct (paddedOk_spec 2 v) as [ds [E [L V]]];
    [apply (allFrom_spec _ _ _ padded2_all); lia|].
  rewrite E. destruct ds as [|x [|y [|]]]; try discriminate.
  cbn [str_of_digits map app twoDigits].
  rewrite !digit_of_char_of_digit, V. reflexivity.
Qed.

Lemma expect_hit c r : expect c (c :: r) = Some r.
Proof. cbn [expect]. rewrite Ascii.eqb_refl. reflexivity. Qed.

Lemma readOffset_signed (c : ascii) (a b : Z) :
  c = "+"%char \/ c = "-"%char -> 0 <= a < 100 -> 0 <= b < 100 ->
  readOffset (c :: LuxonISO.padStart a 2 ++ ":"%char :: LuxonISO.padStart b 2)
  = Some (if Ascii.eqb c "-" then - (a * 60 + b) else a * 60 + b).
Proof.
  intros Hc Ha Hb.
  assert (S : (Ascii.eqb c "+" || Ascii.eqb c "-")%char = true)
    by (destruct Hc; subst; reflexivity).
  destruct (paddedOk_spec 2 a) as [ds [E [L V]]];
    [apply (allFrom_spec _ _ _ padded2_all); lia|].
  destruct ds as [|x [|y [|]]]; try discriminate.
  destruct (paddedOk_spec 2 b) as [ds' [E' [L' V']]];
    [apply (allFrom_spec _ _ _ padded2_all); lia|].
  destruct ds' as [|x' [|y' [|]]]; try discriminate.
  unfold readOffset. rewrite E, E'.
  cbn [str_of_digits map app]. rewrite S.
  cbn [twoDigits]. rewrite !digit_of_char_of_digit.
  rewrite expect_hit. cbn [twoDigits]. rewrite !digit_of_char_of_digit.
  rewrite V, V'. reflexivity.
Qed.

Lemma readOffset_offsetText o :
  -6000 < o < 6000 -> readOffset (offsetText o) = Some o.
Proof.
  intros H. unfold offsetText. destruct (o <? 0) eqn:E.
  - apply Z.ltb_lt in E.
    pose proof (Z.quot_rem' (- o) 60) as Q.
    pose proof (Z.rem_bound_pos (- o) 60 ltac:(lia) ltac:(lia)) as B.
    assert (0 <= Z.quot (- o) 60 < 100)
      by (split; [apply Z.quot_pos; lia | apply Z.quot_lt_upper_bound; lia]).
    cbn [app]. rewrite readOffset_signed by (auto; lia).
    cbn. f_equal. lia.
  - apply Z.ltb_ge in E.
    pose proof (Z.quot_rem' o 60) as Q.
    pose proof (Z.rem_bound_pos o 60 ltac:(lia) ltac:(lia)) as B.
    assert (0 <= Z.quot o 60 < 100)
      by (split; [apply Z.quot_pos; lia | apply Z.quot_lt_upper_bound; lia]).
    cbn [app]. rewrite readOffset_signed by (auto; lia).
    cbn. f_equal. lia.
Qed.

Lemma offsetText_head o : exists c r, offsetText o = c :: r
  /\ (c = "+"%char \/ c = "-"%char).
Proof.
  unfold offsetText. destruct (o <? 0); eexists; eexists; cbn [app];
    (split; [reflexivity|auto]).
Qed.

Lemma fractionMillis_three ds :
  length ds = 3%nat -> fractionMillis ds = Z.of_N (N_of_digits ds).
Proof.
  intros L. destruct ds as [|a [|b [|c [|]]]]; try discriminate.
  reflexivity.
Qed.

(** Reading the layout back. *)
Lemma readISO_layout yd mo d h mi sec (frac : option (list digit)) o :
  length yd = 4%nat ->
  0 <= mo < 100 -> 0 <= d < 100 -> 0 <= h < 100 -> 0 <= mi < 100 ->
  0 <= sec < 100 ->
  match frac with Some fd => length fd = 3%nat | None => True end ->
  -6000 < o < 6000 ->
  readISO (str_of_digits yd ++ "-" ++ LuxonISO.padStart mo 2
             ++ "-" ++ LuxonISO.padStart d 2
             ++ "T" ++ LuxonISO.padStart h 2
             ++ ":" ++ LuxonISO.padStart mi 2
             ++ ":" ++ LuxonISO.padStart sec 2
             ++ match frac with
                | Some fd => "." ++ str_of_digits fd
                | None => []
                end
             ++ offsetText o)
  = let y := Z.of_N (N_of_digits yd) in
    let ms := match frac with
              | Some fd => Z.of_N (N_of_digits fd)
              | None => 0
              end in
    if (1 <=? mo) && (mo <=? 12) && (1 <=? d) && (d <=? daysInMonth y mo)
       && ((h <=? 23) && (mi <=? 59) && (sec <=? 59)
           || (h =? 24) && (mi =? 0) && (sec =? 0) && (ms =? 0))
    then Some ((((daysFromCivil y mo d * 24 + h) * 60 + mi - o) * 60 + sec)
               * 1000 + ms)
    else None.
Proof.
  intros L Hmo Hd Hh Hmi Hs Hf Ho.
  unfold readISO. cbn [app].
  rewrite spanDigits_digits by reflexivity.
  rewrite L. cbn [Nat.eqb negb].
  rewrite expect_hit. cbn [optBind].
  rewrite twoDigits_padStart by lia. cbn [optBind].
  rewrite expect_hit. cbn [optBind].
  rewrite twoDigits_padStart by lia. cbn [optBind].
  rewrite expect_hit. cbn [optBind].
  rewrite twoDigits_padStart by lia. cbn [optBind].
  rewrite expect_hit. cbn [optBind].
  rewrite twoDigits_padStart by lia. cbn [optBind].
  rewrite expect_hit. cbn [optBind].
  rewrite twoDigits_padStart by lia. cbn [optBind].
  destruct (offsetText_head o) as [c [r [E Hc]]].
  destruct frac as [fd|].
  - cbn [app]. cbn [Ascii.eqb Bool.eqb orb andb].
    rewrite E.
    rewrite spanDigits_digits
      by (destruct Hc; subst; reflexivity).
    rewrite <- E. rewrite readOffset_offsetText by exact Ho.
    cbn [optBind]. rewrite Hf. cbn [Nat.leb andb].
    rewrite fractionMillis_three by exact Hf. reflexivity.
  - cbn [app]. rewrite E.
    assert (N : (Ascii.eqb c "." || Ascii.eqb c ",")%char = false)
      by (destruct Hc; subst; reflexivity).
    rewrite N. rewrite <- E. rewrite readOffset_offsetText by exact Ho.
    cbn [optBind]. reflexivity.
Qed.

Lemma some_inj {A} (a b : A) : Some a = Some b -> a = b.
Proof. intros H. injection H as ->. reflexivity. Qed.

Lemma daysInMonth_le y m : daysInMonth y m <= 31.
Proof.
  unfold daysInMonth.
  destruct (m =? 2); [destruct (isLeap y); lia|].
  destruct ((m =? 4) || (m =? 6) || (m =? 9) || (m =? 11)); lia.
Qed.

(** The written timestamp as the fields of its layout. *)
Lemma toISO_layout b offset ms :
  fourDigitYear offset ms ->
  let c := LuxonISO.tsToObj ms offset in
  exists yd,
    length yd = 4%nat
    /\ Z.of_N (N_of_digits yd) = LuxonISO.year c
    /\ LuxonISO.toISO b offset (Instant ms)
       = Some (str_of_digits yd ++ "-" ++ LuxonISO.padStart (LuxonISO.month c) 2
                 ++ "-" ++ LuxonISO.padStart (LuxonISO.day c) 2
                 ++ "T" ++ LuxonISO.padStart (LuxonISO.hour c) 2
                 ++ ":" ++ LuxonISO.padStart (LuxonISO.minute c) 2
                 ++ ":" ++ LuxonISO.padStart (LuxonISO.second c) 2
                 ++ (if negb (LuxonISO.millisecond c =? 0) || negb b
                     then "." ++ LuxonISO.padStart (LuxonISO.millisecond c) 3
                     else [])
                 ++ offsetText offset)
    /\ daysFromCivil (LuxonISO.year c) (LuxonISO.month c) (LuxonISO.day c)
       = (ms + offset * 60 * 1000) / 86400000
    /\ 1 <= LuxonISO.month c <= 12
    /\ 1 <= LuxonISO.day c
       <= daysInMonth (LuxonISO.year c) (LuxonISO.month c).
Proof.
  intros R c.
  unfold fourDigitYear in R.
  assert (Y : 0 <= LuxonISO.year c <= 9999
              /\ daysFromCivil (LuxonISO.year c) (LuxonISO.month c)
                   (LuxonISO.day c)
                 = (ms + offset * 60 * 1000) / 86400000
              /\ 1 <= LuxonISO.month c <= 12
              /\ 1 <= LuxonISO.day c
                 <= daysInMonth (LuxonISO.year c) (LuxonISO.month c)).
  { unfold c, LuxonISO.tsToObj.
    destruct (LuxonISO.civilFromDays ((ms + offset * 60 * 1000) / 86400000))
      as [[y m] d] eqn:C.
    cbn [LuxonISO.year LuxonISO.month LuxonISO.day].
    apply civilFromDays_spec in C as [D [Hm Hd]].
    split; [|auto].
    pose proof (daysInMonth_le y m).
    apply (daysFromCivil_year y m d); [lia|lia|].
    rewrite D. split.
    - apply Z.div_le_lower_bound; lia.
    - apply Z.lt_succ_r, Z.div_lt_upper_bound; lia. }
  destruct Y as [Y [D [Hm Hd]]].
  destruct (paddedOk_spec 4 (LuxonISO.year c)) as [yd [E [L V]]];
    [apply (allFrom_spec _ _ _ padded4_all); lia|].
  exists yd. split; [exact L|]. split; [exact V|].
  split; [|auto].
  unfold LuxonISO.toISO. fold c. f_equal.
  unfold LuxonISO.toISODate, LuxonISO.toISOTime.
  assert (F : (9999 <? LuxonISO.year c) || (LuxonISO.year c <? 0) = false).
  { apply orb_false_intro; [apply Z.ltb_ge | apply Z.ltb_ge]; lia. }
  rewrite F. cbn [andb]. rewrite E.
  fold (offsetText offset).
  rewrite <- !app_assoc. reflexivity.
Qed.

Lemma readISO_toISO b offset ms s :
  fourDigitYear offset ms -> -6000 < offset < 6000 ->
  LuxonISO.toISO b offset (Instant ms) = Some s -> readISO s = Some ms.
Proof.
  intros R O.
  destruct (toISO_layout b offset ms R) as [yd [L [V [E [D [Hm Hd]]]]]].
  rewrite E. intros S. apply some_inj in S. subst s.
  pose proof (clock_fields ms offset) as [T [Hh [Hmi [Hs Hms]]]].
  pose proof (daysInMonth_le (LuxonISO.year (LuxonISO.tsToObj ms offset))
                (LuxonISO.month (LuxonISO.tsToObj ms offset))) as M31.
  revert D Hm Hd M31 V. 
  set (c := LuxonISO.tsToObj ms offset).
  assert (Ch : LuxonISO.hour c = (ms + offset * 60 * 1000) mod 86400000 / 3600000
          /\ LuxonISO.minute c = (ms + offset * 60 * 1000) mod 86400000 / 60000 mod 60
          /\ LuxonISO.second c = (ms + offset * 60 * 1000) mod 86400000 / 1000 mod 60
          /\ LuxonISO.millisecond c = (ms + offset * 60 * 1000) mod 86400000 mod 1000).
  { unfold c, LuxonISO.tsToObj.
    destruct (LuxonISO.civilFromDays ((ms + offset * 60 * 1000) / 86400000))
      as [[y m] d]. repeat split. }
  destruct Ch as [Ch [Cmi [Cs Cms]]].
  rewrite <- Ch, <- Cmi, <- Cs, <- Cms in *.
  intros D Hm Hd M31 V.
  destruct (negb (LuxonISO.millisecond c =? 0) || negb b) eqn:Fr.
  - destruct (paddedOk_spec 3 (LuxonISO.millisecond c)) as [fd [Ef [Lf Vf]]];
      [apply (allFrom_spec _ _ _ padded3_all); lia|].
    rewrite Ef.
    pose proof (readISO_layout yd (LuxonISO.month c) (LuxonISO.day c)
                  (LuxonISO.hour c) (LuxonISO.minute c) (LuxonISO.second c)
                  (Some fd) offset L ltac:(lia) ltac:(lia) ltac:(lia)
                  ltac:(lia) ltac:(lia) Lf O) as K.
    cbv beta iota zeta in K. rewrite K. rewrite V, Vf.
    replace ((1 <=? LuxonISO.month c) && (LuxonISO.month c <=? 12)
             && (1 <=? LuxonISO.day c)
             && (LuxonISO.day c <=? daysInMonth (LuxonISO.year c) (LuxonISO.month c))
             && ((LuxonISO.hour c <=? 23) && (LuxonISO.minute c <=? 59)
                 && (LuxonISO.second c <=? 59)
                 || (LuxonISO.hour c =? 24) && (LuxonISO.minute c =? 0)
                    && (LuxonISO.second c =? 0)
                    && (LuxonISO.millisecond c =? 0)))
      with true.
    + f_equal. rewrite D. exact T.
    + symmetry. apply andb_true_intro. split.
      * repeat (apply andb_true_intro; split); apply Z.leb_le; lia.
      * apply orb_true_intro. left.
        repeat (apply andb_true_intro; split); apply Z.leb_le; lia.
  - apply orb_false_elim in Fr as [Fr _]. apply negb_false_iff, Z.eqb_eq in Fr.
    pose proof (readISO_layout yd (LuxonISO.month c) (LuxonISO.day c)
                  (LuxonISO.hour c) (LuxonISO.minute c) (LuxonISO.second c)
                  None offset L ltac:(lia) ltac:(lia) ltac:(lia)
                  ltac:(lia) ltac:(lia) I O) as K.
    cbv beta iota zeta in K. rewrite K. rewrite V.
    replace ((1 <=? LuxonISO.month c) && (LuxonISO.month c <=? 12)
             && (1 <=? LuxonISO.day c)
             && (LuxonISO.day c <=? daysInMonth (LuxonISO.year c) (LuxonISO.month c))
             && ((LuxonISO.hour c <=? 23) && (LuxonISO.minute c <=? 59)
                 && (LuxonISO.second c <=? 59)
                 || (LuxonISO.hour c =? 24) && (LuxonISO.minute c =? 0)
                    && (LuxonISO.second c =? 0)
                    && (0 =? 0)))
      with true.
    + f_equal. rewrite D. lia.
    + symmetry. apply andb_true_intro. split.
      * repeat (apply andb_true_intro; split); apply Z.leb_le; lia.
      * apply orb_true_intro. left.
        repeat (apply andb_true_intro; split); apply Z.leb_le; lia.
Qed.

Lemma stampChar_plain c :
  stampChar c = true \/ c = "."%char ->
  isWhiteSpace c = false /\ c <> ","%char /\ c <> LF.
Proof.
  intros [H| ->]; [|repeat split; (reflexivity || discriminate)].
  unfold stampChar in H. apply existsb_exists in H as [x [Hin E]].
  apply Ascii.eqb_eq in E. subst x. cbn in Hin.
  repeat (destruct Hin as [<-|Hin];
          [repeat split; (reflexivity || discriminate)|]).
  contradiction.
Qed.

Lemma padStart_chars v k :
  Forall (fun c => stampChar c = true) (LuxonISO.padStart v k).
Proof.
  unfold LuxonISO.padStart. apply Forall_app. split; [|apply Forall_app; split].
  - destruct (v <? 0); repeat constructor.
  - apply Forall_forall. intros c H. apply repeat_spec in H. subst. reflexivity.
  - unfold str_of_digits. apply Forall_map, Forall_forall.
    intros [|[]] _; reflexivity.
Qed.

Lemma offsetText_chars o : Forall (fun c => stampChar c = true) (offsetText o).
Proof.
  unfold offsetText.
  destruct (o <? 0); cbn [app]; constructor; try reflexivity;
    (apply Forall_app; split; [apply padStart_chars|]);
    (constructor; [reflexivity | apply padStart_chars]).
Qed.

(** A written timestamp is a head and a tail of digits and the marks
    [-], [:], [T], [+], with the fraction, when there is one, between
    them. *)
Lemma toISO_parts b offset ms :
  exists head tail,
    Forall (fun c => stampChar c = true) head
    /\ Forall (fun c => stampChar c = true) tail
    /\ LuxonISO.toISO b offset (Instant ms)
       = Some (head
                 ++ (if negb ((ms + offset * 60 * 1000) mod 86400000 mod 1000 =? 0)
                        || negb b
                     then "." ++ LuxonISO.padStart
                                   ((ms + offset * 60 * 1000) mod 86400000 mod 1000) 3
                     else [])
                 ++ tail).
Proof.
  unfold LuxonISO.toISO, LuxonISO.tsToObj.
  destruct (LuxonISO.civilFromDays ((ms + offset * 60 * 1000) / 86400000))
    as [[y m] d].
  unfold LuxonISO.toISODate, LuxonISO.toISOTime.
  cbn [LuxonISO.year LuxonISO.month LuxonISO.day LuxonISO.hour
       LuxonISO.minute LuxonISO.second LuxonISO.millisecond].
  fold (offsetText offset).
  set (t := (ms + offset * 60 * 1000) mod 86400000).
  exists (((if ((9999 <? y) || (y <? 0)) && (0 <=? y) then "+" else [])
            ++ LuxonISO.padStart y (if (9999 <? y) || (y <? 0) then 6 else 4)
            ++ "-" ++ LuxonISO.padStart m 2 ++ "-" ++ LuxonISO.padStart d 2)
           ++ "T" ++ LuxonISO.padStart (t / 3600000) 2
           ++ ":" ++ LuxonISO.padStart (t / 60000 mod 60) 2
           ++ ":" ++ LuxonISO.padStart (t / 1000 mod 60) 2), (offsetText offset).
  split; [|split; [apply offsetText_chars|]].
  - repeat first [ apply padStart_chars
                 | apply Forall_nil
                 | apply Forall_cons; [reflexivity|]
                 | apply Forall_app; split ].
    destruct (((9999 <? y) || (y <? 0)) && (0 <=? y)); repeat constructor.
  - f_equal. rewrite <- !app_assoc. reflexivity.
Qed.

(** ** Saving and loading *)

Lemma toISO_millis offset ms :
  (ms + offset * 60 * 1000) mod 86400000 mod 1000 = ms mod 1000.
Proof. Z.to_euclidean_division_equations. lia. Qed.

Lemma toISOParis_fraction offset ms s :
  toISOParis offset (Instant ms) = Some s ->
  (In "."%char s <-> ms mod 1000 <> 0)
  /\ Forall (fun c => stampChar c = true \/ c = "."%char) s.
Proof.
  unfold toISOParis.
  destruct (toISO_parts true offset ms) as [head [tail [Hh [Ht E]]]].
  rewrite E, toISO_millis. intros S. apply some_inj in S. subst s.
  cbn [negb orb]. rewrite orb_false_r.
  assert (Nh : forall l, Forall (fun c => stampChar c = true) l ->
                         ~ In "."%char l).
  { intros l F C. rewrite Forall_forall in F. specialize (F _ C).
    discriminate. }
  assert (W : forall l, Forall (fun c => stampChar c = true) l ->
                        Forall (fun c => stampChar c = true \/ c = "."%char) l).
  { intros l. apply Forall_impl. auto. }
  destruct (ms mod 1000 =? 0) eqn:Z0; cbn [negb].
  - apply Z.eqb_eq in Z0. split.
    + split; [|intros C; contradiction].
      intros C. exfalso. cbn [app] in C. apply in_app_or in C as [C|C].
      * exact (Nh _ Hh C).
      * exact (Nh _ Ht C).
    + apply Forall_app. split; [|cbn [app]]; apply W; assumption.
  - apply Z.eqb_neq in Z0. split.
    + split; [intros _; exact Z0|]. intros _.
      apply in_or_app. right. left. reflexivity.
    + apply Forall_app. split; [apply W, Hh|].
      apply Forall_app. split; [|apply W, Ht].
      constructor; [right; reflexivity | apply W, padStart_chars].
Qed.

Lemma toISOParis_plainStamp offset ms s :
  -6000 < offset < 6000 -> fourDigitYear offset ms ->
  toISOParis offset (Instant ms) = Some s ->
  Luxon.fromISO s = Instant ms /\ plainStamp Luxon.fromISO s.
Proof.
  intros O R S.
  assert (F : Luxon.fromISO s = Instant ms).
  { unfold Luxon.fromISO. rewrite (readISO_toISO true offset ms s R O S).
    reflexivity. }
  split; [exact F|].
  destruct (toISOParis_fraction offset ms s S) as [_ C].
  assert (P : Forall (fun c => isWhiteSpace c = false /\ c <> ","%char
                               /\ c <> LF) s)
    by (revert C; apply Forall_impl; intros c; apply stampChar_plain).
  rewrite Forall_forall in P.
  unfold plainStamp. rewrite F. split; [discriminate|]. split; [|split].
  - apply trim_no_space, Forall_forall. intros c H. apply (P c H).
  - intros H. destruct (P _ H) as [_ [N _]]. apply N. reflexivity.
  - intros H. destruct (P _ H) as [_ [_ N]]. apply N. reflexivity.
Qed.


Lemma atMostOneDecimal_finite x : atMostOneDecimal x -> isFinite x = true.
Proof. destruct x; cbn; intros H; (reflexivity || contradiction). Qed.

Section Store.
Variable fromISO : str -> DateTime.
Hypothesis fromISO_empty : toMillis (fromISO []) = None.

(** What [saveEntries] writes, [loadEntries] reads back. *)
Lemma load_save r :
  sortedDescending fromISO r -> Forall (plainRecord fromISO) r ->
  loadEntries fromISO (saveEntries r) = r.
Proof.
  intros S P. unfold saveEntries, loadEntries.
  assert (T : truthy_str (entriesToCSV r) = true).
  { assert (E : exists s, join [LF] (CSV_HEADER :: map entryLine r)
                          = "t"%char :: s)
      by apply (join_head [LF] "t"%char "imestamp,amount").
    destruct E as [s E]. unfold entriesToCSV. cbv zeta. rewrite E.
    reflexivity. }
  rewrite T. cbn [negb].
  rewrite parseCSV_eq, (dataLines_encoded fromISO fromISO_empty) by exact P.
  rewrite (decode_lines fromISO fromISO_empty) by exact P.
  rewrite sort_fixpoint by exact S. reflexivity.
Qed.

Lemma loaded_plain item :
  Forall (parseable fromISO) (loadEntries fromISO item) ->
  sortedDescending fromISO (loadEntries fromISO item)
  /\ Forall (plainRecord fromISO) (loadEntries fromISO item).
Proof.
  destruct item as [csv|]; [|split; constructor].
  unfold loadEntries. destruct (truthy_str csv); cbn [negb];
    [|split; constructor].
  pose proof (decoded_plain fromISO csv _ (parseCSV_eq fromISO csv)) as D.
  rewrite parseCSV_eq. cbn [tryCatch]. intros F. split.
  - apply sort_sorted.
    apply (Permutation_Forall
             (x := sort (compareEntries fromISO)
                     (map entryOf (filter wellFormed (dataLines csv)))));
      [apply sort_perm | exact F].
  - rewrite Forall_forall in *. intros e H.
    destruct (D e H) as [A [B [C E]]]. specialize (F e H).
    repeat split; assumption.
Qed.

Lemma newEntry_plain nowISO st :
  moderate (doseAmt st) -> plainStamp fromISO nowISO ->
  plainRecord fromISO (newEntryOf nowISO st).
Proof.
  intros M [P [T [C L]]]. unfold plainRecord, newEntryOf, parseable, instantOf.
  cbn [tsISO amount]. split; [|auto].
  apply atMostOneDecimal_finite, stored_amount_one_decimal, M.
Qed.

Lemma session_invariant st :
  session fromISO st ->
  sortedDescending fromISO (entries st)
  /\ Forall (plainRecord fromISO) (entries st)
  /\ moderate (doseAmt st)
  /\ loadEntries fromISO (stored st) = entries st.
Proof.
  induction 1 as [item F|nowISO st R IH P F|st R IH|v st R IH M
                 |e st R IH|st R IH].
  - destruct (loaded_plain item F) as [S P].
    split; [exact S|]. split; [exact P|]. split; [cbn; lia | reflexivity].
  - destruct IH as [S [P' [M L]]].
    unfold addDose. destruct (isAddingDose st); [repeat split; assumption|].
    cbn [entries doseAmt stored].
    assert (S' : sortedDescending fromISO (newEntryOf nowISO st :: entries st))
      by (constructor; assumption).
    assert (Q : Forall (plainRecord fromISO) (newEntryOf nowISO st :: entries st))
      by (constructor; [apply newEntry_plain|]; assumption).
    repeat split; try assumption. apply load_save; assumption.
  - exact IH.
  - destruct IH as [S [P' [_ L]]]. repeat split; assumption.
  - destruct IH as [S [P' [M L]]]. unfold deleteSingleDose.
    cbn [entries doseAmt stored].
    assert (S' : sortedDescending fromISO (remaining e (entries st)))
      by (apply sorted_filter, S).
    assert (Q : Forall (plainRecord fromISO) (remaining e (entries st))).
    { rewrite Forall_forall in *. intros x H. apply filter_In in H as [H _].
      exact (P' x H). }
    repeat split; try assumption. apply load_save; assumption.
  - destruct IH as [_ [_ [M _]]]. repeat split; try assumption; constructor.
Qed.
End Store.

(** ** Deleting, the timer and the intervals *)

Lemma str_eqb_eq a b : str_eqb a b = true <-> a = b.
Proof.
  unfold str_eqb. destruct (list_eq_dec ascii_dec a b); split;
    congruence.
Qed.

Lemma remaining_In e l x :
  In x (remaining e l) <-> In x l /\ tsISO x <> tsISO e.
Proof.
  unfold remaining. rewrite filter_In, negb_true_iff.
  split; intros [H N]; (split; [exact H|]).
  - intros C. apply str_eqb_eq in C. congruence.
  - destruct (str_eqb (tsISO x) (tsISO e)) eqn:E; [|reflexivity].
    apply str_eqb_eq in E. contradiction.
Qed.

Lemma remaining_all e l :
  Forall (fun x => tsISO x <> tsISO e) l -> remaining e l = l.
Proof.
  intros F. unfold remaining. apply forallb_filter_id, forallb_forall.
  rewrite Forall_forall in F. intros x H. apply negb_true_iff.
  destruct (str_eqb (tsISO x) (tsISO e)) eqn:E; [|reflexivity].
  apply str_eqb_eq in E. exfalso. exact (F x H E).
Qed.

Lemma remaining_one e l1 x l2 :
  NoDup (map tsISO (l1 ++ x :: l2)) -> tsISO x = tsISO e ->
  remaining e (l1 ++ x :: l2) = l1 ++ l2.
Proof.
  intros N E. rewrite map_app in N. cbn [map] in N.
  pose proof (NoDup_remove_2 _ _ _ N) as Hx.
  unfold remaining. rewrite filter_app. cbn [filter].
  assert (X : str_eqb (tsISO x) (tsISO e) = true) by (apply str_eqb_eq, E).
  rewrite X. cbn [negb].
  fold (remaining e l1). fold (remaining e l2).
  rewrite !remaining_all; [reflexivity| |];
    apply Forall_forall; intros y Hy C; apply Hx, in_or_app;
    [right|left]; rewrite E, <- C; apply in_map, Hy.
Qed.

Lemma remaining_idem e l : remaining e (remaining e l) = remaining e l.
Proof.
  apply remaining_all, Forall_forall. intros x H.
  apply remaining_In in H. apply H.
Qed.


Lemma pad_negative z :
  z < 0 -> pad (Some z) = "0-" ++ str_of_digits (digits_of_N (Z.abs_N z)).
Proof.
  intros H. unfold pad, int_toString, Z_toString.
  destruct (z <? 10) eqn:A; [|apply Z.ltb_ge in A; lia].
  destruct (z <? 0) eqn:B; [reflexivity | apply Z.ltb_ge in B; lia].
Qed.

Lemma formatElapsed_fields ms :
  formatElapsed (Millis ms)
  = pad (Some (wholeHours ms)) ++ ":" ++ twoDigit (minutesPart ms)
      ++ ":" ++ twoDigit (secondsPart ms).
Proof.
  destruct (part_bounds ms) as [Bm Bs].
  destruct (remainder_fields ms) as [Hm Hs].
  unfold formatElapsed.
  rewrite floor_as. cbn [minus]. rewrite floor_as. cbn [unitMillis].
  replace (ms - ms / 3600000 * 3600000 - 0 * 60000)
    with (ms - ms / 3600000 * 3600000) by lia.
  rewrite Hm, floor_as. cbn [unitMillis]. rewrite Hs.
  rewrite (pad_twoDigit (minutesPart ms)), (pad_twoDigit (secondsPart ms))
    by lia.
  reflexivity.
Qed.


Section Intervals.
Variable fromISO : str -> DateTime.

Lemma intervalSincePrev_beyond st i :
  (length (entries st) <= i)%nat -> intervalSincePrev fromISO st i = TypeError.
Proof.
  intros H. unfold intervalSincePrev.
  destruct (Z.of_nat i =? Z.of_nat (length (entries st)) - 1) eqn:E;
    [apply Z.eqb_eq in E; lia|].
  apply nth_error_None in H. rewrite H. reflexivity.
Qed.

Lemma intervalSincePrev_pair st i :
  (S i < length (entries st))%nat ->
  exists newer older,
    nth_error (entries st) i = Some newer
    /\ nth_error (entries st) (S i) = Some older
    /\ intervalSincePrev fromISO st i
       = Ok (intervalText (diff (fromISO (tsISO newer))
                                (fromISO (tsISO older)))).
Proof.
  intros H. unfold intervalSincePrev.
  destruct (Z.of_nat i =? Z.of_nat (length (entries st)) - 1) eqn:E;
    [apply Z.eqb_eq in E; lia|].
  destruct (nth_error (entries st) i) as [a|] eqn:A;
    [|apply nth_error_None in A; lia].
  replace (i + 1)%nat with (S i) by lia.
  destruct (nth_error (entries st) (S i)) as [b|] eqn:B;
    [|apply nth_error_None in B; lia].
  exists a, b. repeat split.
Qed.

Lemma diff_invalid a b :
  toMillis a = None \/ toMillis b = None -> diff a b = InvalidDuration.
Proof.
  destruct a, b; cbn; intros [H|H]; (reflexivity || discriminate).
Qed.
End Intervals.

(** ** Line ends and the header *)

Lemma trimStart_length s : (length (trimStart s) <= length s)%nat.
Proof.
  induction s as [|c s IH]; [reflexivity|].
  cbn [trimStart]. destruct (isWhiteSpace c); cbn [length]; lia.
Qed.

Lemma trim_length s : (length (trim s) <= length s)%nat.
Proof.
  unfold trim, trimEnd. rewrite length_rev.
  pose proof (trimStart_length (rev (trimStart s))) as A.
  rewrite length_rev in A. pose proof (trimStart_length s). lia.
Qed.

Lemma trimmed_head c s : trim (c :: s) = c :: s -> isWhiteSpace c = false.
Proof.
  intros E. destruct (isWhiteSpace c) eqn:W; [|reflexivity].
  exfalso. unfold trim in E. cbn [trimStart] in E. rewrite W in E.
  fold (trim s) in E. pose proof (trim_length s) as L.
  rewrite E in L. cbn [length] in L. lia.
Qed.

Lemma splitLines_cons_crlf a b :
  ~ In LF a -> splitLines (a ++ CR :: LF :: b) = a :: splitLines b.
Proof.
  intros H. unfold splitLines.
  change (a ++ CR :: LF :: b) with (a ++ [CR] ++ LF :: b).
  rewrite app_assoc. rewrite splitLinesFrom_run.
  - cbn [splitLinesFrom]. rewrite Ascii.eqb_refl, app_nil_r, rev_unit.
    rewrite Ascii.eqb_refl, rev_involutive. reflexivity.
  - intros C. apply in_app_or in C as [C|[C|[]]]; [exact (H C)|discriminate].
Qed.

Lemma splitLines_join_crlf (l0 : str) (ls : list str) :
  Forall (fun a => ~ In LF a) (l0 :: ls) ->
  splitLines (join [CR; LF] (l0 :: ls)) = l0 :: ls.
Proof.
  revert l0. induction ls as [|l1 ls IH]; intros l0 H.
  - cbn [join]. apply splitLines_last. inversion H. assumption.
  - inversion H as [|? ? H0 H']; subst.
    change (join [CR; LF] (l0 :: l1 :: ls))
      with (l0 ++ [CR; LF] ++ join [CR; LF] (l1 :: ls)).
    cbn [app]. rewrite splitLines_cons_crlf by assumption.
    rewrite IH by exact H'. reflexivity.
Qed.

Lemma endsClean_join_sep sep l0 ls :
  Forall endsClean (l0 :: ls) -> endsClean (join sep (l0 :: ls)).
Proof.
  revert l0. induction ls as [|l1 ls IH]; intros l0 H.
  - inversion H. assumption.
  - inversion H as [|? ? _ H']; subst.
    change (join sep (l0 :: l1 :: ls))
      with (l0 ++ sep ++ join sep (l1 :: ls)).
    apply endsClean_app, endsClean_app, IH, H'.
Qed.

(** The non-empty lines of a text made of clean lines are these
    lines. *)
Lemma nonEmptyLines_joined sep c h ls :
  isWhiteSpace c = false ->
  Forall (fun l => endsClean l /\ truthy_str l = true) ((c :: h) :: ls) ->
  splitLines (join sep ((c :: h) :: ls)) = (c :: h) :: ls ->
  nonEmptyLines (join sep ((c :: h) :: ls)) = (c :: h) :: ls.
Proof.
  intros Hc F S. unfold nonEmptyLines.
  assert (C : endsClean (join sep ((c :: h) :: ls)))
    by (apply endsClean_join_sep; revert F; apply Forall_impl; tauto).
  destruct (join_head sep c h ls) as [s E].
  assert (T : trim (join sep ((c :: h) :: ls)) = join sep ((c :: h) :: ls)).
  { rewrite E in C |- *. apply trim_ends; assumption. }
  rewrite T, S. apply forallb_filter_id, forallb_forall.
  rewrite Forall_forall in F. intros l Hl. apply (F l Hl).
Qed.

Section Layouts.
Variable fromISO : str -> DateTime.
Hypothesis fromISO_empty : toMillis (fromISO []) = None.

Lemma entryLines_clean r :
  Forall (plainRecord fromISO) r ->
  Forall (fun l => (~ In LF l /\ noTrailingCR l)
                   /\ endsClean l /\ truthy_str l = true)
    (map entryLine r).
Proof.
  intros P. apply Forall_map. revert P. apply Forall_impl. intros e P.
  destruct (entryLine_shape fromISO fromISO_empty e P) as [A [B C]].
  repeat split; try assumption. apply endsClean_noTrailingCR, B.
Qed.

Lemma header_clean :
  (~ In LF CSV_HEADER /\ noTrailingCR CSV_HEADER)
  /\ endsClean CSV_HEADER /\ truthy_str CSV_HEADER = true.
Proof.
  repeat split; try (cbv; intuition discriminate).
  exists "timestamp,amoun", "t"%char. split; reflexivity.
Qed.

(** The encoded log with CR LF between its lines. *)
Lemma dataLines_crlf r :
  Forall (plainRecord fromISO) r ->
  dataLines (join [CR; LF] (CSV_HEADER :: map entryLine r))
  = map entryLine r.
Proof.
  intros P. pose proof (entryLines_clean r P) as F.
  unfold dataLines.
  change CSV_HEADER with ("t"%char :: "imestamp,amount") at 1.
  rewrite nonEmptyLines_joined; [reflexivity|reflexivity| |].
  - constructor; [apply header_clean|].
    revert F. apply Forall_impl. tauto.
  - apply splitLines_join_crlf. constructor; [apply header_clean|].
    revert F. apply Forall_impl. tauto.
Qed.

(** The encoded log without its header line. *)
Lemma dataLines_headless e r :
  Forall (plainRecord fromISO) (e :: r) ->
  isHeader (entryLine e) = false ->
  dataLines (join [LF] (map entryLine (e :: r))) = map entryLine (e :: r).
Proof.
  intros P H. pose proof (entryLines_clean (e :: r) P) as F.
  inversion P as [|? ? Pe _]; subst.
  pose proof (plainRecord_nonempty fromISO fromISO_empty e Pe) as NE.
  destruct Pe as [_ [_ [T _]]].
  unfold dataLines. cbn [map] in *.
  destruct (tsISO e) as [|c h] eqn:Ets; [congruence|].
  assert (L : entryLine e = c :: (h ++ "," ++ toString (amount e)))
    by (unfold entryLine; rewrite Ets; reflexivity).
  rewrite L in *.
  rewrite nonEmptyLines_joined.
  - rewrite H. reflexivity.
  - apply trimmed_head with (s := h). exact T.
  - revert F. apply Forall_impl. tauto.
  - apply splitLines_join. revert F. apply Forall_impl. tauto.
Qed.
End Layouts.

Lemma toCRLF_rev s : rev (toCRLF s) = toLFCR (rev s).
Proof.
  unfold toCRLF, toLFCR. induction s as [|c s IH]; [reflexivity|].
  cbn [flat_map rev]. rewrite rev_app_distr, IH, flat_map_app.
  cbn [flat_map]. rewrite app_nil_r. f_equal.
  destruct (Ascii.eqb c LF); reflexivity.
Qed.

Lemma toLFCR_rev s : rev (toLFCR s) = toCRLF (rev s).
Proof.
  unfold toCRLF, toLFCR. induction s as [|c s IH]; [reflexivity|].
  cbn [flat_map rev]. rewrite rev_app_distr, IH, flat_map_app.
  cbn [flat_map]. rewrite app_nil_r. f_equal.
  destruct (Ascii.eqb c LF); reflexivity.
Qed.

Lemma trimStart_toCRLF s : trimStart (toCRLF s) = toCRLF (trimStart s).
Proof.
  induction s as [|c s IH]; [reflexivity|].
  change (toCRLF (c :: s))
    with ((if Ascii.eqb c LF then [CR; LF] else [c]) ++ toCRLF s).
  cbn [trimStart]. destruct (Ascii.eqb c LF) eqn:E.
  - apply Ascii.eqb_eq in E. subst c. cbn [app trimStart].
    change (isWhiteSpace CR) with true. change (isWhiteSpace LF) with true.
    cbv iota. exact IH.
  - cbn [app trimStart]. destruct (isWhiteSpace c); [exact IH|].
    change (toCRLF (c :: s))
      with ((if Ascii.eqb c LF then [CR; LF] else [c]) ++ toCRLF s).
    rewrite E. reflexivity.
Qed.

Lemma trimStart_toLFCR s : trimStart (toLFCR s) = toLFCR (trimStart s).
Proof.
  induction s as [|c s IH]; [reflexivity|].
  change (toLFCR (c :: s))
    with ((if Ascii.eqb c LF then [LF; CR] else [c]) ++ toLFCR s).
  cbn [trimStart]. destruct (Ascii.eqb c LF) eqn:E.
  - apply Ascii.eqb_eq in E. subst c. cbn [app trimStart].
    change (isWhiteSpace CR) with true. change (isWhiteSpace LF) with true.
    cbv iota. exact IH.
  - cbn [app trimStart]. destruct (isWhiteSpace c); [exact IH|].
    change (toLFCR (c :: s))
      with ((if Ascii.eqb c LF then [LF; CR] else [c]) ++ toLFCR s).
    rewrite E. reflexivity.
Qed.

Lemma trim_toCRLF s : trim (toCRLF s) = toCRLF (trim s).
Proof.
  unfold trim, trimEnd.
  rewrite trimStart_toCRLF, toCRLF_rev, trimStart_toLFCR, toLFCR_rev.
  reflexivity.
Qed.

Lemma splitLinesFrom_toCRLF cur s :
  ~ In CR cur -> ~ In CR s ->
  splitLinesFrom cur (toCRLF s) = splitLinesFrom cur s.
Proof.
  revert cur. induction s as [|c s IH]; intros cur Hc Hs; [reflexivity|].
  change (toCRLF (c :: s))
    with ((if Ascii.eqb c LF then [CR; LF] else [c]) ++ toCRLF s).
  assert (Hs' : ~ In CR s) by (intros C; apply Hs; right; exact C).
  cbn [splitLinesFrom]. destruct (Ascii.eqb c LF) eqn:E.
  - cbn [app splitLinesFrom].
    change (Ascii.eqb CR LF) with false. cbv iota.
    rewrite Ascii.eqb_refl. rewrite Ascii.eqb_refl.
    rewrite IH by (exact Hs' || intros []).
    f_equal. destruct cur as [|c0 cur']; [reflexivity|].
    destruct (Ascii.eqb c0 CR) eqn:E0; [|reflexivity].
    apply Ascii.eqb_eq in E0. subst c0. exfalso. apply Hc. left. reflexivity.
  - cbn [app splitLinesFrom]. rewrite E. apply IH; [|exact Hs'].
    intros [C|C]; [|exact (Hc C)]. apply Hs. left. exact C.
Qed.

Lemma trim_no_CR s : ~ In CR s -> ~ In CR (trim s).
Proof. intros H C. apply H, trim_sub, C. Qed.

Lemma dataLines_toCRLF s : ~ In CR s -> dataLines (toCRLF s) = dataLines s.
Proof.
  intros H. unfold dataLines, nonEmptyLines, splitLines.
  rewrite trim_toCRLF, splitLinesFrom_toCRLF;
    [reflexivity | intros [] | apply trim_no_CR, H].
Qed.

(** ** Further properties of the program *)

(** X1: the timestamp [toISOParis] writes for the clock reading is read
    back by [DateTime.fromISO] as the same instant; it has no
    surrounding white space, no comma and no line feed, and it carries
    a fraction of a second exactly when the instant is not on a whole
    second.  (Local years 0000 to 9999; an offset whose hours take two
    digits.) *)
Theorem toISOParis_reads_back :
  forall offset ms : Z,
    -6000 < offset < 6000 -> fourDigitYear offset ms ->
    exists s,
      toISOParis offset (nowParis ms) = Some s
      /\ Luxon.fromISO s = Instant ms
      /\ trim s = s /\ ~ In ","%char s /\ ~ In LF s
      /\ (In "."%char s <-> ms mod 1000 <> 0).
Proof.
  intros offset ms O R.
  destruct (toISO_layout true offset ms R) as [yd [_ [_ [E _]]]].
  eexists. split; [exact E|].
  destruct (toISOParis_plainStamp offset ms _ O R E) as [F [_ [T [C L]]]].
  destruct (toISOParis_fraction offset ms _ E) as [D _].
  repeat split; try assumption; apply D.
Qed.

Lemma toISOParis_reads_back_witness :
  exists s,
    toISOParis 60 (nowParis 1709384700123) = Some s
    /\ Luxon.fromISO s = Instant 1709384700123.
Proof.
  destruct (toISOParis_reads_back 60 1709384700123) as [s [A [B _]]].
  - lia.
  - unfold fourDigitYear. lia.
  - exists s. split; assumption.
Defined.

Lemma minutes_below_threshold ms :
  (totalMinutes ms < 90)%Q <-> ms < 5400000.
Proof. unfold totalMinutes, Qlt. cbn [Qnum Qden]. lia. Qed.

(** X2: a dose added when the clock reads [now] restarts the timer:
    the newest record's instant is [now], the elapsed time at any clock
    reading [t] is [t - now], shown as 00:00:00 at [now], and the
    warning is on exactly until 90 minutes have passed. *)
Theorem addDose_restarts_timer :
  forall (offset now : Z) (st : State) (s : str),
    -6000 < offset < 6000 -> fourDigitYear offset now ->
    isAddingDose st = false ->
    toISOParis offset (nowParis now) = Some s ->
    lastDoseDT Luxon.fromISO (addDose s st) = Some (Instant now)
    /\ (forall t,
          elapsed Luxon.fromISO (nowParis t) (addDose s st)
          = Some (Millis (t - now))
          /\ (isWarning (elapsed Luxon.fromISO (nowParis t) (addDose s st))
              = true <-> t - now < 5400000))
    /\ option_map formatElapsed
         (elapsed Luxon.fromISO (nowParis now) (addDose s st))
       = Some "00:00:00".
Proof.
  intros offset now st s O R G S.
  destruct (toISOParis_plainStamp offset now s O R S) as [F _].
  assert (L : lastDoseDT Luxon.fromISO (addDose s st) = Some (Instant now)).
  { unfold addDose, lastDoseDT. rewrite G. cbn [entries tsISO].
    rewrite F. reflexivity. }
  assert (E : forall t, elapsed Luxon.fromISO (nowParis t) (addDose s st)
                        = Some (Millis (t - now))).
  { intros t. unfold elapsed. rewrite L. reflexivity. }
  split; [exact L|]. split.
  - intros t. split; [apply E|]. rewrite E. cbn [isWarning].
    rewrite lessThan_spec. apply minutes_below_threshold.
  - rewrite E. replace (now - now) with 0 by lia. reflexivity.
Qed.

Lemma addDose_restarts_timer_witness :
  lastDoseDT Luxon.fromISO
    (addDose "2024-03-02T14:05:00.123+01:00" (stateOf sampleLog))
  = Some (Instant 1709384700123).
Proof.
  destruct (addDose_restarts_timer 60 1709384700123 (stateOf sampleLog)
              "2024-03-02T14:05:00.123+01:00") as [H _].
  - lia.
  - unfold fourDigitYear. lia.
  - reflexivity.
  - vm_compute. reflexivity.
  - exact H.
Defined.

Ltac sample_session :=
  unfold sampleSession;
  apply session_delete, session_add;
    [apply session_slider;
       [apply session_finish, session_add;
          [apply session_load; constructor| |constructor]
       |cbn; lia]
    | |];
    [ repeat split; try reflexivity; try discriminate;
        cbv; intuition discriminate
    | repeat split; try reflexivity; try discriminate;
        cbv; intuition discriminate
    | repeat constructor; cbv; discriminate ].

(** X3: whatever the user does, the stored text is the log: loading it
    again gives the log on display, which is most recent first and
    made of records the encoder and the decoder agree on. *)
Theorem session_reload :
  forall fromISO : str -> DateTime,
    toMillis (fromISO []) = None ->
    forall st : State,
      session fromISO st ->
      loadEntries fromISO (stored st) = entries st
      /\ entries (initialState fromISO (stored st)) = entries st
      /\ sortedDescending fromISO (entries st)
      /\ Forall (plainRecord fromISO) (entries st).
Proof.
  intros fromISO E st S.
  destruct (session_invariant fromISO E st S) as [A [B [_ C]]].
  repeat split; assumption.
Qed.

Lemma session_reload_witness :
  loadEntries Luxon.fromISO (stored sampleSession) = entries sampleSession.
Proof.
  apply session_reload; [reflexivity | sample_session].
Defined.

(** X4: the export offers a file exactly when the log is not empty;
    the file is named after the day and its text is the encoded log,
    which loads back as the log on display. *)
Theorem exportToCSV_backup :
  forall (fromISO : str -> DateTime) (today : str),
    toMillis (fromISO []) = None ->
    forall st : State,
      session fromISO st ->
      (snd (exportToCSV today st) = None <-> entries st = [])
      /\ (forall name text,
            snd (exportToCSV today st) = Some (name, text) ->
            name = "dose-tracker-" ++ today ++ ".csv"
            /\ text = entriesToCSV (entries st)
            /\ loadEntries fromISO (Some text) = entries st).
Proof.
  intros fromISO today E st S.
  destruct (session_invariant fromISO E st S) as [A [B _]].
  unfold exportToCSV. destruct (entries st) as [|e l] eqn:L;
    cbn [length Nat.eqb snd].
  - split; [tauto | discriminate].
  - split; [split; discriminate|].
    intros name text H. apply some_inj in H.
    assert (N : name = "dose-tracker-" ++ today ++ ".csv") by congruence.
    assert (T : text = entriesToCSV (e :: l)) by congruence.
    subst name text. repeat split.
    apply (load_save fromISO E); assumption.
Qed.

Lemma exportToCSV_backup_witness :
  loadEntries Luxon.fromISO (Some (entriesToCSV (entries sampleSession)))
  = entries sampleSession.
Proof.
  destruct (exportToCSV_backup Luxon.fromISO "2024-03-02" eq_refl
              sampleSession ltac:(sample_session)) as [_ H].
  destruct (H "dose-tracker-2024-03-02.csv"
              (entriesToCSV (entries sampleSession)) eq_refl) as [_ [_ L]].
  exact L.
Defined.

Lemma notIn_existsb (c : ascii) (s : str) :
  existsb (Ascii.eqb c) s = false -> ~ In c s.
Proof.
  intros H C. assert (X : existsb (Ascii.eqb c) s = true)
    by (apply existsb_exists; exists c; split; [exact C | apply Ascii.eqb_refl]).
  congruence.
Qed.

Lemma ok_inj {A} (a b : A) : Ok a = Ok b -> a = b.
Proof. intros H. injection H as ->. reflexivity. Qed.

(** X5: whatever the text, every record the decoder returns has a
    finite amount and a timestamp without surrounding white space,
    without comma and without line feed. *)
Theorem parseCSV_records_plain :
  forall (fromISO : str -> DateTime) (csv : str) (l : list DoseEntry)
         (e : DoseEntry),
    parseCSV fromISO csv = Ok l -> In e l ->
    isFinite (amount e) = true
    /\ trim (tsISO e) = tsISO e
    /\ ~ In ","%char (tsISO e)
    /\ ~ In LF (tsISO e).
Proof.
  intros fromISO csv l e P H.
  pose proof (decoded_plain fromISO csv l P) as D.
  rewrite Forall_forall in D. exact (D e H).
Qed.

Lemma parseCSV_records_plain_witness :
  isFinite half = true
  /\ trim "2024-03-02T10:30:00+01:00" = "2024-03-02T10:30:00+01:00".
Proof.
  destruct (parseCSV_records_plain Luxon.fromISO messyText sampleLog
              (mkEntry "2024-03-02T10:30:00+01:00" half))
    as [A [B _]].
  - vm_compute. reflexivity.
  - right. left. reflexivity.
  - split; assumption.
Defined.

(** X6: the decoder's result is a normal form: encoding it and decoding
    the text again gives the same list (for timestamps that parse). *)
Theorem parseCSV_normal_form :
  forall (fromISO : str -> DateTime) (csv : str) (l : list DoseEntry),
    toMillis (fromISO []) = None ->
    parseCSV fromISO csv = Ok l ->
    Forall (parseable fromISO) l ->
    parseCSV fromISO (entriesToCSV l) = Ok l.
Proof.
  intros fromISO csv l E P F.
  assert (Q : Forall (plainRecord fromISO) l).
  { pose proof (decoded_plain fromISO csv l P) as D.
    rewrite Forall_forall in *. intros e H.
    destruct (D e H) as [A [B [C G]]]. specialize (F e H).
    repeat split; assumption. }
  assert (S : sortedDescending fromISO l).
  { rewrite parseCSV_eq in P. apply ok_inj in P. subst l.
    apply sort_sorted.
    apply (Permutation_Forall
             (x := sort (compareEntries fromISO)
                     (map entryOf (filter wellFormed (dataLines csv)))));
      [apply sort_perm | exact F]. }
  rewrite parseCSV_eq, (dataLines_encoded fromISO E) by exact Q.
  rewrite (decode_lines fromISO E) by exact Q.
  rewrite sort_fixpoint by exact S. reflexivity.
Qed.

Lemma parseCSV_normal_form_witness :
  parseCSV Luxon.fromISO (entriesToCSV sampleLog) = Ok sampleLog.
Proof.
  apply (parseCSV_normal_form Luxon.fromISO messyText).
  - reflexivity.
  - vm_compute. reflexivity.
  - repeat constructor; discriminate.
Defined.

(** X7: the decoder's sort is stable: the records of one instant come
    out in the order of their lines. *)
Theorem parseCSV_stable :
  forall (fromISO : str -> DateTime) (csv : str) (l : list DoseEntry)
         (t : Z),
    parseCSV fromISO csv = Ok l ->
    Forall (parseable fromISO) l ->
    filter (sameInstant fromISO t) l
    = filter (sameInstant fromISO t)
        (map entryOf (filter wellFormed (dataLines csv))).
Proof.
  intros fromISO csv l t P F.
  rewrite parseCSV_eq in P. apply ok_inj in P. subst l.
  apply sort_sameInstant.
  apply (Permutation_Forall
           (x := sort (compareEntries fromISO)
                   (map entryOf (filter wellFormed (dataLines csv)))));
    [apply sort_perm | exact F].
Qed.

Lemma parseCSV_stable_witness :
  filter (sameInstant Luxon.fromISO 1709384700000)
    [ mkEntry "2024-03-02T14:05:00+01:00" one;
      mkEntry "2024-03-02T13:05:00Z" half;
      mkEntry "2024-03-02T10:30:00+01:00" half ]
  = [ mkEntry "2024-03-02T14:05:00+01:00" one;
      mkEntry "2024-03-02T13:05:00Z" half ].
Proof.
  rewrite (parseCSV_stable Luxon.fromISO tiedText _ 1709384700000).
  - vm_compute. reflexivity.
  - vm_compute. reflexivity.
  - repeat constructor; discriminate.
Defined.

(** X8: the header line is not needed: the encoded log without it
    decodes to the same log, unless its first line reads as a header. *)
Theorem parseCSV_without_header :
  forall (fromISO : str -> DateTime) (r : list DoseEntry),
    toMillis (fromISO []) = None ->
    sortedDescending fromISO r ->
    Forall (plainRecord fromISO) r ->
    (forall e, hd_error r = Some e -> isHeader (entryLine e) = false) ->
    parseCSV fromISO (join [LF] (map entryLine r)) = Ok r.
Proof.
  intros fromISO r E S P H. rewrite parseCSV_eq.
  destruct r as [|e r]; [reflexivity|].
  rewrite (dataLines_headless fromISO E) by (auto using eq_refl).
  rewrite (decode_lines fromISO E) by exact P.
  rewrite sort_fixpoint by exact S. reflexivity.
Qed.

Lemma parseCSV_without_header_witness :
  parseCSV Luxon.fromISO (join [LF] (map entryLine sampleLog)) = Ok sampleLog.
Proof.
  apply parseCSV_without_header.
  - reflexivity.
  - repeat constructor; cbv; discriminate.
  - repeat constructor; try discriminate; cbv; intuition discriminate.
  - intros e H. apply some_inj in H. subst e. reflexivity.
Defined.

(** X9: line ends may be CR LF: a text without CR and the same text
    with CR LF for each LF decode alike; and the encoded log with CR LF
    between its lines decodes to the log. *)
Theorem parseCSV_crlf :
  forall fromISO : str -> DateTime,
    (forall text, ~ In CR text ->
       parseCSV fromISO (toCRLF text) = parseCSV fromISO text)
    /\ (forall r,
          toMillis (fromISO []) = None ->
          sortedDescending fromISO r ->
          Forall (plainRecord fromISO) r ->
          parseCSV fromISO (join [CR; LF] (CSV_HEADER :: map entryLine r))
          = Ok r).
Proof.
  intros fromISO. split.
  - intros text H. rewrite !parseCSV_eq, dataLines_toCRLF by exact H.
    reflexivity.
  - intros r E S P.
    rewrite parseCSV_eq, (dataLines_crlf fromISO E) by exact P.
    rewrite (decode_lines fromISO E) by exact P.
    rewrite sort_fixpoint by exact S. reflexivity.
Qed.

Lemma parseCSV_crlf_witness :
  parseCSV Luxon.fromISO (toCRLF sampleText) = Ok sampleLog.
Proof.
  destruct (parseCSV_crlf Luxon.fromISO) as [H _].
  rewrite H; [reflexivity|].
  apply notIn_existsb. vm_compute. reflexivity.
Defined.

(** X10: [deleteSingleDose] removes the records that carry the
    timestamp of the record to delete, whatever their amount, and no
    other: the remaining records keep their order; in a log without
    repeated timestamps exactly one record goes; a timestamp that is
    not in the log leaves the log as it is; the new log is stored;
    deleting again changes nothing. *)
Theorem deleteSingleDose_exact :
  forall (e : DoseEntry) (st : State),
    (forall x, In x (entries (deleteSingleDose e st))
               <-> In x (entries st) /\ tsISO x <> tsISO e)
    /\ (forall l1 x l2,
          entries st = l1 ++ x :: l2 ->
          NoDup (map tsISO (entries st)) ->
          tsISO x = tsISO e ->
          entries (deleteSingleDose e st) = l1 ++ l2)
    /\ (Forall (fun x => tsISO x <> tsISO e) (entries st) ->
        entries (deleteSingleDose e st) = entries st)
    /\ (forall e', tsISO e' = tsISO e ->
                   deleteSingleDose e' st = deleteSingleDose e st)
    /\ stored (deleteSingleDose e st)
       = Some (entriesToCSV (entries (deleteSingleDose e st)))
    /\ deleteSingleDose e (deleteSingleDose e st) = deleteSingleDose e st.
Proof.
  intros e st. split; [|split; [|split; [|split; [|split]]]].
  - intros x. apply remaining_In.
  - intros l1 x l2 L N E. cbn [deleteSingleDose entries].
    fold (remaining e (entries st)). rewrite L in N |- *.
    apply remaining_one; assumption.
  - intros F. apply remaining_all, F.
  - intros e' E. unfold deleteSingleDose. rewrite E. reflexivity.
  - reflexivity.
  - unfold deleteSingleDose. cbn [entries doseAmt isAddingDose].
    fold (remaining e (entries st)).
    fold (remaining e (remaining e (entries st))).
    rewrite remaining_idem. reflexivity.
Qed.

Lemma deleteSingleDose_exact_witness :
  entries (deleteSingleDose (mkEntry "2024-03-02T14:05:00+01:00" Zero)
             (stateOf sampleLog))
  = [mkEntry "2024-03-02T10:30:00+01:00" half].
Proof.
  destruct (deleteSingleDose_exact
              (mkEntry "2024-03-02T14:05:00+01:00" Zero) (stateOf sampleLog))
    as [_ [H _]].
  apply (H [] (mkEntry "2024-03-02T14:05:00+01:00" one)
           [mkEntry "2024-03-02T10:30:00+01:00" half]).
  - reflexivity.
  - repeat constructor; cbv; intuition discriminate.
  - reflexivity.
Defined.

(** X11: the guard of [addDose]: while the flag a click sets is up,
    further clicks change nothing, so two clicks in a row add one
    record; a click with the flag down puts one record, stamped with
    the clock reading, in front of the log and stores the new log; once
    the timer has taken the flag down, the next click adds again. *)
Theorem addDose_guard :
  forall (t1 t2 : str) (st : State),
    addDose t2 (addDose t1 st) = addDose t1 st
    /\ (isAddingDose st = true -> addDose t1 st = st)
    /\ (isAddingDose st = false ->
        entries (addDose t1 st) = newEntryOf t1 st :: entries st
        /\ stored (addDose t1 st)
           = Some (entriesToCSV (newEntryOf t1 st :: entries st))
        /\ isAddingDose (addDose t1 st) = true
        /\ entries (addDose t2 (finishAdding (addDose t1 st)))
           = newEntryOf t2 st :: newEntryOf t1 st :: entries st).
Proof.
  intros t1 t2 st. unfold addDose at 2 3 4.
  destruct (isAddingDose st) eqn:G.
  - split; [|split; [reflexivity | discriminate]].
    unfold addDose. rewrite G. reflexivity.
  - split; [reflexivity|]. split; [discriminate|]. intros _.
    unfold addDose. rewrite G. repeat split.
Qed.

Lemma addDose_guard_witness :
  entries (addDose "2024-03-02T15:35:00+01:00" (stateOf sampleLog))
  = newEntryOf "2024-03-02T15:35:00+01:00" (stateOf sampleLog) :: sampleLog.
Proof.
  destruct (addDose_guard "2024-03-02T15:35:00+01:00" []
              (stateOf sampleLog)) as [_ [_ H]].
  destruct (H eq_refl) as [E _]. exact E.
Defined.

(** X12: [formatElapsed] outside its range: for a negative duration the
    hours field is a 0 followed by the negative count of hours, rounded
    down, with minutes and seconds still between 00 and 59, so one
    second before zero reads 0-1:59:59; an invalid duration reads
    NaN:NaN:NaN. *)
Theorem formatElapsed_outside_range :
  (forall ms, ms < 0 ->
     formatElapsed (Millis ms)
     = "0-" ++ str_of_digits (digits_of_N (Z.abs_N (wholeHours ms)))
         ++ ":" ++ twoDigit (minutesPart ms)
         ++ ":" ++ twoDigit (secondsPart ms)
     /\ wholeHours ms < 0
     /\ 0 <= minutesPart ms < 60 /\ 0 <= secondsPart ms < 60)
  /\ formatElapsed (Millis (-1000)) = "0-1:59:59"
  /\ formatElapsed InvalidDuration = "NaN:NaN:NaN".
Proof.
  split; [|split; reflexivity].
  intros ms H.
  assert (W : wholeHours ms < 0)
    by (unfold wholeHours; apply Z.div_lt_upper_bound; lia).
  split; [|split; [exact W | apply part_bounds]].
  rewrite formatElapsed_fields, pad_negative by exact W.
  rewrite <- !app_assoc. reflexivity.
Qed.

Lemma formatElapsed_outside_range_witness :
  formatElapsed (Millis (-5400001)) = "0-2:29:59".
Proof.
  destruct formatElapsed_outside_range as [H _].
  destruct (H (-5400001) ltac:(lia)) as [E _].
  rewrite E. reflexivity.
Defined.

(** X13: [intervalSincePrev] and the bounds of the log: for every index
    of the log it completes with a text; for an index beyond the log it
    raises a TypeError; when one of the two timestamps does not parse
    the text is NaNh NaNm. *)
Theorem intervalSincePrev_bounds :
  forall (fromISO : str -> DateTime) (st : State) (i : nat),
    ((i < length (entries st))%nat ->
     exists s, intervalSincePrev fromISO st i = Ok s)
    /\ ((length (entries st) <= i)%nat ->
        intervalSincePrev fromISO st i = TypeError)
    /\ (forall newer older,
          nth_error (entries st) i = Some newer ->
          nth_error (entries st) (S i) = Some older ->
          instantOf fromISO newer = None \/ instantOf fromISO older = None ->
          intervalSincePrev fromISO st i = Ok "NaNh NaNm").
Proof.
  intros fromISO st i. split; [|split].
  - intros H.
    destruct (Nat.eq_dec (S i) (length (entries st))) as [L|L].
    + exists DASH. apply intervalSincePrev_last, L.
    + destruct (intervalSincePrev_pair fromISO st i ltac:(lia))
        as [a [b [_ [_ E]]]].
      eexists. exact E.
  - apply intervalSincePrev_beyond.
  - intros newer older A B N.
    assert (L : (S i < length (entries st))%nat)
      by (apply nth_error_Some; congruence).
    destruct (intervalSincePrev_pair fromISO st i L) as [a [b [A' [B' E]]]].
    rewrite E. assert (a = newer) by congruence.
    assert (b = older) by congruence. subst a b.
    rewrite diff_invalid by exact N. reflexivity.
Qed.

Lemma intervalSincePrev_bounds_witness :
  (exists s, intervalSincePrev Luxon.fromISO (stateOf sampleLog) 1 = Ok s)
  /\ intervalSincePrev Luxon.fromISO (stateOf sampleLog) 2 = TypeError.
Proof.
  destruct (intervalSincePrev_bounds Luxon.fromISO (stateOf sampleLog) 1)
    as [A _].
  destruct (intervalSincePrev_bounds Luxon.fromISO (stateOf sampleLog) 2)
    as [_ [B _]].
  split; [apply A; cbn; lia | apply B; cbn; lia].
Defined.



(** X15: deleting the record that was just added gives the log back as
    it was, when no record of the log carries the new timestamp; when
    one does, it goes too. *)
Theorem delete_after_add :
  forall (nowISO : str) (st : State),
    isAddingDose st = false ->
    entries (deleteSingleDose (newEntryOf nowISO st) (addDose nowISO st))
    = remaining (newEntryOf nowISO st) (entries st)
    /\ (Forall (fun x => tsISO x <> nowISO) (entries st) ->
        entries (deleteSingleDose (newEntryOf nowISO st) (addDose nowISO st))
        = entries st)
    /\ (forall x, In x (entries st) -> tsISO x = nowISO ->
          ~ In x (entries (deleteSingleDose (newEntryOf nowISO st)
                             (addDose nowISO st)))).
Proof.
  intros nowISO st G.
  assert (E : entries (deleteSingleDose (newEntryOf nowISO st)
                         (addDose nowISO st))
              = remaining (newEntryOf nowISO st) (entries st)).
  { unfold addDose. rewrite G. cbn [deleteSingleDose entries].
    fold (newEntryOf nowISO st). cbn [filter].
    assert (X : str_eqb (tsISO (newEntryOf nowISO st))
                  (tsISO (newEntryOf nowISO st)) = true)
      by (apply str_eqb_eq; reflexivity).
    rewrite X. reflexivity. }
  rewrite E. split; [reflexivity|]. split.
  - intros F. apply remaining_all. exact F.
  - intros x _ T C. apply remaining_In in C as [_ C]. apply C. exact T.
Qed.

Lemma delete_after_add_witness :
  entries (deleteSingleDose
             (newEntryOf "2024-03-02T15:35:00+01:00" (stateOf sampleLog))
             (addDose "2024-03-02T15:35:00+01:00" (stateOf sampleLog)))
  = sampleLog.
Proof.
  destruct (delete_after_add "2024-03-02T15:35:00+01:00" (stateOf sampleLog)
              eq_refl) as [_ [H _]].
  apply H. repeat constructor; cbv; discriminate.
Defined.

Lemma blank_no_comma ws :
  forallb isWhiteSpace ws = true -> ~ In ","%char ws.
Proof.
  intros H C. rewrite forallb_forall in H. specialize (H _ C). discriminate.
Qed.

(** X16: an amount field of white space only is not a missing amount:
    the line gives a record of amount 0, while a line that ends with
    its comma gives none. *)
Theorem blank_amount_is_zero :
  forall (acc : list DoseEntry) (ts ws : str),
    ts <> [] -> ~ In ","%char ts ->
    forallb isWhiteSpace ws = true ->
    parseRow acc (ts ++ "," ++ ws)
    = Ok (if truthy_str ws then acc ++ [mkEntry (trim ts) Zero] else acc).
Proof.
  intros acc ts ws NE C W.
  destruct (fieldsRead_three ts ws [] C (blank_no_comma ws W)) as [_ F].
  rewrite parseRow_eq. unfold wellFormed, entryOf. rewrite F.
  cbn [Number]. unfold StringToNumber. rewrite (trim_blank ws W).
  cbn [isFinite truthy]. destruct ts as [|c ts]; [congruence|].
  cbn [truthy_str andb]. destruct (truthy_str ws).
  - reflexivity.
  - rewrite app_nil_r. reflexivity.
Qed.

Lemma blank_amount_is_zero_witness :
  parseRow [] "2024-03-02T10:30:00+01:00, "
  = Ok [mkEntry "2024-03-02T10:30:00+01:00" Zero].
Proof.
  apply (blank_amount_is_zero [] "2024-03-02T10:30:00+01:00" " ").
  - discriminate.
  - cbv. intuition discriminate.
  - reflexivity.
Defined.

Lemma single_line c h :
  isWhiteSpace c = false -> endsClean (c :: h) -> ~ In LF (c :: h) ->
  nonEmptyLines (c :: h) = [c :: h].
Proof.
  intros Hc E L.
  apply (nonEmptyLines_joined [LF] c h []); [exact Hc| |].
  - constructor; [|constructor]. split; [exact E | reflexivity].
  - cbn [join]. apply splitLines_last, L.
Qed.

(** X17: the decoder does not look at the timestamp: a line whose first
    field is no timestamp is kept with that field; loaded as the only
    record, it makes the timer read NaN:NaN:NaN with no warning, and
    its interval is the dash. *)
Theorem unparseable_timestamp_kept :
  forall (fromISO : str -> DateTime) (now : DateTime) (ts : str),
    ts <> [] -> trim ts = ts -> ~ In ","%char ts -> ~ In LF ts ->
    isHeader (ts ++ ",1") = false ->
    parseCSV fromISO (ts ++ ",1") = Ok [mkEntry ts one]
    /\ (toMillis (fromISO ts) = None ->
        let st := initialState fromISO (Some (ts ++ ",1")) in
        entries st = [mkEntry ts one]
        /\ option_map formatElapsed (elapsed fromISO now st)
           = Some "NaN:NaN:NaN"
        /\ isWarning (elapsed fromISO now st) = false
        /\ intervalSincePrev fromISO st 0 = Ok DASH).
Proof.
  intros fromISO now ts NE T C L H.
  assert (P : parseCSV fromISO (ts ++ ",1") = Ok [mkEntry ts one]).
  { rewrite parseCSV_eq. unfold dataLines.
    destruct ts as [|c h]; [congruence|].
    change ((c :: h) ++ ",1") with (c :: (h ++ ",1")) in *.
    rewrite single_line.
    - change (c :: (h ++ ",1")) with ((c :: h) ++ ",1") in *.
      rewrite H.
      destruct (fieldsRead_three (c :: h) "1" [] C) as [_ F];
        [cbv; intuition discriminate|].
      change ((c :: h) ++ "," ++ "1") with ((c :: h) ++ ",1") in F.
      assert (W : wellFormed ((c :: h) ++ ",1") = true)
        by (unfold wellFormed; rewrite F; reflexivity).
      assert (E : entryOf ((c :: h) ++ ",1") = mkEntry (c :: h) one)
        by (unfold entryOf; rewrite F, T; reflexivity).
      cbn [filter]. rewrite W. cbn [map]. rewrite E. reflexivity.
    - apply trimmed_head with (s := h). exact T.
    - apply (endsClean_app (c :: h) ",1").
      exists [","%char], "1"%char. split; reflexivity.
    - change (c :: (h ++ ",1")) with ((c :: h) ++ ",1").
      intros X. apply in_app_or in X as [X|X]; [exact (L X)|].
      cbv in X. intuition discriminate. }
  split; [exact P|]. intros N st.
  assert (E : entries st = [mkEntry ts one]).
  { unfold st, initialState, loadEntries. cbn [entries].
    destruct ts as [|c h]; [congruence|]. cbn [app truthy_str negb].
    change (c :: (h ++ ",1")) with ((c :: h) ++ ",1").
    rewrite P. reflexivity. }
  split; [exact E|].
  assert (D : elapsed fromISO now st = Some InvalidDuration).
  { unfold elapsed, lastDoseDT. rewrite E. cbn [tsISO].
    destruct (fromISO ts); [discriminate|].
    unfold shiftTo. destruct now; reflexivity. }
  rewrite D. split; [reflexivity|]. split; [reflexivity|].
  apply intervalSincePrev_last. rewrite E. reflexivity.
Qed.

Lemma unparseable_timestamp_kept_witness :
  parseCSV Luxon.fromISO "yesterday,1" = Ok [mkEntry "yesterday" one].
Proof.
  refine (proj1 (unparseable_timestamp_kept Luxon.fromISO (Instant 0)
                   "yesterday" _ _ _ _ _)).
  - discriminate.
  - reflexivity.
  - cbv. intuition discriminate.
  - cbv. intuition discriminate.
  - reflexivity.
Defined.

(** ** The service worker's caches *)

Lemma str_eqb_refl a : str_eqb a a = true.
Proof. apply str_eqb_eq. reflexivity. Qed.

Lemma str_eqb_neq a b : str_eqb a b = false <-> a <> b.
Proof.
  destruct (str_eqb a b) eqn:E.
  - apply str_eqb_eq in E. split; [discriminate | contradiction].
  - split; [|reflexivity]. intros _ C. apply str_eqb_eq in C. congruence.
Qed.

Lemma cacheMatch_In u c r : SW.cacheMatch u c = Some r -> In (u, r) c.
Proof.
  induction c as [|[k x] c IH]; [discriminate|].
  cbn [SW.cacheMatch]. destruct (str_eqb k u) eqn:E.
  - apply str_eqb_eq in E. intros H. apply some_inj in H. subst. left.
    reflexivity.
  - intros H. right. apply IH, H.
Qed.

Lemma cachePut_In u r c k x :
  In (k, x) (SW.cachePut u r c) -> In (k, x) c \/ (k = u /\ x = r).
Proof.
  unfold SW.cachePut. intros H. apply in_app_or in H as [H|[H|[]]].
  - left. apply filter_In in H. apply H.
  - right. split; congruence.
Qed.

Lemma cachePut_match u r c : SW.cacheMatch u (SW.cachePut u r c) = Some r.
Proof.
  unfold SW.cachePut. induction c as [|[k x] c IH].
  - cbn. rewrite str_eqb_refl. reflexivity.
  - cbn [filter fst]. destruct (str_eqb k u) eqn:E; cbn [negb]; [exact IH|].
    cbn [app SW.cacheMatch]. rewrite E. exact IH.
Qed.

Lemma cachePut_other u r c k :
  k <> u -> SW.cacheMatch k (SW.cachePut u r c) = SW.cacheMatch k c.
Proof.
  intros N. unfold SW.cachePut. induction c as [|[k' x] c IH].
  - cbn. apply str_eqb_neq in N.
    destruct (str_eqb u k) eqn:E; [|reflexivity].
    apply str_eqb_eq in E. apply str_eqb_neq in N. congruence.
  - cbn [filter fst]. destruct (str_eqb k' u) eqn:E; cbn [negb].
    + cbn [SW.cacheMatch]. apply str_eqb_eq in E. subst k'.
      assert (X : str_eqb u k = false) by (apply str_eqb_neq; congruence).
      rewrite X. exact IH.
    + cbn [app SW.cacheMatch]. destruct (str_eqb k' k); [reflexivity|].
      exact IH.
Qed.

Lemma cachePut_keeps u r c k :
  SW.cacheMatch k c <> None -> SW.cacheMatch k (SW.cachePut u r c) <> None.
Proof.
  intros H. destruct (list_eq_dec ascii_dec k u) as [->|N].
  - rewrite cachePut_match. discriminate.
  - rewrite cachePut_other by exact N. exact H.
Qed.

Lemma withCache_holds name f cs n u r :
  holds (SW.withCache name f cs) n u r ->
  holds cs n u r \/ (n = name /\ exists c, In (u, r) (f c)
                                          /\ (c = [] \/ In (name, c) cs)).
Proof.
  induction cs as [|[k c] cs IH]; cbn [SW.withCache].
  - intros [c [[H|[]] Hin]]. right.
    assert (n = name) by congruence. assert (c = f []) by congruence.
    subst. split; [reflexivity|]. exists []. auto.
  - destruct (str_eqb k name) eqn:E.
    + apply str_eqb_eq in E. subst k.
      intros [c' [[H|H] Hin]].
      * right. assert (n = name) by congruence.
        assert (c' = f c) by congruence. subst.
        split; [reflexivity|]. exists c. split; [exact Hin|].
        right. left. reflexivity.
      * left. exists c'. split; [right; exact H | exact Hin].
    + intros [c' [[H|H] Hin]].
      * left. exists c'. split; [left; exact H | exact Hin].
      * destruct IH as [[c2 [A B]]|[A [c2 [B [C|C]]]]].
        -- exists c'. split; assumption.
        -- left. exists c2. split; [right; exact A | exact B].
        -- right. split; [exact A|]. exists c2. auto.
        -- right. split; [exact A|]. exists c2.
           split; [exact B|]. right. right. exact C.
Qed.

Lemma cachesMatch_withCache_put name u r cs :
  SW.cachesMatch u cs = None ->
  SW.cachesMatch u (SW.withCache name (SW.cachePut u r) cs) = Some r.
Proof.
  induction cs as [|[k c] cs IH]; cbn [SW.withCache SW.cachesMatch].
  - intros _. cbn. rewrite str_eqb_refl. reflexivity.
  - destruct (SW.cacheMatch u c) eqn:M; [discriminate|]. intros H.
    destruct (str_eqb k name); cbn [SW.cachesMatch].
    + rewrite cachePut_match. reflexivity.
    + rewrite M. apply IH, H.
Qed.

Lemma cacheNamed_withCache name f cs :
  cacheNamed name (SW.withCache name f cs)
  = Some (f (match cacheNamed name cs with Some c => c | None => [] end)).
Proof.
  induction cs as [|[k c] cs IH]; cbn [SW.withCache cacheNamed].
  - rewrite str_eqb_refl. reflexivity.
  - destruct (str_eqb k name) eqn:E; cbn [cacheNamed]; rewrite E;
      [reflexivity | exact IH].
Qed.

Lemma cacheNamed_activate cs :
  cacheNamed SW.CACHE (SW.onActivate cs) = cacheNamed SW.CACHE cs.
Proof.
  unfold SW.onActivate. induction cs as [|[k c] cs IH]; [reflexivity|].
  cbn [filter fst cacheNamed].
  destruct (str_eqb k SW.CACHE) eqn:E; [|exact IH].
  cbn [cacheNamed]. rewrite E. reflexivity.
Qed.

Lemma cacheNamed_match name u cs c :
  cacheNamed name cs = Some c -> SW.cacheMatch u c <> None ->
  SW.cachesMatch u cs <> None.
Proof.
  induction cs as [|[k c'] cs IH]; [discriminate|].
  cbn [cacheNamed SW.cachesMatch].
  destruct (SW.cacheMatch u c') eqn:M; [discriminate|].
  destruct (str_eqb k name).
  - intros H. apply some_inj in H. subst. congruence.
  - exact IH.
Qed.

Lemma cachedInCurrent_fetch u origin network req cs :
  cachedInCurrent u cs ->
  cachedInCurrent u (snd (SW.onFetch origin network req cs)).
Proof.
  intros R. unfold SW.onFetch.
  destruct (negb (str_eqb (SW.method req) "GET")
            || negb (startsWith (SW.url req) origin)); [exact R|].
  destruct (SW.cachesMatch (SW.url req) cs); [exact R|].
  destruct (network req) as [response|].
  - cbn [snd]. destruct (SW.status response =? 200); [|exact R].
    destruct R as [c [A B]]. unfold cachedInCurrent.
    rewrite cacheNamed_withCache, A. eexists. split; [reflexivity|].
    apply cachePut_keeps, B.
  - destruct (str_eqb (SW.mode req) "navigate"); exact R.
Qed.

Lemma cachedInCurrent_afterFetches u origin events cs :
  cachedInCurrent u cs -> cachedInCurrent u (afterFetches origin events cs).
Proof.
  revert cs. induction events as [|ev events IH]; intros cs R; [exact R|].
  apply IH, cachedInCurrent_fetch, R.
Qed.

Lemma cachedInCurrent_activate u cs :
  cachedInCurrent u cs -> cachedInCurrent u (SW.onActivate cs).
Proof.
  intros [c [A B]]. exists c. split; [|exact B].
  rewrite cacheNamed_activate. exact A.
Qed.

Lemma cachedInCurrent_match u cs :
  cachedInCurrent u cs -> SW.cachesMatch u cs <> None.
Proof. intros [c [A B]]. exact (cacheNamed_match _ _ _ _ A B). Qed.

Lemma str_eqb_app o a b : str_eqb (o ++ a) (o ++ b) = str_eqb a b.
Proof.
  destruct (str_eqb a b) eqn:E.
  - apply str_eqb_eq in E. subst. apply str_eqb_refl.
  - apply str_eqb_neq. apply str_eqb_neq in E. intros C.
    apply app_inv_head in C. contradiction.
Qed.

Lemma fetchAll_urls network reqs l :
  SW.fetchAll network reqs = Some l -> map fst l = map SW.url reqs.
Proof.
  revert l. induction reqs as [|q reqs IH]; intros l.
  - cbn. intros H. apply some_inj in H. subst. reflexivity.
  - cbn [SW.fetchAll]. destruct (network q) as [r|]; [|discriminate].
    destruct (SW.ok r); [|discriminate].
    destruct (SW.fetchAll network reqs) as [l'|]; [|discriminate].
    intros H. apply some_inj in H. subst. cbn [map fst]. f_equal.
    apply IH. reflexivity.
Qed.

Lemma putAll_keeps k l c :
  SW.cacheMatch k c <> None ->
  SW.cacheMatch k
    (fold_left (fun c' e => SW.cachePut (fst e) (snd e) c') l c) <> None.
Proof.
  revert c. induction l as [|e l IH]; intros c H; [exact H|].
  cbn [fold_left]. apply IH, cachePut_keeps, H.
Qed.

Lemma putAll_has k l c :
  In k (map fst l) ->
  SW.cacheMatch k
    (fold_left (fun c' e => SW.cachePut (fst e) (snd e) c') l c) <> None.
Proof.
  revert c. induction l as [|e l IH]; intros c; [intros []|].
  cbn [map fold_left]. intros [H|H].
  - apply putAll_keeps. rewrite H, cachePut_match. discriminate.
  - apply IH, H.
Qed.

(** A successful install leaves every asset in the current cache. *)
Lemma assets_installed origin network cs path :
  fst (SW.onInstall origin network cs) = true -> In path SW.ASSETS ->
  cachedInCurrent (origin ++ path) (snd (SW.onInstall origin network cs)).
Proof.
  unfold SW.onInstall.
  destruct (SW.fetchAll network (map (SW.assetRequest origin) SW.ASSETS))
    as [l|] eqn:F; [|discriminate].
  intros _ P. cbn [snd]. unfold cachedInCurrent.
  rewrite cacheNamed_withCache. eexists. split; [reflexivity|].
  apply putAll_has. rewrite (fetchAll_urls _ _ _ F), map_map.
  apply (in_map (fun p => origin ++ p)) in P. exact P.
Qed.

Lemma cachesMatch_holds u cs r :
  SW.cachesMatch u cs = Some r -> exists name, holds cs name u r.
Proof.
  induction cs as [|[k c] cs IH]; [discriminate|].
  cbn [SW.cachesMatch]. destruct (SW.cacheMatch u c) as [x|] eqn:C.
  - intros E. apply some_inj in E. subst x. exists k, c.
    split; [left; reflexivity | apply cacheMatch_In, C].
  - intros E. destruct (IH E) as [name [c' [A B]]].
    exists name, c'. split; [right; exact A | exact B].
Qed.

Lemma handled_fetch origin req :
  SW.method req = "GET" -> startsWith (SW.url req) origin = true ->
  negb (str_eqb (SW.method req) "GET")
  || negb (startsWith (SW.url req) origin) = false.
Proof. intros -> ->. reflexivity. Qed.

Lemma cacheMatch_none u c r : SW.cacheMatch u c = None -> ~ In (u, r) c.
Proof.
  induction c as [|[k x] c IH]; [intros _ []|].
  cbn [SW.cacheMatch]. destruct (str_eqb k u) eqn:E; [discriminate|].
  intros H [C|C]; [|exact (IH H C)].
  apply str_eqb_neq in E. congruence.
Qed.

Lemma cachesMatch_none u cs name r :
  SW.cachesMatch u cs = None -> ~ holds cs name u r.
Proof.
  induction cs as [|[k c] cs IH]; [intros _ [c [[] _]]|].
  cbn [SW.cachesMatch]. destruct (SW.cacheMatch u c) eqn:M; [discriminate|].
  intros H [c' [[A|A] B]].
  - assert (c' = c) by congruence. subst c'.
    exact (cacheMatch_none u c r M B).
  - apply (IH H). exists c'. split; assumption.
Qed.

Lemma withCache_mono name f cs n k x :
  (forall c, In (k, x) c -> In (k, x) (f c)) ->
  holds cs n k x -> holds (SW.withCache name f cs) n k x.
Proof.
  intros F. induction cs as [|[k' c] cs IH]; [intros [c [[] _]]|].
  intros [c' [[A|A] B]]; cbn [SW.withCache].
  - assert (k' = n) by congruence. assert (c' = c) by congruence. subst.
    destruct (str_eqb n name).
    + exists (f c). split; [left; reflexivity | apply F, B].
    + exists c. split; [left; reflexivity | exact B].
  - destruct (str_eqb k' name).
    + exists c'. split; [right; exact A | exact B].
    + destruct IH as [c2 [A2 B2]]; [exists c'; split; assumption|].
      exists c2. split; [right; exact A2 | exact B2].
Qed.

(** X18: what a fetch event stores: nothing goes, and every entry of
    the cache storage after the event was there before, or it is the
    response of the network to this very request, of status 200, stored
    in the current cache under the request's URL, the request being a
    GET for a URL that begins with the worker's origin and that no
    cache could answer. *)
Theorem onFetch_stores_only :
  forall (origin : str) (network : SW.Request -> option SW.Response)
         (req : SW.Request) (cs : SW.CacheStorage)
         (name u : str) (r : SW.Response),
    (holds cs name u r ->
     holds (snd (SW.onFetch origin network req cs)) name u r)
    /\ (holds (snd (SW.onFetch origin network req cs)) name u r ->
        holds cs name u r
        \/ (name = SW.CACHE /\ u = SW.url req
            /\ network req = Some r /\ SW.status r = 200
            /\ SW.method req = "GET"
            /\ startsWith (SW.url req) origin = true
            /\ SW.cachesMatch (SW.url req) cs = None)).
Proof.
  intros origin network req cs name u r. unfold SW.onFetch.
  destruct (str_eqb (SW.method req) "GET") eqn:M; cbn [negb orb];
    [|split; [intros H; exact H | intros H; left; exact H]].
  destruct (startsWith (SW.url req) origin) eqn:P; cbn [negb];
    [|split; [intros H; exact H | intros H; left; exact H]].
  destruct (SW.cachesMatch (SW.url req) cs) eqn:C;
    [split; [intros H; exact H | intros H; left; exact H]|].
  destruct (network req) as [response|] eqn:N.
  - cbn [snd]. destruct (SW.status response =? 200) eqn:S;
      [|split; [intros H; exact H | intros H; left; exact H]].
    split.
    + intros H. apply withCache_mono; [|exact H].
      intros c B. unfold SW.cachePut. apply in_or_app. left.
      apply filter_In. split; [exact B|]. cbn [fst].
      apply negb_true_iff, str_eqb_neq. intros E. subst u.
      exact (cachesMatch_none _ _ _ _ C H).
    + intros H. apply withCache_holds in H as [H|[A [c [B D]]]];
        [left; exact H|].
      apply cachePut_In in B as [B|[B1 B2]].
      * left. destruct D as [->|D]; [contradiction|].
        exists c. subst name. split; assumption.
      * right. subst. apply str_eqb_eq in M. apply Z.eqb_eq in S.
        repeat split; assumption.
  - destruct (str_eqb (SW.mode req) "navigate"); (split; [intros H; exact H | intros H; left; exact H]).
Qed.

Lemma onFetch_stores_only_witness :
  holds (snd (SW.onFetch sampleOrigin sampleNetwork sampleRequest
                sampleCaches))
    "dose-tracker-v0" "https://dose.example/" (SW.mkResponse 200 "old").
Proof.
  apply (proj1 (onFetch_stores_only sampleOrigin sampleNetwork sampleRequest
                  sampleCaches "dose-tracker-v0" "https://dose.example/"
                  (SW.mkResponse 200 "old"))).
  unfold holds, sampleCaches. eexists.
  split; [left; reflexivity | left; reflexivity].
Defined.

(** X19: cache first: a GET for a URL of the worker's origin that a
    cache can answer is answered from the cache, whatever the network
    does, and the storage stays as it is; one that no cache can answer
    and the network answers with status 200 is answered with that
    response, and from then on from the cache, also without network. *)
Theorem onFetch_cache_first :
  forall (origin : str) (network : SW.Request -> option SW.Response)
         (req : SW.Request) (cs : SW.CacheStorage),
    SW.method req = "GET" -> startsWith (SW.url req) origin = true ->
    (forall cached, SW.cachesMatch (SW.url req) cs = Some cached ->
       SW.onFetch origin network req cs = (SW.Responded cached, cs))
    /\ (forall r, SW.cachesMatch (SW.url req) cs = None ->
          network req = Some r -> SW.status r = 200 ->
          fst (SW.onFetch origin network req cs) = SW.Responded r
          /\ forall network',
               SW.onFetch origin network' req
                 (snd (SW.onFetch origin network req cs))
               = (SW.Responded r, snd (SW.onFetch origin network req cs))).
Proof.
  intros origin network req cs M P. split.
  - intros cached C. unfold SW.onFetch.
    rewrite (handled_fetch origin req M P), C. reflexivity.
  - intros r C N S.
    assert (E : SW.onFetch origin network req cs
                = (SW.Responded r,
                   SW.withCache SW.CACHE (SW.cachePut (SW.url req) r) cs)).
    { unfold SW.onFetch. rewrite (handled_fetch origin req M P), C, N, S.
      reflexivity. }
    rewrite E. cbn [fst snd]. split; [reflexivity|]. intros network'.
    unfold SW.onFetch at 1. rewrite (handled_fetch origin req M P).
    rewrite cachesMatch_withCache_put by exact C. reflexivity.
Qed.

Lemma onFetch_cache_first_witness :
  fst (SW.onFetch sampleOrigin offline sampleRequest
         (snd (SW.onFetch sampleOrigin sampleNetwork sampleRequest
                 sampleCaches)))
  = SW.Responded (SW.mkResponse 200 "https://dose.example/assets/app.js").
Proof.
  destruct (onFetch_cache_first sampleOrigin sampleNetwork sampleRequest
              sampleCaches eq_refl eq_refl) as [_ H].
  destruct (H (SW.mkResponse 200 "https://dose.example/assets/app.js")
              eq_refl eq_refl eq_refl) as [_ K].
  rewrite (K offline). reflexivity.
Defined.

(** X20: once the install has succeeded, the application works
    without network: after the activation and any run of fetch events,
    a GET for one of the installed assets gets a response from a cache,
    and a navigation to any URL of the worker's origin gets a response,
    from a cache or, failing that, the cached root document. *)
Theorem offline_after_install :
  forall (origin : str) (network : SW.Request -> option SW.Response)
         (cs : SW.CacheStorage)
         (events : list ((SW.Request -> option SW.Response) * SW.Request))
         (req : SW.Request),
    fst (SW.onInstall origin network cs) = true ->
    SW.method req = "GET" -> startsWith (SW.url req) origin = true ->
    SW.mode req = "navigate"
    \/ (exists path, In path SW.ASSETS /\ SW.url req = origin ++ path) ->
    exists r,
      fst (SW.onFetch origin offline req
             (afterFetches origin events
                (SW.onActivate (snd (SW.onInstall origin network cs)))))
      = SW.Responded r.
Proof.
  intros origin network cs events req I M P N.
  assert (R : forall path, In path SW.ASSETS ->
                SW.cachesMatch (origin ++ path)
                  (afterFetches origin events
                     (SW.onActivate (snd (SW.onInstall origin network cs))))
                <> None).
  { intros path A.
    apply cachedInCurrent_match, cachedInCurrent_afterFetches,
      cachedInCurrent_activate, assets_installed; assumption. }
  unfold SW.onFetch. rewrite (handled_fetch origin req M P).
  destruct N as [N|[path [A U]]].
  - destruct (SW.cachesMatch (SW.url req) _) as [cached|];
      [exists cached; reflexivity|].
    unfold offline at 1. rewrite N, str_eqb_refl.
    specialize (R "/" (or_introl eq_refl)).
    destruct (SW.cachesMatch (origin ++ "/") _) as [r|]; [|congruence].
    exists r. reflexivity.
  - specialize (R path A). rewrite U.
    destruct (SW.cachesMatch (origin ++ path) _) as [cached|]; [|congruence].
    exists cached. reflexivity.
Qed.

Lemma offline_after_install_witness :
  exists r,
    fst (SW.onFetch sampleOrigin offline sampleNavigation
           (afterFetches sampleOrigin [(sampleNetwork, sampleRequest)]
              (SW.onActivate
                 (snd (SW.onInstall sampleOrigin sampleNetwork sampleCaches)))))
    = SW.Responded r.
Proof.
  apply offline_after_install;
    [reflexivity | reflexivity | reflexivity | left; reflexivity].
Defined.

(** X21: the activation keeps the current cache with what it holds and
    nothing else: afterwards no response comes from a cache of another
    name, and activating again changes nothing. *)
Theorem onActivate_keeps_current :
  forall cs : SW.CacheStorage,
    (forall name u r,
       holds (SW.onActivate cs) name u r
       <-> name = SW.CACHE /\ holds cs name u r)
    /\ (forall u r, SW.cachesMatch u (SW.onActivate cs) = Some r ->
                    holds cs SW.CACHE u r)
    /\ SW.onActivate (SW.onActivate cs) = SW.onActivate cs.
Proof.
  intros cs.
  assert (H1 : forall name u r,
             holds (SW.onActivate cs) name u r
             <-> name = SW.CACHE /\ holds cs name u r).
  { intros name u r. unfold holds, SW.onActivate. split.
    - intros [c [A B]]. apply filter_In in A as [A E].
      cbn [fst] in E. apply str_eqb_eq in E.
      split; [exact E|]. exists c. split; assumption.
    - intros [E [c [A B]]]. exists c. split; [|exact B].
      apply filter_In. split; [exact A|]. apply str_eqb_eq. exact E. }
  split; [exact H1|]. split.
  - intros u r M. apply cachesMatch_holds in M as [name M].
    apply H1 in M as [-> M]. exact M.
  - unfold SW.onActivate. apply forallb_filter_id, forallb_forall.
    intros e H. apply filter_In in H. apply H.
Qed.

Lemma onActivate_keeps_current_witness :
  holds sampleCaches2 SW.CACHE "https://dose.example/"
    (SW.mkResponse 200 "new").
Proof.
  destruct (onActivate_keeps_current sampleCaches2) as [_ [H _]].
  apply H. reflexivity.
Defined.
